(** * KnowRob: terms, substitutions, unification, the query parser and the
      reasoner manager

    A shallow embedding of
    - [src/lang/terms.cpp]          (module [Lang]),
    - [src/terms/Substitution.cpp]  (module [Terms]),
    - [src/queries/QueryParser.cpp] (module [QueryParser]),
    - [src/reasoner.cpp]            (module [Reasoner]),
    over models of [std::map] and [std::queue] (modules [StdMap] and
    [StdQueue]), followed by the properties established about them.

    The two generations of the term library are kept apart: [Lang] has the
    substitution whose [set] overwrites, with [combine] and the [Operation]
    objects, [Terms] the one whose [set] inserts, with [unifyWith] and the
    revert functions. *)

From Stdlib Require Import List String Ascii ZArith Bool Lia.
From Stdlib Require Import SpecFloat.
From Stdlib Require OrderedTypeEx DecimalString.
Import ListNotations.

Set Implicit Arguments.
Set Warnings "-register-all".

(** ** Values shared by all translation units *)

(** C++ [double]: an IEEE-754 binary64 value. *)
Definition double := spec_float.
Definition double_prec : Z := 53.
Definition double_emax : Z := 1024.

(** [a == b] on doubles (a NaN is different from itself). *)
Definition double_eq (a b : double) : bool := SFeqb a b.

Inductive TermType :=
| VARIABLE | PREDICATE | STRING | DOUBLE | INT32 | LONG | LIST | TOP | BOTTOM.

Definition TermType_eqb (a b : TermType) : bool :=
  match a, b with
  | VARIABLE, VARIABLE | PREDICATE, PREDICATE | STRING, STRING
  | DOUBLE, DOUBLE | INT32, INT32 | LONG, LONG | LIST, LIST
  | TOP, TOP | BOTTOM, BOTTOM => true
  | _, _ => false
  end.

(** [PredicateIndicator(functor, arity)]; the arity is an [unsigned int]. *)
Record PredicateIndicator := mkIndicator { functor : string; arity : nat }.

(** The class hierarchy below [Term].  [TopTerm] and [BottomTerm] have one
    instance each ([TopTerm::get()], [BottomTerm::get()]), so that the
    constant constructors stand for the two singletons. *)
Inductive Term :=
| Variable_ (name : string)
| Predicate (indicator : PredicateIndicator) (arguments : list Term)
| StringTerm (value : string)
| DoubleTerm (value : double)
| Integer32Term (value : Z)
| LongTerm (value : Z)
| ListTerm (elements : list Term)
| TopTerm
| BottomTerm.

(** [std::shared_ptr<Term>]; [None] is the null pointer. *)
Definition TermPtr := option Term.

Definition type (t : Term) : TermType :=
  match t with
  | Variable_ _ => VARIABLE
  | Predicate _ _ => PREDICATE
  | StringTerm _ => STRING
  | DoubleTerm _ => DOUBLE
  | Integer32Term _ => INT32
  | LongTerm _ => LONG
  | ListTerm _ => LIST
  | TopTerm => TOP
  | BottomTerm => BOTTOM
  end.

Definition isBottom (t : Term) : bool := TermType_eqb (type t) BOTTOM.
Definition isTop (t : Term) : bool := TermType_eqb (type t) TOP.

(** [Predicate(functor, arguments)]: the indicator takes the size of the
    argument vector as its arity. *)
Definition Predicate_of (f : string) (args : list Term) : Term :=
  Predicate (mkIndicator f (List.length args)) args.

(** [Predicate::isGround1] walks the arguments; the flag [isGround_] it
    initialises in the constructor is what [Predicate::isGround] returns.

    Modelled from the spec: [isGround] of the other classes is defined in
    headers that are not among the sources; the specification has a term
    ground "iff no [Variable] reachable". *)
Fixpoint isGround (t : Term) : bool :=
  match t with
  | Variable_ _ => false
  | Predicate _ args => forallb isGround args
  | ListTerm elems => forallb isGround elems
  | _ => true
  end.

(** ** [std::map<Variable, V>]

    Nodes are kept in ascending key order; [Variable::operator<] compares the
    names, so that a key is the name of its variable.  An iterator designates
    a node, and a node is known by its key for as long as it is in the map;
    using an iterator whose node has been erased is undefined, which the
    iterator operations report as [None]. *)
Module StdMap.
Section WithValues.
Context {V : Type}.

Definition t := list (string * V).
Definition iterator := string.

Definition empty (m : t) : bool :=
match m with [] => true | _ => false end.

Fixpoint find (m : t) (k : string) : option V :=
match m with
| [] => None
| (k', v) :: r => if String.eqb k k' then Some v else find r k
end.

(** A new node is linked in before the first greater key. *)
Fixpoint place (m : t) (k : string) (v : V) : t :=
match m with
| [] => [(k, v)]
| (k', v') :: r =>
    if String.ltb k k' then (k, v) :: m else (k', v') :: place r k v
end.

(** [m.insert({k, v})]: no effect when [k] has a node already.  The
  iterator returned is that of the node of [k] in both cases. *)
Definition insert (m : t) (k : string) (v : V) : t * iterator :=
match find m k with
| Some _ => (m, k)
| None => (place m k v, k)
end.

Fixpoint assign (m : t) (k : string) (v : V) : t :=
match m with
| [] => []
| (k', v') :: r =>
    if String.eqb k k' then (k', v) :: r else (k', v') :: assign r k v
end.

(** [m[k] = v] *)
Definition subscript_assign (m : t) (k : string) (v : V) : t :=
match find m k with
| Some _ => assign m k v
| None => place m k v
end.

(** [m.erase(k)] *)
Fixpoint erase (m : t) (k : string) : t :=
match m with
| [] => []
| (k', v') :: r => if String.eqb k k' then r else (k', v') :: erase r k
end.

(** [it->second = v] *)
Definition it_assign (m : t) (it : iterator) (v : V) : option t :=
match find m it with
| Some _ => Some (assign m it v)
| None => None
end.

(** [m.erase(it)] *)
Definition it_erase (m : t) (it : iterator) : option t :=
match find m it with
| Some _ => Some (erase m it)
| None => None
end.

Definition keys (m : t) : list string := List.map fst m.

(** The class invariant: keys strictly ascending. *)
Fixpoint ordered (m : t) : bool :=
match m with
| [] => true
| (k, _) :: r =>
    match r with
    | [] => true
    | (k', _) :: _ => String.ltb k k' && ordered r
    end
end.
End WithValues.
Arguments t : clear implicits.
End StdMap.

(** ** [std::queue<T>]

    [push] adds at the back; [front] reads and [pop] removes at the other
    end, where the element pushed first is. *)
Module StdQueue.
Section WithElements.
Context {T : Type}.
Definition t := list T.
Definition empty (q : t) : bool := match q with [] => true | _ => false end.
Definition push (q : t) (x : T) : t := q ++ [x].
Definition front (q : t) : option T := List.hd_error q.
Definition pop (q : t) : t := List.tl q.
End WithElements.
Arguments t : clear implicits.
End StdQueue.

(** ** [src/lang/terms.cpp] *)
Module Lang.

(** [bool PredicateIndicator::operator< (const PredicateIndicator& other)] *)
Definition PredicateIndicator_lt (this other : PredicateIndicator) : bool :=
  String.ltb (functor other) (functor this)
  || Nat.ltb (arity other) (arity this).

(** [Substitution::mapping_] *)
Definition Mapping := StdMap.t TermPtr.

(** [Substitution::set]: [mapping_[var] = term]. *)
Definition set (mapping_ : Mapping) (var : string) (term : TermPtr) : Mapping :=
  StdMap.subscript_assign mapping_ var term.

Definition contains (mapping_ : Mapping) (var : string) : bool :=
  match StdMap.find mapping_ var with Some _ => true | None => false end.

Definition erase (mapping_ : Mapping) (var : string) : Mapping :=
  StdMap.erase mapping_ var.

(** [Substitution::get]: the term of [var], the null pointer without one. *)
Definition get (mapping_ : Mapping) (var : string) : TermPtr :=
  match StdMap.find mapping_ var with
  | Some t => t
  | None => None
  end.

(** The body of the loop of
    [Predicate::applySubstitution(in, sub)] for one element [in[i]]. *)
Fixpoint applySubstitution_arg (sub : Mapping) (t : Term) : Term :=
  match t with
  | Variable_ x =>
      match get sub x with
      | None => t
      | Some t' => t'
      end
  | Predicate ind args =>
      if isGround t then t
      else Predicate ind (List.map (applySubstitution_arg sub) args)
  | _ => t
  end.

(** [Predicate::applySubstitution(in, sub)] *)
Definition applySubstitution_args (args : list Term) (sub : Mapping)
  : list Term :=
  List.map (applySubstitution_arg sub) args.

(** [Predicate::applySubstitution(sub)]: [new Predicate( *this, sub)]. *)
Definition Predicate_applySubstitution
    (ind : PredicateIndicator) (args : list Term) (sub : Mapping) : Term :=
  Predicate ind (applySubstitution_args args sub).

(** [Unifier::unify].  The unifier is a substitution, and [unify] writes
    into its [mapping_] as it goes: the mapping is threaded through, and
    comes back also when the answer is [false].  [None]: the loop over the
    arguments read past the end of an argument vector. *)
Fixpoint unify (t0 t1 : Term) (mapping_ : Mapping) {struct t0}
  : option (bool * Mapping) :=
  match t1 with
  | Variable_ x1 => Some (true, set mapping_ x1 (Some t0))
  | _ =>
      match t0 with
      | Variable_ x0 => Some (true, set mapping_ x0 (Some t1))
      | Predicate p0 args0 =>
          match t1 with
          | Predicate p1 args1 =>
              if negb (String.eqb (functor p0) (functor p0))
                 || negb (Nat.eqb (arity p0) (arity p0))
              then Some (false, mapping_)
              else
                (fix args (a0 : list Term) (n : nat) (a1 : list Term)
                     (m : Mapping) {struct a0} : option (bool * Mapping) :=
                   match n with
                   | O => Some (true, m)
                   | S n' =>
                       match a0, a1 with
                       | x0 :: r0, x1 :: r1 =>
                           match unify x0 x1 m with
                           | Some (true, m') => args r0 n' r1 m'
                           | Some (false, m') => Some (false, m')
                           | None => None
                           end
                       | _, _ => None
                       end
                   end) args0 (arity p0) args1 mapping_
          | _ => Some (false, mapping_)
          end
      | StringTerm v0 =>
          match t1 with
          | StringTerm v1 => Some (String.eqb v0 v1, mapping_)
          | _ => Some (false, mapping_)
          end
      | DoubleTerm v0 =>
          match t1 with
          | DoubleTerm v1 => Some (double_eq v0 v1, mapping_)
          | _ => Some (false, mapping_)
          end
      | Integer32Term v0 =>
          match t1 with
          | Integer32Term v1 => Some (Z.eqb v0 v1, mapping_)
          | _ => Some (false, mapping_)
          end
      | LongTerm v0 =>
          match t1 with
          | LongTerm v1 => Some (Z.eqb v0 v1, mapping_)
          | _ => Some (false, mapping_)
          end
      | TopTerm => Some (isTop t1, mapping_)
      | BottomTerm => Some (isBottom t1, mapping_)
      | ListTerm _ => Some (false, mapping_)
      end
  end.

(** The object built by [Unifier::Unifier(t0, t1)]. *)
Record Unifier := mkUnifier {
  t0_ : Term;
  t1_ : Term;
  mapping_ : Mapping;
  exists_ : bool
}.

Definition Unifier_new (t0 t1 : Term) : option Unifier :=
  match unify t0 t1 [] with
  | Some (b, m) => Some (mkUnifier t0 t1 m b)
  | None => None
  end.

(** [Unifier::apply] *)
Definition Unifier_apply (u : Unifier) : TermPtr :=
  if negb (exists_ u) then Some BottomTerm
  else if StdMap.empty (mapping_ u)
          || isGround (t0_ u)
          || TermType_eqb (type (t1_ u)) VARIABLE
  then Some (t0_ u)
  else if isGround (t1_ u) || TermType_eqb (type (t0_ u)) VARIABLE
  then Some (t1_ u)
  else
    match t0_ u with
    | Predicate ind args =>
        Some (Predicate_applySubstitution ind args (mapping_ u))
    | _ => Some BottomTerm
    end.

(** [Substitution::Operation] and its two subclasses, with their
    [rollBack(Substitution&)]. *)
Inductive Operation :=
| Added (it_ : StdMap.iterator)
| Replaced (it_ : StdMap.iterator) (replacedInstance_ : TermPtr).

Definition Operation_rollBack (op : Operation) (sub : Mapping)
  : option Mapping :=
  match op with
  | Replaced it old => StdMap.it_assign sub it old
  | Added it => StdMap.it_erase sub it
  end.

(** [Substitution::Diff]: [combine] calls its [push], and [rollBack] its
    [empty], [front] and [pop]: the members of [std::queue] ([std::stack]
    has [top] and no [front]). *)
Definition Diff := StdQueue.t Operation.

(** The outcome of a call that may leave defined behaviour. *)
Inductive Outcome (A : Type) :=
| Returns (a : A)
| Undefined.
Arguments Undefined {A}.

(** [Substitution::combine(other, changes)] *)
Fixpoint combine_loop (pairs : list (string * TermPtr)) (m : Mapping)
    (changes : Diff) : Outcome (bool * Mapping * Diff) :=
  match pairs with
  | [] => Returns (true, m, changes)
  | (k, t1) :: rest =>
      match StdMap.find m k with
      | None =>
          let (m', it) := StdMap.insert m k t1 in
          combine_loop rest m' (StdQueue.push changes (Added it))
      | Some t0 =>
          match t0, t1 with
          | Some a0, Some a1 =>
              match Unifier_new a0 a1 with
              | Some sigma =>
                  if exists_ sigma then
                    combine_loop rest
                      (StdMap.assign m k (Unifier_apply sigma))
                      (StdQueue.push changes (Replaced k t0))
                  else Returns (false, m, changes)
              | None => Undefined
              end
          | _, _ => Undefined
          end
      end
  end.

Definition combine (this other : Mapping) (changes : Diff)
  : Outcome (bool * Mapping * Diff) :=
  combine_loop other this changes.

(** [Substitution::rollBack(changes)], together with the operations in
    the order in which the loop called their [rollBack].  A turn of the
    loop takes [changes.front()], the head of the list, and leaves
    [changes.pop()], its tail. *)
Fixpoint rollBack (changes : Diff) (this : Mapping)
  : list Operation * option Mapping :=
  match changes with
  | [] => ([], Some this)
  | change :: changes' =>
      match Operation_rollBack change this with
      | Some this' =>
          let (called, r) := rollBack changes' this' in
          (change :: called, r)
      | None => ([change], None)
      end
  end.

End Lang.

(** ** [src/terms/Substitution.cpp] *)
Module Terms.

(** [size_t] arithmetic, 64 bits wide. *)
Definition size_t_modulus : Z := (2 ^ 64)%Z.
Definition size_t (z : Z) : Z := (z mod size_t_modulus)%Z.

Definition Mapping := StdMap.t TermPtr.

(** [Substitution::set]: [mapping_.insert(std::pair(var, term))]. *)
Definition set (mapping_ : Mapping) (var : string) (term : TermPtr)
  : Mapping :=
  fst (StdMap.insert mapping_ var term).

Definition contains (mapping_ : Mapping) (var : string) : bool :=
  match StdMap.find mapping_ var with Some _ => true | None => false end.

(** [Substitution::get]: [it->second], or [null_term] at [end()]. *)
Definition get (mapping_ : Mapping) (var : string) : TermPtr :=
  match StdMap.find mapping_ var with
  | Some t => t
  | None => None
  end.

(** The two lambdas that [unifyWith] pushes.  Each captures an iterator
    into [mapping_] of the substitution it was made by, and is run on
    that substitution. *)
Inductive RevertFunction :=
| erase_jt (jt : StdMap.iterator)
    (* [this,jt](){ mapping_.erase(jt); } *)
| assign_it_t0 (it : StdMap.iterator) (t0 : TermPtr).
    (* [it,t0](){ it->second = t0; } *)

Definition call (f : RevertFunction) (mapping_ : Mapping)
  : option Mapping :=
  match f with
  | erase_jt jt => StdMap.it_erase mapping_ jt
  | assign_it_t0 it t0 => StdMap.it_assign mapping_ it t0
  end.

(** [Reversible]: [unifyWith] calls its [push], and [rollBack] its
    [empty], [front] and [pop]: the members of [std::queue] ([std::stack]
    has [top] and no [front]). *)
Definition Reversible := StdQueue.t RevertFunction.

(** [Reversible::rollBack], together with the functions in the order in
    which the loop called them.  A turn of the loop takes [front()], the
    head of the list, and leaves [pop()], its tail.  The mapping is [None]
    once a function has used an iterator that is no longer valid. *)
Fixpoint rollBack (this : Reversible) (mapping_ : Mapping)
  : list RevertFunction * option Mapping :=
  match this with
  | [] => ([], Some mapping_)
  | revertFunction :: this' =>
      match call revertFunction mapping_ with
      | Some mapping_' =>
          let (called, r) := rollBack this' mapping_' in
          (revertFunction :: called, r)
      | None => ([revertFunction], None)
      end
  end.

Section WithCollaborators.
(** [Unifier sigma(t0, t1)] is declared in [knowrob/terms/Unifier.h];
    of the object only [sigma.exists()] and [sigma.apply()] are used. *)
Variable Unifier_exists : TermPtr -> TermPtr -> bool.
Variable Unifier_apply : TermPtr -> TermPtr -> TermPtr.
(** [Variable::computeHash] and [Term::computeHash], both [size_t]. *)
Variable Variable_computeHash : string -> Z.
Variable Term_computeHash : Term -> Z.

Definition GOLDEN_RATIO_HASH : Z := 0x9e3779b9%Z.

(** [seed ^= h + GOLDEN_RATIO_HASH + (seed << 6) + (seed >> 2)] *)
Definition hash_combine (seed h : Z) : Z :=
  Z.lxor seed
    (size_t (h + GOLDEN_RATIO_HASH + size_t (Z.shiftl seed 6)
             + Z.shiftr seed 2)).

(** [Substitution::computeHash] *)
Definition computeHash (mapping_ : Mapping) : Z :=
  List.fold_left
    (fun seed (item : string * TermPtr) =>
       let key_hash := Variable_computeHash (fst item) in
       let value_hash :=
         match snd item with
         | Some t => Term_computeHash t
         | None => 0%Z
         end in
       let seed := hash_combine seed key_hash in
       hash_combine seed value_hash)
    mapping_ 0%Z.

(** [reversible->push(f)] under [if(reversible)]. *)
Definition push_if (reversible : option Reversible) (f : RevertFunction)
  : option Reversible :=
  match reversible with
  | Some r => Some (StdQueue.push r f)
  | None => None
  end.

(** One turn of the loop of [unifyWith] for [pair = (k, t1)];
    [None] is [return false]. *)
Definition unifyWith_step (mapping_ : Mapping)
    (reversible : option Reversible) (item : string * TermPtr)
  : option (Mapping * option Reversible) :=
  let (k, t1) := item in
  match StdMap.find mapping_ k with
  | None =>
      let (mapping_', jt) := StdMap.insert mapping_ k t1 in
      Some (mapping_', push_if reversible (erase_jt jt))
  | Some t0 =>
      if Unifier_exists t0 t1 then
        Some (StdMap.assign mapping_ k (Unifier_apply t0 t1),
              push_if reversible (assign_it_t0 k t0))
      else None
  end.

Fixpoint unifyWith_loop (pairs : list (string * TermPtr))
    (mapping_ : Mapping) (reversible : option Reversible)
  : bool * Mapping * option Reversible :=
  match pairs with
  | [] => (true, mapping_, reversible)
  | item :: rest =>
      match unifyWith_step mapping_ reversible item with
      | Some (mapping_', reversible') =>
          unifyWith_loop rest mapping_' reversible'
      | None => (false, mapping_, reversible)
      end
  end.

(** [Substitution::unifyWith(other, reversible)]: the answer, the
    mapping of [this] and the journal afterwards. *)
Definition unifyWith (this other : Mapping)
    (reversible : option Reversible)
  : bool * Mapping * option Reversible :=
  unifyWith_loop other this reversible.

End WithCollaborators.

(** The unifier of [src/lang/terms.cpp] in the place of the collaborator;
    it dereferences both pointers, and has nothing to answer on a null
    one. *)
Definition Lang_exists (t0 t1 : TermPtr) : bool :=
  match t0, t1 with
  | Some a0, Some a1 =>
      match Lang.Unifier_new a0 a1 with
      | Some sigma => Lang.exists_ sigma
      | None => false
      end
  | _, _ => false
  end.

Definition Lang_apply (t0 t1 : TermPtr) : TermPtr :=
  match t0, t1 with
  | Some a0, Some a1 =>
      match Lang.Unifier_new a0 a1 with
      | Some sigma => Lang.Unifier_apply sigma
      | None => None
      end
  | _, _ => None
  end.

End Terms.

(** ** [src/queries/QueryParser.cpp] *)
Module QueryParser.

(** *** Formulas and modal operators *)

(** Modelled from the spec: [TimeInterval], the operators built by
    [KnowledgeModality::K], [BeliefModality::B], [PastModality::P] and
    [PastModality::H], and the formula classes are declared in headers that
    are not among the sources.  The specification has a time interval with
    an optional begin and an optional end, the operators [K{agent?}],
    [B{agent?, confidence?}], [P{interval?}], [H{interval?}], and formulas
    that are a predicate, a negation, a conjunction or disjunction of a
    sequence of operands, an implication of two, or a modal formula. *)
Record TimeInterval := mkTimeInterval {
  since : option double;
  until : option double
}.

Inductive ModalOperator :=
| K (agent : option string)
| B (agent : option string) (confidence : option double)
| P (timeInterval : option TimeInterval)
| H (timeInterval : option TimeInterval).

Inductive Formula :=
| PredicateFormula (indicator : PredicateIndicator) (arguments : list Term)
| Negation (formula : Formula)
| Conjunction (formulae : list Formula)
| Disjunction (formulae : list Formula)
| Implication (antecedent consequent : Formula)
| ModalFormula (modalOperator : ModalOperator) (formula : Formula).

(** Modelled from the spec: [operator~], [operator&] and [operator|] on
    formulas are defined outside the sources; they "construct
    Connective/Negation and flatten associatively when the operand is
    already of the same kind". *)
Definition not_ (phi : Formula) : Formula := Negation phi.

Definition and_ (phi psi : Formula) : Formula :=
  match phi, psi with
  | Conjunction fs, Conjunction gs => Conjunction (fs ++ gs)
  | Conjunction fs, _ => Conjunction (fs ++ [psi])
  | _, Conjunction gs => Conjunction (phi :: gs)
  | _, _ => Conjunction [phi; psi]
  end.

Definition or_ (phi psi : Formula) : Formula :=
  match phi, psi with
  | Disjunction fs, Disjunction gs => Disjunction (fs ++ gs)
  | Disjunction fs, _ => Disjunction (fs ++ [psi])
  | _, Disjunction gs => Disjunction (phi :: gs)
  | _, _ => Disjunction [phi; psi]
  end.

(** [QueryError], by the format string it is thrown with:
    - ["Unrecognized option ({}) in modal operator."],
    - ["Query string ({}) has invalid syntax."],
    - ["Cannot construct IRI for '{}': IRI prefix '{}' is not registered!"]. *)
Inductive QueryError :=
| Unrecognized_option (opt : Term)
| Invalid_syntax (queryString : string)
| Cannot_construct_IRI (name prefix : string).

(** *** Parsers

    A parser reads at the front of the remaining input.  It matches, with
    an attribute and the input left, or does not match; a semantic action
    may throw, which ends the whole parse; [Undefined] is an argument vector
    read out of range, and [OutOfFuel] the end of the bound that stands for
    the depth of the rule calls. *)
Inductive Result (A : Type) :=
| Match (attribute : A) (rest : list ascii)
| NoMatch
| Thrown (e : QueryError)
| Undefined
| OutOfFuel.
Arguments NoMatch {A}.
Arguments Thrown {A}.
Arguments Undefined {A}.
Arguments OutOfFuel {A}.

Definition Parser (A : Type) := list ascii -> Result A.

(** [qi::attr(a)] *)
Definition attr {A} (a : A) : Parser A := fun s => Match a s.

Definition throw {A} (e : QueryError) : Parser A := fun _ => Thrown e.

(** [p >> q], the attribute of [p] handed on. *)
Definition bind {A B} (p : Parser A) (k : A -> Parser B) : Parser B :=
  fun s =>
    match p s with
    | Match a r => k a r
    | NoMatch => NoMatch
    | Thrown e => Thrown e
    | Undefined => Undefined
    | OutOfFuel => OutOfFuel
    end.

(** [p | q]: [q] is tried where [p] does not match. *)
Definition alt {A} (p q : Parser A) : Parser A :=
  fun s =>
    match p s with
    | NoMatch => q s
    | r => r
    end.

Notation "x <- p ;; k" := (bind p (fun x => k))
  (at level 61, p at next level, right associativity).
Notation "p ;; k" := (bind p (fun _ => k))
  (at level 61, right associativity).
Infix "<|>" := alt (at level 62, left associativity).

Definition code (c : ascii) : nat := nat_of_ascii c.
Definition between (lo hi : nat) (c : ascii) : bool :=
  Nat.leb lo (code c) && Nat.leb (code c) hi.

(** The character classes of [boost::spirit::ascii]. *)
Definition is_lower : ascii -> bool := between 97 122.
Definition is_upper : ascii -> bool := between 65 90.
Definition is_digit : ascii -> bool := between 48 57.
Definition is_alpha (c : ascii) : bool := is_lower c || is_upper c.
Definition is_alnum (c : ascii) : bool := is_alpha c || is_digit c.
Definition is_space (c : ascii) : bool := between 9 13 c || Nat.eqb (code c) 32.

Definition is_char (c : ascii) : ascii -> bool := Ascii.eqb c.

(** One character of a class. *)
Definition char_ (f : ascii -> bool) : Parser ascii :=
  fun s =>
    match s with
    | c :: r => if f c then Match c r else NoMatch
    | [] => NoMatch
    end.

(** A literal character or string. *)
Definition lit (c : ascii) : Parser ascii := char_ (is_char c).

Fixpoint lit_string (l : list ascii) : Parser unit :=
  match l with
  | [] => attr tt
  | c :: l' => lit c ;; lit_string l'
  end.

(** [*c] and [+c] on a character class. *)
Fixpoint span (f : ascii -> bool) (s : list ascii)
  : list ascii * list ascii :=
  match s with
  | c :: r => if f c then let (m, r') := span f r in (c :: m, r') else ([], s)
  | [] => ([], [])
  end.

Definition star (f : ascii -> bool) : Parser (list ascii) :=
  fun s => let (m, r) := span f s in Match m r.

Definition plus (f : ascii -> bool) : Parser (list ascii) :=
  fun s =>
    match span f s with
    | ([], _) => NoMatch
    | (m, r) => Match m r
    end.

(** [p % sep]: one [p], then [sep] and [p] for as long as both match; the
    input read by a [sep] whose [p] does not match is given back. *)
Fixpoint list_more {A C} (fuel : nat) (p : Parser A) (sep : Parser C)
    (acc : list A) (s : list ascii) : Result (list A) :=
  match fuel with
  | O => OutOfFuel
  | S fuel' =>
      match sep s with
      | Match _ r =>
          match p r with
          | Match a r' => list_more fuel' p sep (acc ++ [a]) r'
          | NoMatch => Match acc s
          | Thrown e => Thrown e
          | Undefined => Undefined
          | OutOfFuel => OutOfFuel
          end
      | NoMatch => Match acc s
      | Thrown e => Thrown e
      | Undefined => Undefined
      | OutOfFuel => OutOfFuel
      end
  end.

Definition list_of {A C} (p : Parser A) (sep : Parser C) : Parser (list A) :=
  fun s =>
    match p s with
    | Match a r => list_more (S (List.length r)) p sep [a] r
    | NoMatch => NoMatch
    | Thrown e => Thrown e
    | Undefined => Undefined
    | OutOfFuel => OutOfFuel
    end.

(** The skipper [ascii::space].  In a rule declared with the skipper every
    primitive skips before it reads, and so does a rule declared without
    one when it is called from there; inside such a rule nothing is
    skipped. *)
Fixpoint skip (s : list ascii) : list ascii :=
  match s with
  | c :: r => if is_space c then skip r else s
  | [] => []
  end.

Definition skipped {A} (p : Parser A) : Parser A := fun s => p (skip s).

(** *** [qi::double_]

    The grammar of Boost's real number parser: a sign, then digits with
    an optional dot and fraction, or a dot and a fraction, or [nan] or
    [inf]; then an exponent, which is left unread when no number follows
    its letter.  The value is the integer of all the digits scaled by the
    power of ten, each step rounded to binary64. *)
Definition digit_value (c : ascii) : Z := Z.of_nat (code c - 48).

Definition digits_value (ds : list ascii) : Z :=
  List.fold_left (fun n c => (n * 10 + digit_value c)%Z) ds 0%Z.

Definition double_of_Z (z : Z) : double :=
  binary_normalize double_prec double_emax z 0 false.

Definition scale (e10 : Z) (n : double) : double :=
  if (0 <=? e10)%Z
  then SFmul double_prec double_emax n (double_of_Z (10 ^ e10))
  else SFdiv double_prec double_emax n (double_of_Z (10 ^ (- e10))).

Definition negate (neg : bool) (n : double) : double :=
  if neg then SFopp n else n.

(** [detail::string_parse(lower, upper, ...)] *)
Fixpoint string_parse (lower upper : list ascii) : Parser unit :=
  match lower, upper with
  | l :: lower', u :: upper' =>
      char_ (fun c => Ascii.eqb c l || Ascii.eqb c u) ;;
      string_parse lower' upper'
  | _, _ => attr tt
  end.

Definition parse_sign : Parser bool :=
  (lit "-" ;; attr true) <|> (lit "+" ;; attr false) <|> attr false.

Definition parse_nan : Parser double :=
  string_parse (list_ascii_of_string "nan") (list_ascii_of_string "NAN") ;;
  ((lit "(" ;; star (fun c => negb (Ascii.eqb c ")")) ;; lit ")" ;;
    attr S754_nan)
   <|> (fun s => match s with
                 | "("%char :: _ => NoMatch
                 | _ => Match S754_nan s
                 end)).

Definition parse_inf : Parser double :=
  string_parse (list_ascii_of_string "inf") (list_ascii_of_string "INF") ;;
  ((string_parse (list_ascii_of_string "inity")
      (list_ascii_of_string "INITY") ;; attr tt) <|> attr tt) ;;
  attr (S754_infinity false).

(** The exponent after the mantissa [n] with [frac_digits] fraction
    digits. *)
Definition parse_exponent (n : Z) (frac_digits : nat) : Parser double :=
  let without := scale (- Z.of_nat frac_digits) (double_of_Z n) in
  (char_ (fun c => Ascii.eqb c "e" || Ascii.eqb c "E") ;;
   neg <- parse_sign ;;
   ds <- plus is_digit ;;
   let e := (if neg then - digits_value ds else digits_value ds)%Z in
   attr (scale (e - Z.of_nat frac_digits) (double_of_Z n)))
  <|> attr without.

Definition double_ : Parser double :=
  neg <- parse_sign ;;
  int_part <- star is_digit ;;
  match int_part with
  | [] =>
      (d <- (parse_nan <|> parse_inf) ;; attr (negate neg d))
      <|> (lit "." ;;
           frac <- plus is_digit ;;
           d <- parse_exponent (digits_value frac) (List.length frac) ;;
           attr (negate neg d))
  | _ =>
      (lit "." ;;
       frac <- star is_digit ;;
       d <- parse_exponent (digits_value (int_part ++ frac))
              (List.length frac) ;;
       attr (negate neg d))
      <|> (d <- parse_exponent (digits_value int_part) 0 ;;
           attr (negate neg d))
  end.

(** *** Modal operators from option lists *)

(** [*key == StringTerm(name)] *)
Definition key_is (key : Term) (name : string) : bool :=
  match key with
  | StringTerm v => String.eqb v name
  | _ => false
  end.

(** [reportUnrecognized(option)] *)
Definition reportUnrecognized {A} (opt : Term) : Result A :=
  Thrown (Unrecognized_option opt).

(** The body of the loop of [createK] for one [option]. *)
Definition createK_option (agentName : option string) (opt : Term)
    (continue : option string -> Result ModalOperator)
  : Result ModalOperator :=
  match agentName, opt with
  | None, StringTerm v => continue (Some v)
  | _, Predicate indicator arguments =>
      if Nat.eqb (arity indicator) 2 then
        match List.nth_error arguments 0, List.nth_error arguments 1 with
        | Some key, Some value =>
            match agentName, value with
            | None, StringTerm v =>
                if key_is key "agent" || key_is key "a"
                then continue (Some v)
                else reportUnrecognized opt
            | _, _ => reportUnrecognized opt
            end
        | _, _ => Undefined
        end
      else reportUnrecognized opt
  | _, _ => reportUnrecognized opt
  end.

Fixpoint createK_loop (options : list Term) (agentName : option string)
  : Result ModalOperator :=
  match options with
  | [] =>
      match agentName with
      | Some a => if negb (String.eqb a "self")
                  then Match (K (Some a)) []
                  else Match (K None) []
      | None => Match (K None) []
      end
  | opt :: rest => createK_option agentName opt (createK_loop rest)
  end.

(** [createK(optionsTerm)]; the input left in a [Match] has no meaning
    here and is empty. *)
Definition createK (optionsTerm : Term) : Result ModalOperator :=
  match optionsTerm with
  | ListTerm [] => Match (K None) []
  | ListTerm options => createK_loop options None
  | _ => Undefined
  end.

(** The body of the loop of [createB] for one [option]. *)
Definition createB_option
    (agentName : option string) (confidenceValue : option double)
    (opt : Term)
    (continue : option string -> option double -> Result ModalOperator)
  : Result ModalOperator :=
  match agentName, confidenceValue, opt with
  | None, _, StringTerm v => continue (Some v) confidenceValue
  | _, None, DoubleTerm v => continue agentName (Some v)
  | _, _, Predicate indicator arguments =>
      if Nat.eqb (arity indicator) 2 then
        match List.nth_error arguments 0, List.nth_error arguments 1 with
        | Some key, Some value =>
            match agentName, confidenceValue, value with
            | None, _, StringTerm v =>
                if key_is key "agent" || key_is key "a"
                then continue (Some v) confidenceValue
                else reportUnrecognized opt
            | _, None, DoubleTerm v =>
                if key_is key "confidence" || key_is key "c"
                then continue agentName (Some v)
                else reportUnrecognized opt
            | _, _, _ => reportUnrecognized opt
            end
        | _, _ => Undefined
        end
      else reportUnrecognized opt
  | _, _, _ => reportUnrecognized opt
  end.

Fixpoint createB_loop (options : list Term)
    (agentName : option string) (confidenceValue : option double)
  : Result ModalOperator :=
  match options with
  | [] =>
      let agentName :=
        match agentName with
        | Some a => if String.eqb a "self" then None else Some a
        | None => None
        end in
      Match (B agentName confidenceValue) []
  | opt :: rest =>
      createB_option agentName confidenceValue opt (createB_loop rest)
  end.

(** [createB(optionsTerm)] *)
Definition createB (optionsTerm : Term) : Result ModalOperator :=
  match optionsTerm with
  | ListTerm [] => Match (B None None) []
  | ListTerm options => createB_loop options None None
  | _ => Undefined
  end.

(** The body of the loop of [readTimeInterval] for one [option]. *)
Definition readTimeInterval_option
    (beginTime endTime : option double) (opt : Term)
    (continue : option double -> option double
                -> Result (option TimeInterval))
  : Result (option TimeInterval) :=
  match opt with
  | DoubleTerm v =>
      match beginTime, endTime with
      | None, _ => continue (Some v) endTime
      | Some _, None => continue beginTime (Some v)
      | Some _, Some _ => reportUnrecognized opt
      end
  | Predicate indicator arguments =>
      if Nat.eqb (arity indicator) 2 then
        match List.nth_error arguments 0, List.nth_error arguments 1 with
        | Some key, Some value =>
            match value with
            | DoubleTerm v =>
                match beginTime, endTime with
                | None, _ =>
                    if key_is key "begin" || key_is key "since"
                    then continue (Some v) endTime
                    else
                      match endTime with
                      | None =>
                          if key_is key "end" || key_is key "until"
                          then continue beginTime (Some v)
                          else reportUnrecognized opt
                      | Some _ => reportUnrecognized opt
                      end
                | Some _, None =>
                    if key_is key "end" || key_is key "until"
                    then continue beginTime (Some v)
                    else reportUnrecognized opt
                | Some _, Some _ => reportUnrecognized opt
                end
            | _ => reportUnrecognized opt
            end
        | _, _ => Undefined
        end
      else reportUnrecognized opt
  | _ => reportUnrecognized opt
  end.

Fixpoint readTimeInterval_loop (options : list Term)
    (beginTime endTime : option double) : Result (option TimeInterval) :=
  match options with
  | [] =>
      match beginTime, endTime with
      | None, None => Match None []
      | _, _ => Match (Some (mkTimeInterval beginTime endTime)) []
      end
  | opt :: rest =>
      readTimeInterval_option beginTime endTime opt
        (readTimeInterval_loop rest)
  end.

(** [readTimeInterval(options)] *)
Definition readTimeInterval (options : list Term)
  : Result (option TimeInterval) :=
  readTimeInterval_loop options None None.

(** [createP(optionsTerm)] and [createH(optionsTerm)] *)
Definition createPast (make : option TimeInterval -> ModalOperator)
    (optionsTerm : Term) : Result ModalOperator :=
  match optionsTerm with
  | ListTerm [] => Match (make None) []
  | ListTerm options =>
      match readTimeInterval options with
      | Match timeInterval _ => Match (make timeInterval) []
      | NoMatch => NoMatch
      | Thrown e => Thrown e
      | Undefined => Undefined
      | OutOfFuel => OutOfFuel
      end
  | _ => Undefined
  end.

Definition createP : Term -> Result ModalOperator := createPast P.
Definition createH : Term -> Result ModalOperator := createPast H.

(** A semantic action that calls one of the above. *)
Definition action {A} (r : Result A) : Parser A :=
  fun s =>
    match r with
    | Match a _ => Match a s
    | NoMatch => NoMatch
    | Thrown e => Thrown e
    | Undefined => Undefined
    | OutOfFuel => OutOfFuel
    end.

(** *** The grammar *)

(** How a call of the parser ends. *)
Inductive Completion (A : Type) :=
| Returns (a : A)
| Throws (e : QueryError)
| Undefined_behaviour
| Unfinished.
Arguments Throws {A}.
Arguments Undefined_behaviour {A}.
Arguments Unfinished {A}.

Section Grammar.
(** [semweb::PrefixRegistry::get().createIRI(prefix, name)] *)
Variable PrefixRegistry_createIRI : string -> string -> option string.

(** [createIRI(prefix, name)] *)
Definition createIRI (prefix name : string) : Parser string :=
  match PrefixRegistry_createIRI prefix name with
  | Some uri => attr uri
  | None => throw (Cannot_construct_IRI name prefix)
  end.

Definition text (l : list ascii) : string := string_of_list_ascii l.

Definition quote : ascii := "'".
Definition dquote : ascii := Ascii.ascii_of_nat 34.

Definition word_char (c : ascii) : bool := is_alnum c || Ascii.eqb c "_".

Definition singleQuotes : Parser string :=
  lit quote ;; l <- plus (fun c => negb (Ascii.eqb c quote)) ;;
  lit quote ;; attr (text l).

Definition doubleQuotes : Parser string :=
  lit dquote ;; l <- plus (fun c => negb (Ascii.eqb c dquote)) ;;
  lit dquote ;; attr (text l).

Definition lowerPrefix : Parser string :=
  c <- char_ is_lower ;; l <- star word_char ;; attr (text (c :: l)).

Definition upperPrefix : Parser string :=
  c <- char_ is_upper ;; l <- star word_char ;; attr (text (c :: l)).

Definition iri_ns : Parser string :=
  c <- char_ is_alpha ;; l <- star word_char ;; attr (text (c :: l)).

Definition iri_entity : Parser string :=
  singleQuotes
  <|> (c <- char_ is_alpha ;; l <- star word_char ;; attr (text (c :: l))).

Definition iri : Parser string :=
  ns <- iri_ns ;; lit ":" ;; entity <- iri_entity ;; createIRI ns entity.

Definition atomRaw : Parser string := singleQuotes <|> iri <|> lowerPrefix.

Definition atom : Parser Term := s <- atomRaw ;; attr (StringTerm s).
Definition string_ : Parser Term := s <- doubleQuotes ;; attr (StringTerm s).
Definition number : Parser Term := d <- double_ ;; attr (DoubleTerm d).

Definition constant : Parser Term := atom <|> string_ <|> number.

Definition equalFunctor : string := "=".

Definition keyvalue : Parser Term :=
  k <- atom ;; lit "=" ;; v <- constant ;;
  attr (Predicate_of equalFunctor [k; v]).

Definition option_ : Parser Term := keyvalue <|> constant.

Definition options : Parser Term :=
  lit "[" ;; l <- list_of option_ (lit ",") ;; lit "]" ;; attr (ListTerm l).

(** [ListTerm::nil()] *)
Definition nil_ : Parser Term := attr (ListTerm []).

Definition constantList : Parser Term :=
  lit "[" ;; l <- list_of constant (lit ",") ;; lit "]" ;; attr (ListTerm l).

Definition variable : Parser Term := s <- upperPrefix ;; attr (Variable_ s).

(** [compound] and [argument] call each other; [n] bounds the depth. *)
Definition compound_of (argument : Parser Term) : Parser Term :=
  f <- atomRaw ;; lit "(" ;; args <- list_of argument (lit ",") ;; lit ")" ;;
  attr (Predicate_of f args).

Fixpoint argument (n : nat) : Parser Term :=
  match n with
  | O => fun _ => OutOfFuel
  | S n' =>
      compound_of (argument n') <|> variable <|> constant <|> constantList
  end.

Definition compound (n : nat) : Parser Term := compound_of (argument n).

(** The predicate rules are declared with the skipper. *)
Definition predicateWithArgs (n : nat) : Parser Term :=
  f <- skipped atomRaw ;; skipped (lit "(") ;;
  args <- list_of (skipped (argument n)) (skipped (lit ",")) ;;
  skipped (lit ")") ;;
  attr (Predicate_of f args).

Definition predicateNullary : Parser Term :=
  f <- skipped atomRaw ;; attr (Predicate_of f []).

Definition predicate (n : nat) : Parser Term :=
  predicateWithArgs n <|> predicateNullary.

(** A predicate where a formula is expected. *)
Definition as_formula (p : Parser Term) : Parser Formula :=
  t <- p ;;
  match t with
  | Predicate indicator arguments =>
      attr (PredicateFormula indicator arguments)
  | _ => fun _ => Undefined
  end.

(** The formula rules of [struct ParserRules]. *)
Record ParserRules := mkRules {
  formula : Parser Formula;
  disjunction : Parser Formula;
  conjunction : Parser Formula;
  implication : Parser Formula;
  negation : Parser Formula;
  modalFormula : Parser Formula;
  belief : Parser Formula;
  knowledge : Parser Formula;
  oncePast : Parser Formula;
  alwaysPast : Parser Formula;
  brackets : Parser Formula;
  unary : Parser Formula
}.

Definition out_of_fuel : Parser Formula := fun _ => OutOfFuel.

(** A modal rule: its letter, the options or [nil], the operand, and the
    action that makes the operator. *)
Definition modal (letter : ascii) (create : Term -> Result ModalOperator)
    (unary brackets : Parser Formula) : Parser Formula :=
  skipped (lit letter) ;;
  o <- (skipped options <|> skipped nil_) ;;
  phi <- (unary <|> brackets) ;;
  op <- action (create o) ;;
  attr (ModalFormula op phi).

(** The formula rules as [QueryParser::QueryParser] defines them, over
    the rules [r] that they refer to and the rule [predicate]. *)
Definition rules_over (predicate : Parser Term) (r : ParserRules)
  : ParserRules :=
  {| brackets :=
       skipped (lit "(") ;; phi <- formula r ;; skipped (lit ")") ;;
       attr phi;
     negation :=
       skipped (lit "~") ;; phi <- (unary r <|> brackets r) ;;
       attr (not_ phi);
     belief := modal "B" createB (unary r) (brackets r);
     knowledge := modal "K" createK (unary r) (brackets r);
     oncePast := modal "P" createP (unary r) (brackets r);
     alwaysPast := modal "H" createH (unary r) (brackets r);
     modalFormula :=
       belief r <|> knowledge r <|> oncePast r <|> alwaysPast r;
     unary := modalFormula r <|> negation r <|> as_formula predicate;
     conjunction :=
       (phi <- (unary r <|> brackets r) ;;
        (skipped (lit ",") <|> skipped (lit "&")) ;;
        psi <- (conjunction r <|> brackets r) ;;
        attr (and_ phi psi))
       <|> unary r;
     disjunction :=
       (phi <- (conjunction r <|> brackets r) ;;
        (skipped (lit ";") <|> skipped (lit "|")) ;;
        psi <- (disjunction r <|> brackets r) ;;
        attr (or_ phi psi))
       <|> conjunction r;
     implication :=
       (phi <- (disjunction r <|> brackets r) ;;
        skipped (lit_string (list_ascii_of_string "->")) ;;
        psi <- (implication r <|> brackets r) ;;
        attr (Implication phi psi))
       <|> disjunction r;
     formula := implication r <|> brackets r |}.

Definition no_rules : ParserRules :=
  mkRules out_of_fuel out_of_fuel out_of_fuel out_of_fuel out_of_fuel
    out_of_fuel out_of_fuel out_of_fuel out_of_fuel out_of_fuel
    out_of_fuel out_of_fuel.

(** The rules refer to each other in a circle; a rule called from a rule
    is taken one level below, down to the level without rules. *)
Fixpoint bnf (n : nat) : ParserRules :=
  match n with
  | O => no_rules
  | S n' => rules_over (predicate n') (bnf n')
  end.

(** [parse_(queryString, rule)]: [qi::phrase_parse] skips once more after
    the rule, and all of the input must have been read. *)
Definition parse_ {A} (queryString : string) (rule : Parser A)
  : Completion A :=
  match rule (list_ascii_of_string queryString) with
  | Match result rest =>
      match skip rest with
      | [] => Returns result
      | _ => Throws (Invalid_syntax queryString)
      end
  | NoMatch => Throws (Invalid_syntax queryString)
  | Thrown e => Throws e
  | Undefined => Undefined_behaviour
  | OutOfFuel => Unfinished
  end.

(** The depth allowed to the rules on an input: eight levels for each
    character, and sixteen more. *)
Definition depth (queryString : string) : nat :=
  8 * (String.length queryString + 2).

(** [QueryParser::parse(queryString)] *)
Definition parse (queryString : string) : Completion Formula :=
  parse_ queryString (formula (bnf (depth queryString))).

(** [QueryParser::parsePredicate(queryString)] *)
Definition parsePredicate (queryString : string) : Completion Term :=
  parse_ queryString (predicate (depth queryString)).

(** [QueryParser::parseConstant(queryString)] *)
Definition parseConstant (queryString : string) : Completion Term :=
  parse_ queryString (skipped constant).

(** [QueryParser::parseRawAtom(queryString)] *)
Definition parseRawAtom (queryString : string) : Completion string :=
  parse_ queryString (skipped atomRaw).

End Grammar.

End QueryParser.

(** ** [src/reasoner.cpp] *)
Module Reasoner.

(** [boost::property_tree::ptree]: a value and an ordered list of named
    children.  The paths looked up below have no separator in them, so that
    [get_optional] and [get_child_optional] look among the children of the
    node for the first one of that name. *)
Inductive ptree :=
| PTree (data : string) (children : list (string * ptree)).

Definition data_of (pt : ptree) : string :=
  match pt with PTree d _ => d end.

Definition children_of (pt : ptree) : list (string * ptree) :=
  match pt with PTree _ c => c end.

(** [pt.empty()]: no children. *)
Definition ptree_empty (pt : ptree) : bool :=
  match children_of pt with [] => true | _ => false end.

(** [pt.get_value<std::string>()] *)
Definition get_value (pt : ptree) : string := data_of pt.

Fixpoint find_child (children : list (string * ptree)) (key : string)
  : option ptree :=
  match children with
  | [] => None
  | (k, c) :: r => if String.eqb k key then Some c else find_child r key
  end.

Definition get_child_optional (pt : ptree) (key : string) : option ptree :=
  find_child (children_of pt) key.

Definition get_optional (pt : ptree) (key : string) : option string :=
  match get_child_optional pt key with
  | Some c => Some (get_value c)
  | None => None
  end.

(** [pt.get(key, default)] *)
Definition get_or (pt : ptree) (key default : string) : string :=
  match get_optional pt key with
  | Some v => v
  | None => default
  end.

(** What [KB_WARN] and [KB_INFO] write, in order. *)
Inductive LogRecord :=
| WARN (message : string)
| INFO (message : string).

Definition Log := list LogRecord.

Record DataFile := mkDataFile { path : string; format : string }.

Record ReasonerConfiguration := mkConfiguration {
  settings : list (Term * Term);
  dataFiles : list DataFile
}.

Definition emplace_setting (cfg : ReasonerConfiguration) (key value : Term)
  : ReasonerConfiguration :=
  mkConfiguration (settings cfg ++ [(key, value)]) (dataFiles cfg).

Definition push_dataFile (cfg : ReasonerConfiguration) (f : DataFile)
  : ReasonerConfiguration :=
  mkConfiguration (settings cfg) (dataFiles cfg ++ [f]).

(** A text between double quotes. *)
Definition quoted (s : string) : string :=
  String (Ascii.ascii_of_nat 34)
    (String.append s (String (Ascii.ascii_of_nat 34) EmptyString)).

(** [colon_f] *)
Definition colon_f : PredicateIndicator := mkIndicator ":" 2.

(** [ReasonerConfiguration::loadSettings(key1, ptree)] *)
Fixpoint loadSettings (key1 : Term) (pt : ptree)
    (st : ReasonerConfiguration * Log) {struct pt}
  : ReasonerConfiguration * Log :=
  match pt with
  | PTree _ children =>
      (fix each (kvs : list (string * ptree))
           (st : ReasonerConfiguration * Log) {struct kvs}
         : ReasonerConfiguration * Log :=
         match kvs with
         | [] => st
         | (first, second) :: rest =>
             if String.eqb first EmptyString then
               each rest
                 (fst st, snd st ++ [WARN "todo: handle list values in options"])
             else
               let key2 := StringTerm first in
               let key_t := Predicate colon_f [key1; key2] in
               if ptree_empty second then
                 each rest
                   (emplace_setting (fst st) key_t
                      (StringTerm (get_value second)), snd st)
               else each rest (loadSettings key_t second st)
         end) children st
  end.

Definition formatDefault : string := EmptyString.

(** [ReasonerConfiguration::loadPropertyTree(config)] *)
Definition loadPropertyTree (config : ptree)
    (st : ReasonerConfiguration * Log) : ReasonerConfiguration * Log :=
  let st :=
    List.fold_left
      (fun st (key_val : string * ptree) =>
         let key_t := StringTerm (fst key_val) in
         if ptree_empty (snd key_val) then
           (emplace_setting (fst st) key_t
              (StringTerm (get_value (snd key_val))), snd st)
         else loadSettings key_t (snd key_val) st)
      (children_of config) st in
  match get_child_optional config "data-sources" with
  | Some data_sources =>
      List.fold_left
        (fun st (item : string * ptree) =>
           let subtree := snd item in
           match get_optional subtree "file" with
           | Some fileValue =>
               let fileFormat := get_or subtree "format" formatDefault in
               (push_dataFile (fst st) (mkDataFile fileValue fileFormat),
                snd st)
           | None =>
               (fst st,
                snd st ++ [WARN ("Ignoring data source without " ++ quoted "file"
                                 ++ " key.")%string])
           end)
        (children_of data_sources) st
  | None => st
  end.

Inductive ReasonerError :=
| ReasonerError_ (message : string).

(** How a call ends: it returns, it throws, or it calls through a null
    function pointer. *)
Inductive Completion (A : Type) :=
| Returns (a : A)
| Throws (e : ReasonerError)
| Undefined.
Arguments Throws {A}.
Arguments Undefined {A}.

Section WithReasoners.
(** The reasoner objects, known by their identity, and the answer of
    their [loadConfiguration]. *)
Variable IReasoner : Type.
Variable loadConfiguration : IReasoner -> ReasonerConfiguration -> bool.

(** A shared object as [dlsym] shows it: the two symbols, where found. *)
Record SharedObject := mkSharedObject {
  knowrob_createReasoner : option (string -> IReasoner);
  knowrob_getPluginName : option string
}.

(** [dlopen(path, RTLD_LAZY)], null for [None]. *)
Variable dlopen : string -> option SharedObject.

Record ReasonerPlugin := mkPlugin {
  handle_ : option SharedObject;
  create_ : option (string -> IReasoner);
  get_name_ : option string;
  dllPath_ : string
}.

(** [ReasonerPlugin::ReasonerPlugin(dllPath)] *)
Definition ReasonerPlugin_new (dllPath : string) : ReasonerPlugin :=
  mkPlugin None None None dllPath.

Definition isLoaded (p : ReasonerPlugin) : bool :=
  match create_ p, get_name_ p with
  | Some _, Some _ => true
  | _, _ => false
  end.

(** [ReasonerPlugin::loadDLL]: the plugin afterwards and the answer. *)
Definition loadDLL (p : ReasonerPlugin) : ReasonerPlugin * bool :=
  match dlopen (dllPath_ p) with
  | Some so =>
      let p' := mkPlugin (Some so) (knowrob_createReasoner so)
                  (knowrob_getPluginName so) (dllPath_ p) in
      (p', isLoaded p')
  | None => (mkPlugin None (create_ p) (get_name_ p) (dllPath_ p), false)
  end.

(** The factories: the built-in ones, made with a type name, and the
    plugins. *)
Inductive ReasonerFactory :=
| TypedReasonerFactory (name : string) (create : string -> IReasoner)
| PluginFactory (plugin : ReasonerPlugin).

(** [factory->name()] and [factory->createReasoner(reasonerID)]; on a
    plugin they call through [get_name_] and [create_], which a plugin
    that is handed out has. *)
Definition factory_name (f : ReasonerFactory) : option string :=
  match f with
  | TypedReasonerFactory n _ => Some n
  | PluginFactory p => get_name_ p
  end.

Definition createReasoner (f : ReasonerFactory) (reasonerID : string)
  : option IReasoner :=
  match f with
  | TypedReasonerFactory _ create => Some (create reasonerID)
  | PluginFactory p =>
      match create_ p with
      | Some create => Some (create reasonerID)
      | None => None
      end
  end.

(** Modelled from the spec: the type of [reasonerIndex_] is declared in
    [knowrob/reasoner.h], which is not among the sources; the
    specification has "a monotonically increasing [index] for
    auto-naming", a counter without an upper end. *)
Record ReasonerManager := mkManager {
  reasonerFactories_ : StdMap.t ReasonerFactory;
  loadedPlugins_ : StdMap.t ReasonerPlugin;
  reasonerPool_ : list IReasoner;
  reasonerIndex_ : N
}.

(** [std::to_string(reasonerIndex_)] *)
Definition to_string (n : N) : string :=
  DecimalString.NilZero.string_of_uint (N.to_uint n).

(** [ReasonerManager::addReasoner] *)
Definition addReasoner (this : ReasonerManager) (reasoner : IReasoner)
  : ReasonerManager :=
  mkManager (reasonerFactories_ this) (loadedPlugins_ this)
    (reasonerPool_ this ++ [reasoner]) (reasonerIndex_ this).

(** [ReasonerManager::addReasonerFactory] *)
Definition addReasonerFactory (this : ReasonerManager) (typeName : string)
    (factory : ReasonerFactory) : ReasonerManager :=
  mkManager (StdMap.subscript_assign (reasonerFactories_ this) typeName factory)
    (loadedPlugins_ this) (reasonerPool_ this) (reasonerIndex_ this).

Definition set_loadedPlugins (this : ReasonerManager)
    (plugins : StdMap.t ReasonerPlugin) : ReasonerManager :=
  mkManager (reasonerFactories_ this) plugins
    (reasonerPool_ this) (reasonerIndex_ this).

(** [ReasonerManager::loadReasonerPlugin(path)]: the plugin or null. *)
Definition loadReasonerPlugin (this : ReasonerManager) (log : Log)
    (path : string) : ReasonerManager * Log * option ReasonerPlugin :=
  let failed :=
    WARN ("Failed to open reasoner library at path '" ++ path ++ "'.")%string in
  match StdMap.find (loadedPlugins_ this) path with
  | None =>
      let (p, loaded) := loadDLL (ReasonerPlugin_new path) in
      let this' :=
        set_loadedPlugins this
          (fst (StdMap.insert (loadedPlugins_ this) path p)) in
      if loaded then (this', log, Some p)
      else (this', log ++ [failed], None)
  | Some p =>
      if isLoaded p then (this, log, Some p)
      else (this, log ++ [failed], None)
  end.

(** The first part of [ReasonerManager::loadReasoner], down to the
    comment "make sure factory was found above": the factory or null. *)
Definition loadReasoner_factory (this : ReasonerManager) (log : Log)
    (config : ptree) : ReasonerManager * Log * option ReasonerFactory :=
  let lib := get_optional config "lib" in
  let type := get_optional config "type" in
  match lib with
  | Some lib_value =>
      match loadReasonerPlugin this log lib_value with
      | (this', log', Some p) => (this', log', Some (PluginFactory p))
      | (this', log', None) => (this', log', None)
      end
  | None =>
      match type with
      | Some type_value =>
          match StdMap.find (reasonerFactories_ this) type_value with
          | None =>
              (this,
               log ++ [WARN ("no factory registered for reasoner type '"
                             ++ type_value ++ "'.")%string],
               None)
          | Some f => (this, log, Some f)
          end
      | None =>
          (this,
           log ++ [WARN "missing 'type' or 'lib' key in reasoner config."],
           None)
      end
  end.

(** The rest of [loadReasoner], from "create a reasoner id" on, with the
    factory found. *)
Definition loadReasoner_with (this : ReasonerManager) (log : Log)
    (config : ptree) (factory : ReasonerFactory)
  : Completion (ReasonerManager * Log) :=
  let name := get_optional config "name" in
  match factory_name factory with
  | None => Undefined
  | Some factory_name =>
      let reasonerID :=
        match name with
        | Some name_value => name_value
        | None => (factory_name ++ to_string (reasonerIndex_ this))%string
        end in
      let log :=
        log ++ [INFO ("Using reasoner `" ++ reasonerID ++ "` with type `"
                      ++ factory_name ++ "`.")%string] in
      match createReasoner factory reasonerID with
      | None => Undefined
      | Some reasoner =>
          let (reasonerConfig, log) :=
            loadPropertyTree config (mkConfiguration [] [], log) in
          let (this, log) :=
            if negb (loadConfiguration reasoner reasonerConfig) then
              (this,
               log ++ [WARN ("Reasoner `" ++ reasonerID
                             ++ "` failed to loadConfiguration.")%string])
            else (addReasoner this reasoner, log) in
          Returns
            (mkManager (reasonerFactories_ this) (loadedPlugins_ this)
               (reasonerPool_ this) (reasonerIndex_ this + 1),
             log)
      end
  end.

(** [ReasonerManager::loadReasoner(config)] *)
Definition loadReasoner (this : ReasonerManager) (log : Log) (config : ptree)
  : Completion (ReasonerManager * Log) :=
  match loadReasoner_factory this log config with
  | (this', log', None) => Throws (ReasonerError_ "failed to load a reasoner.")
  | (this', log', Some factory) => loadReasoner_with this' log' config factory
  end.

End WithReasoners.

(** [DataFileLoader], by the answer it gives. *)
Definition DataFileLoader := DataFile -> bool.

(** Modelled from the spec: [DataFile::hasUnknownFormat] is declared in
    [knowrob/data_sources.h], which is not among the sources; the
    specification has the empty format "meaning unknown". *)
Definition hasUnknownFormat (dataFile : DataFile) : bool :=
  String.eqb (format dataFile) EmptyString.

(** [IReasoner::addDataFileHandler], on [dataFileHandler_]. *)
Definition addDataFileHandler (dataFileHandler_ : StdMap.t DataFileLoader)
    (format : string) (fn : DataFileLoader) : StdMap.t DataFileLoader :=
  StdMap.subscript_assign dataFileHandler_ format fn.

Section WithDataFiles.
(** The virtual [loadDataFileWithUnknownFormat] of the reasoner; the one
    of [IReasoner] answers [false]. *)
Variable loadDataFileWithUnknownFormat : DataFile -> bool.

(** [IReasoner::loadDataFile] *)
Definition loadDataFile (dataFileHandler_ : StdMap.t DataFileLoader)
    (log : Log) (dataFile : DataFile) : bool * Log :=
  if hasUnknownFormat dataFile then
    (loadDataFileWithUnknownFormat dataFile, log)
  else
    match StdMap.find dataFileHandler_ (format dataFile) with
    | None =>
        (false,
         log ++ [WARN ("Ignoring data file with unknown format "
                       ++ quoted (format dataFile))%string])
    | Some fn =>
        (fn dataFile,
         log ++ [INFO ("Using data file " ++ path dataFile
                       ++ " with format " ++ quoted (format dataFile)
                       ++ ".")%string])
    end.

End WithDataFiles.

Section WithPool.
Variable IReasoner : Type.
(** [operator==] of two [std::shared_ptr<IReasoner>]: whether they point
    to the same reasoner. *)
Variable same : IReasoner -> IReasoner -> bool.
Variable isCurrentPredicate : IReasoner -> PredicateIndicator -> bool.

(** [ReasonerManager::removeReasoner]: [reasonerPool_.remove(reasoner)]
    takes out every element equal to [reasoner]. *)
Definition removeReasoner (this : ReasonerManager IReasoner)
    (reasoner : IReasoner) : ReasonerManager IReasoner :=
  mkManager (reasonerFactories_ this) (loadedPlugins_ this)
    (List.filter (fun x => negb (same x reasoner)) (reasonerPool_ this))
    (reasonerIndex_ this).

(** [ReasonerManager::getReasonerForPredicate] *)
Definition getReasonerForPredicate (this : ReasonerManager IReasoner)
    (predicate : PredicateIndicator) : list IReasoner :=
  List.filter (fun x => isCurrentPredicate x predicate) (reasonerPool_ this).

End WithPool.

(** [ReasonerManager::ReasonerManager()], with the four built-in
    reasoner classes given by their constructors. *)
Definition ReasonerManager_new {IReasoner : Type}
    (MongologReasoner PrologReasoner ESGReasoner SWRLReasoner
       : string -> IReasoner) : ReasonerManager IReasoner :=
  let this := mkManager [] [] [] 0%N in
  let this := addReasonerFactory this "Mongolog"
                (TypedReasonerFactory "Mongolog" MongologReasoner) in
  let this := addReasonerFactory this "Prolog"
                (TypedReasonerFactory "Prolog" PrologReasoner) in
  let this := addReasonerFactory this "ESG"
                (TypedReasonerFactory "ESG" ESGReasoner) in
  addReasonerFactory this "SWRL" (TypedReasonerFactory "SWRL" SWRLReasoner).

End Reasoner.

(** ** [src/mongodb/MongoCursor.cpp] *)
Module MongoCursor.

Section WithBson.
(** The documents of libbson and the three functions of it that the
    options of a cursor are built with; they are outside the sources. *)
Variable bson_t : Type.
(** [BCON_NEW("sort", "{", key, BCON_INT32(direction), "}")] *)
Variable BCON_NEW_sort : string -> Z -> bson_t.
(** [bson_concat(dst, src)] and [BSON_APPEND_INT64(doc, key, value)], by
    the document that [dst] and [doc] are afterwards. *)
Variable bson_concat : bson_t -> bson_t -> bson_t.
Variable BSON_APPEND_INT64 : bson_t -> string -> Z -> bson_t.

(** The [static bson_t *doc] of [ascending] and the one of [descending]:
    each is initialised when its function is called for the first time,
    and belongs to the program, not to a cursor. *)
Record Statics := mkStatics {
  ascending_doc : option bson_t;
  descending_doc : option bson_t
}.

Definition at_start : Statics := mkStatics None None.

(** [MongoCursor::limit], on [opts_]. *)
Definition limit (opts_ : bson_t) (limit : Z) : bson_t :=
  BSON_APPEND_INT64 opts_ "limit" limit.

(** [MongoCursor::ascending], on the statics and [opts_]. *)
Definition ascending (statics : Statics) (opts_ : bson_t) (key : string)
  : Statics * bson_t :=
  let doc :=
    match ascending_doc statics with
    | Some doc => doc
    | None => BCON_NEW_sort key 1
    end in
  (mkStatics (Some doc) (descending_doc statics), bson_concat opts_ doc).

(** [MongoCursor::descending] *)
Definition descending (statics : Statics) (opts_ : bson_t) (key : string)
  : Statics * bson_t :=
  let doc :=
    match descending_doc statics with
    | Some doc => doc
    | None => BCON_NEW_sort key (-1)
    end in
  (mkStatics (ascending_doc statics) (Some doc), bson_concat opts_ doc).

End WithBson.

End MongoCursor.

(** ** Auxiliary notions used in the statements *)

Local Open Scope string_scope.

(** [k] is below every key of [m]. *)
Definition above {V : Type} (k : string) (m : StdMap.t V) : Prop :=
  forall k', In k' (StdMap.keys m) -> String.ltb k k' = true.

(** What is said of [Unifier::apply] on two terms without a unifier: the
    bottom singleton, which is not null and is neither of the two terms. *)
Definition apply_is_Bottom_and_no_input (t0 t1 : Term) : Prop :=
  forall sigma,
    Lang.Unifier_new t0 t1 = Some sigma ->
    Lang.exists_ sigma = false ->
    Lang.Unifier_apply sigma = Some BottomTerm
    /\ Lang.Unifier_apply sigma <> None
    /\ Lang.Unifier_apply sigma <> Some t0
    /\ Lang.Unifier_apply sigma <> Some t1.

(** The node a revert function holds an iterator to, and the value the
    lookup of that node gives once the function has run. *)
Definition node_of (f : Terms.RevertFunction) : string :=
  match f with
  | Terms.erase_jt jt => jt
  | Terms.assign_it_t0 it _ => it
  end.

Definition leaves (f : Terms.RevertFunction) : option TermPtr :=
  match f with
  | Terms.erase_jt _ => None
  | Terms.assign_it_t0 _ t0 => Some t0
  end.

Fixpoint journal_find (js : list Terms.RevertFunction) (k : string)
  : option Terms.RevertFunction :=
  match js with
  | [] => None
  | f :: r => if String.eqb k (node_of f) then Some f else journal_find r k
  end.

(** Strings hashed by their length and terms by their type tag: two
    functions to run [computeHash] with. *)
Definition length_hash (s : string) : Z := Z.of_nat (String.length s).
Definition type_hash (t : Term) : Z :=
  match type t with
  | VARIABLE => 1 | PREDICATE => 2 | STRING => 3 | DOUBLE => 4 | INT32 => 5
  | LONG => 6 | LIST => 7 | TOP => 8 | BOTTOM => 9
  end%Z.

(** A manager with the built-in factory for ["Prolog"], whose reasoners
    are known by their identifier, and a reasoner that refuses every
    configuration with a setting in it. *)
Definition manager_with_Prolog : Reasoner.ReasonerManager string :=
  Reasoner.addReasonerFactory
    (Reasoner.mkManager [] [] [] 0%N) "Prolog"
    (Reasoner.TypedReasonerFactory "Prolog" (fun reasonerID => reasonerID)).

Definition accepts_no_settings (_ : string)
    (cfg : Reasoner.ReasonerConfiguration) : bool :=
  match Reasoner.settings cfg with [] => true | _ => false end.

Definition no_shared_object (_ : string)
  : option (Reasoner.SharedObject string) := None.

Definition config_Prolog : Reasoner.ptree :=
  Reasoner.PTree EmptyString [("type", Reasoner.PTree "Prolog" [])].

(** A registry with the prefix [owl] only. *)
Definition owl_registry (prefix name : string) : option string :=
  if String.eqb prefix "owl"
  then Some ("http://www.w3.org/2002/07/owl#" ++ name)
  else None.

(** *** The option lists of the modal operators

    The specification: "[B]: first positional string -> agent; first
    positional float -> confidence.  Named: [agent]/[a] (string),
    [confidence]/[c] (float).  [K]: agent only, same rule as [B].  [P],
    [H]: first positional float -> begin; second -> end.  Named:
    [begin]/[since], [end]/[until]."  An option is a constant or
    [key=value]; it assigns a parameter, or is a duplicate assignment, has
    an unknown key, or has a value of the wrong type.

    The keys and the types of the values are taken as the specification
    has them.  For a constant without a key there are two readings below:
    [judge], where it goes to the first parameter of its type that is not
    set, and [judge_as_written], where it goes by its rank among the
    constants of its type, the first to the first parameter and the
    second to the second. *)
Module OptionSpec.

Inductive Operator := OpK | OpB | OpP | OpH.

Inductive Slot := agent | confidence | begin_time | end_time.

Definition Slot_eqb (p q : Slot) : bool :=
  match p, q with
  | agent, agent | confidence, confidence
  | begin_time, begin_time | end_time, end_time => true
  | _, _ => false
  end.

Definition is_set (assigned : list Slot) (p : Slot) : bool :=
  List.existsb (Slot_eqb p) assigned.

(** The parameters that positional strings and positional floats go to,
    in order. *)
Definition string_slots (op : Operator) : list Slot :=
  match op with
  | OpK | OpB => [agent]
  | OpP | OpH => []
  end.

Definition float_slots (op : Operator) : list Slot :=
  match op with
  | OpK => []
  | OpB => [confidence]
  | OpP | OpH => [begin_time; end_time]
  end.

Definition one_of (key a b : string) : bool :=
  String.eqb key a || String.eqb key b.

(** The parameter of a key. *)
Definition named (op : Operator) (key : string) : option Slot :=
  match op with
  | OpK => if one_of key "agent" "a" then Some agent else None
  | OpB =>
      if one_of key "agent" "a" then Some agent
      else if one_of key "confidence" "c" then Some confidence
      else None
  | OpP | OpH =>
      if one_of key "begin" "since" then Some begin_time
      else if one_of key "end" "until" then Some end_time
      else None
  end.

(** The agent is a string, the other parameters are floats. *)
Definition fits (p : Slot) (value : Term) : bool :=
  match p, value with
  | agent, StringTerm _ => true
  | agent, _ => false
  | _, DoubleTerm _ => true
  | _, _ => false
  end.

Inductive Verdict :=
| Assigns (p : Slot)
| Duplicate_assignment
| Unknown_key
| Type_mismatch
| Not_an_option.

Fixpoint first_free (assigned slots : list Slot) : option Slot :=
  match slots with
  | [] => None
  | p :: rest => if is_set assigned p then first_free assigned rest else Some p
  end.

(** A constant without a key goes to the first parameter of its type
    that is not set; it is a duplicate when all are set. *)
Definition positional (assigned slots : list Slot) : Verdict :=
  match slots with
  | [] => Type_mismatch
  | _ =>
      match first_free assigned slots with
      | Some p => Assigns p
      | None => Duplicate_assignment
      end
  end.

(** What an option is to an operator of which the parameters [assigned]
    are set, a constant without a key going to the first free parameter
    of its type. *)
Definition judge (op : Operator) (assigned : list Slot) (opt : Term)
  : Verdict :=
  match opt with
  | StringTerm _ => positional assigned (string_slots op)
  | DoubleTerm _ => positional assigned (float_slots op)
  | Predicate indicator [StringTerm key; value] =>
      if String.eqb (functor indicator) "=" && Nat.eqb (arity indicator) 2
      then
        match named op key with
        | None => Unknown_key
        | Some p =>
            if fits p value then
              if is_set assigned p then Duplicate_assignment else Assigns p
            else Type_mismatch
        end
      else Not_an_option
  | _ => Not_an_option
  end.



(** The function of the parser that makes the operator. *)
Definition create (op : Operator)
  : Term -> QueryParser.Result QueryParser.ModalOperator :=
  match op with
  | OpK => QueryParser.createK
  | OpB => QueryParser.createB
  | OpP => QueryParser.createP
  | OpH => QueryParser.createH
  end.

(** The letter of an operator in a query. *)
Definition letter (op : Operator) : ascii :=
  match op with
  | OpK => "K"
  | OpB => "B"
  | OpP => "P"
  | OpH => "H"
  end%char.

(** **** The words of the specification on constants without a key

    "First positional float -> begin; second -> end": the constant goes
    by its rank among the constants of its type, whatever is set; one
    whose parameter is set is a duplicate assignment, and so is one
    beyond the parameters of its type. *)
Definition positional_as_written (assigned slots : list Slot) (rank : nat)
  : Verdict :=
  match slots with
  | [] => Type_mismatch
  | _ =>
      match List.nth_error slots rank with
      | Some p => if is_set assigned p then Duplicate_assignment else Assigns p
      | None => Duplicate_assignment
      end
  end.

(** What has been read of an option list: the parameters that are set,
    and how many strings and floats without a key there were. *)
Record Seen := mkSeen {
  parameters : list Slot;
  strings_before : nat;
  floats_before : nat
}.

Definition nothing_seen : Seen := mkSeen [] 0 0.

Definition judge_as_written (op : Operator) (seen : Seen) (opt : Term)
  : Verdict :=
  match opt with
  | StringTerm _ =>
      positional_as_written (parameters seen) (string_slots op)
        (strings_before seen)
  | DoubleTerm _ =>
      positional_as_written (parameters seen) (float_slots op)
        (floats_before seen)
  | _ => judge op (parameters seen) opt
  end.

(** [seen] after an option that assigns [p]. *)
Definition see (seen : Seen) (opt : Term) (p : Slot) : Seen :=
  match opt with
  | StringTerm _ =>
      mkSeen (p :: parameters seen) (S (strings_before seen))
        (floats_before seen)
  | DoubleTerm _ =>
      mkSeen (p :: parameters seen) (strings_before seen)
        (S (floats_before seen))
  | _ => mkSeen (p :: parameters seen) (strings_before seen)
           (floats_before seen)
  end.

(** What has been read after a list of options that all assign. *)
Fixpoint seen_after (op : Operator) (seen : Seen) (options : list Term)
  : option Seen :=
  match options with
  | [] => Some seen
  | opt :: rest =>
      match judge_as_written op seen opt with
      | Assigns p => seen_after op (see seen opt p) rest
      | _ => None
      end
  end.


(** The two readings differ on an option in one place: a float without
    a key, the first of its kind, for [P] or [H], with begin set and end
    not set. *)
Definition float_after_begin (op : Operator) (seen : Seen) (opt : Term)
  : Prop :=
  (op = OpP \/ op = OpH)
  /\ (exists v, opt = DoubleTerm v)
  /\ floats_before seen = 0
  /\ is_set (parameters seen) begin_time = true
  /\ is_set (parameters seen) end_time = false.

(** A parameter is set for every constant without a key that was
    counted. *)
Definition counted (op : Operator) (seen : Seen) : Prop :=
  (forall k p, List.nth_error (string_slots op) k = Some p ->
               k < strings_before seen ->
               is_set (parameters seen) p = true)
  /\ (forall k p, List.nth_error (float_slots op) k = Some p ->
                  k < floats_before seen ->
                  is_set (parameters seen) p = true).

Definition float_10 : Term := DoubleTerm (QueryParser.double_of_Z 10).

End OptionSpec.

(** *** Depth of the rule calls

    A result is below another when it is [OutOfFuel] or the same; a parser
    is below another when its results are. *)
Definition result_le {A : Type} (r1 r2 : QueryParser.Result A) : Prop :=
  r1 = QueryParser.OutOfFuel \/ r1 = r2.

Definition parser_le {A : Type} (p q : QueryParser.Parser A) : Prop :=
  forall s, result_le (p s) (q s).

Definition rules_le (r1 r2 : QueryParser.ParserRules) : Prop :=
  parser_le (QueryParser.formula r1) (QueryParser.formula r2)
  /\ parser_le (QueryParser.disjunction r1) (QueryParser.disjunction r2)
  /\ parser_le (QueryParser.conjunction r1) (QueryParser.conjunction r2)
  /\ parser_le (QueryParser.implication r1) (QueryParser.implication r2)
  /\ parser_le (QueryParser.negation r1) (QueryParser.negation r2)
  /\ parser_le (QueryParser.modalFormula r1) (QueryParser.modalFormula r2)
  /\ parser_le (QueryParser.belief r1) (QueryParser.belief r2)
  /\ parser_le (QueryParser.knowledge r1) (QueryParser.knowledge r2)
  /\ parser_le (QueryParser.oncePast r1) (QueryParser.oncePast r2)
  /\ parser_le (QueryParser.alwaysPast r1) (QueryParser.alwaysPast r2)
  /\ parser_le (QueryParser.brackets r1) (QueryParser.brackets r2)
  /\ parser_le (QueryParser.unary r1) (QueryParser.unary r2).

(** A nullary predicate as a formula. *)
Definition nullary (f : string) : QueryParser.Formula :=
  QueryParser.PredicateFormula (mkIndicator f 0) [].


(** ** Auxiliary notions for the further properties *)

(** The loop over the arguments in [Unifier::unify], by itself. *)
Fixpoint unify_args (a0 : list Term) (n : nat) (a1 : list Term)
    (m : Lang.Mapping) {struct a0} : option (bool * Lang.Mapping) :=
  match n with
  | O => Some (true, m)
  | S n' =>
      match a0, a1 with
      | x0 :: r0, x1 :: r1 =>
          match Lang.unify x0 x1 m with
          | Some (true, m') => unify_args r0 n' r1 m'
          | Some (false, m') => Some (false, m')
          | None => None
          end
      | _, _ => None
      end
  end.

(** Every term that the substitution binds is ground. *)
Definition ground_range (sub : Lang.Mapping) : Prop :=
  forall x t, Lang.get sub x = Some t -> isGround t = true.

(** Every variable of the term has a term in the substitution. *)
Fixpoint closed_by (sub : Lang.Mapping) (t : Term) : bool :=
  match t with
  | Variable_ x => match Lang.get sub x with Some _ => true | None => false end
  | Predicate _ args => forallb (closed_by sub) args
  | ListTerm _ => isGround t
  | _ => true
  end.

(** The revert function that does what the [rollBack] of an operation
    does. *)
Definition as_revert (op : Lang.Operation) : Terms.RevertFunction :=
  match op with
  | Lang.Added it => Terms.erase_jt it
  | Lang.Replaced it old => Terms.assign_it_t0 it old
  end.

(** A shared object with both symbols at ["libfoo.so"], and none
    elsewhere. *)
Definition one_library (path : string)
  : option (Reasoner.SharedObject string) :=
  if String.eqb path "libfoo.so"
  then Some (Reasoner.mkSharedObject
               (Some (fun reasonerID : string => reasonerID)) (Some "Foo"))
  else None.

Definition config_lib_and_type : Reasoner.ptree :=
  Reasoner.PTree EmptyString
    [("lib", Reasoner.PTree "libbar.so" []);
     ("type", Reasoner.PTree "Prolog" [])].

(** A key of the settings: a name, or [key:name] on a key. *)
Fixpoint is_setting_key (k : Term) : bool :=
  match k with
  | StringTerm _ => true
  | Predicate ind (k1 :: StringTerm _ :: nil) =>
      String.eqb (functor ind) ":" && Nat.eqb (arity ind) 2
      && is_setting_key k1
  | _ => false
  end.

Definition is_setting (kv : Term * Term) : Prop :=
  is_setting_key (fst kv) = true /\ exists v, snd kv = StringTerm v.

(** The data files that the children of a [data-sources] node name. *)
Definition data_files_of (data_sources : Reasoner.ptree)
  : list Reasoner.DataFile :=
  List.flat_map
    (fun item : string * Reasoner.ptree =>
       match Reasoner.get_optional (snd item) "file" with
       | Some fileValue =>
           [Reasoner.mkDataFile fileValue
              (Reasoner.get_or (snd item) "format" EmptyString)]
       | None => []
       end)
    (Reasoner.children_of data_sources).

(** What a call leaves of a configuration and a log: the data files, the
    settings and the log as a prefix, and settings after it. *)
Definition extends_settings (st st' : Reasoner.ReasonerConfiguration * Reasoner.Log)
  : Prop :=
  Reasoner.dataFiles (fst st') = Reasoner.dataFiles (fst st)
  /\ (exists more,
        Reasoner.settings (fst st') = (Reasoner.settings (fst st) ++ more)%list
        /\ Forall is_setting more)
  /\ exists lines, snd st' = (snd st ++ lines)%list.

(** Two loaders to dispatch to, and the loader for files without a
    format that [IReasoner] has. *)
Definition accept_all : Reasoner.DataFileLoader := fun _ => true.
Definition refuse_unknown : Reasoner.DataFile -> bool := fun _ => false.

(** The room that a parameter of a modal operator has left. *)
Definition free {A : Type} (o : option A) : nat :=
  match o with Some _ => 0 | None => 1 end.

(** A word: a first character of the class [first], then letters, digits
    and underscores. *)
Definition is_word (first : ascii -> bool) (s : string) : bool :=
  match list_ascii_of_string s with
  | c :: l => first c && forallb QueryParser.word_char l
  | [] => false
  end.

(** Calls of [ascending] and [descending], on any cursors, one after the
    other. *)
Inductive SortCall :=
| Ascending (key : string)
| Descending (key : string).

Definition is_ascending (c : SortCall) : bool :=
  match c with Ascending _ => true | Descending _ => false end.

Definition key_of (c : SortCall) : string :=
  match c with Ascending key | Descending key => key end.

Section SortCalls.
Variable bson_t : Type.
Variable BCON_NEW_sort : string -> Z -> bson_t.
Variable bson_concat : bson_t -> bson_t -> bson_t.

(** The calls [cs], each on a cursor with the options [opts]: the statics
    afterwards, and the options of each cursor after its call. *)
Fixpoint sort_calls (statics : MongoCursor.Statics bson_t)
    (opts : bson_t) (cs : list SortCall)
  : MongoCursor.Statics bson_t * list bson_t :=
  match cs with
  | [] => (statics, [])
  | c :: rest =>
      let (statics', opts') :=
        match c with
        | Ascending key =>
            MongoCursor.ascending BCON_NEW_sort bson_concat statics opts key
        | Descending key =>
            MongoCursor.descending BCON_NEW_sort bson_concat statics opts key
        end in
      let (statics'', out) := sort_calls statics' opts rest in
      (statics'', opts' :: out)
  end.

End SortCalls.

(** The key of the first call in [cs] that goes the way of [c]. *)
Definition first_key (cs : list SortCall) (c : SortCall) : string :=
  match List.find (fun c' => Bool.eqb (is_ascending c') (is_ascending c)) cs
  with
  | Some c' => key_of c'
  | None => key_of c
  end.

(** * Properties *)


(** ** Unification in [src/lang/terms.cpp] *)

(** The scenario of the specification: [f(X,a)] against [f(b,Y)]. *)
Example unify_f_X_a_f_b_Y :
  let t0 := Predicate_of "f" [Variable_ "X"; StringTerm "a"] in
  let t1 := Predicate_of "f" [StringTerm "b"; Variable_ "Y"] in
  exists sigma,
    Lang.Unifier_new t0 t1 = Some sigma
    /\ Lang.exists_ sigma = true
    /\ Lang.mapping_ sigma
       = [("X", Some (StringTerm "b")); ("Y", Some (StringTerm "a"))]
    /\ Lang.Unifier_apply sigma
       = Some (Predicate_of "f" [StringTerm "b"; StringTerm "a"]).
Proof. eexists; repeat split; reflexivity. Qed.

(** A repeated variable keeps the last binding only: [set] overwrites. *)
Example unify_f_X_X_f_a_b :
  let t0 := Predicate_of "f" [Variable_ "X"; Variable_ "X"] in
  let t1 := Predicate_of "f" [StringTerm "a"; StringTerm "b"] in
  exists sigma,
    Lang.Unifier_new t0 t1 = Some sigma
    /\ Lang.exists_ sigma = true
    /\ Lang.mapping_ sigma = [("X", Some (StringTerm "b"))].
Proof. eexists; repeat split; reflexivity. Qed.

(** The arity of [p1] is never looked at: with fewer arguments on the
    right the loop reads past the end of [p1->arguments()]. *)
Example unify_reads_past_the_end :
  Lang.Unifier_new (Predicate_of "f" [StringTerm "a"; StringTerm "b"])
                   (Predicate_of "f" [StringTerm "a"]) = None.
Proof. reflexivity. Qed.

(** C1, at the failing input: [Unifier(f(a), g(a))] reports [exists] with
    the empty substitution, although the functors differ, and applying the
    substitution leaves the two terms different. *)
Theorem unify_accepts_different_functors :
  let t0 := Predicate_of "f" [StringTerm "a"] in
  let t1 := Predicate_of "g" [StringTerm "a"] in
  exists sigma,
    Lang.Unifier_new t0 t1 = Some sigma
    /\ Lang.exists_ sigma = true
    /\ Lang.mapping_ sigma = []
    /\ Lang.applySubstitution_arg (Lang.mapping_ sigma) t0
       <> Lang.applySubstitution_arg (Lang.mapping_ sigma) t1.
Proof.
  eexists; repeat split; try reflexivity.
  cbn. intros H. inversion H.
Qed.

(** ** [PredicateIndicator::operator<] *)

Lemma String_ltb_irrefl (s : string) : String.ltb s s = false.
Proof.
  unfold String.ltb.
  assert (H : String.compare s s = Eq)
    by (apply OrderedTypeEx.String_as_OT.cmp_eq; reflexivity).
  rewrite H. reflexivity.
Qed.

Lemma PredicateIndicator_lt_irrefl (a : PredicateIndicator) :
  Lang.PredicateIndicator_lt a a = false.
Proof.
  unfold Lang.PredicateIndicator_lt.
  rewrite String_ltb_irrefl, Nat.ltb_irrefl. reflexivity.
Qed.

(** C7, at the failing input: [p/2] and [q/1] are different indicators and
    each is below the other, so that the relation is neither asymmetric nor
    (being irreflexive) transitive. *)
Theorem PredicateIndicator_lt_holds_both_ways :
  let a := mkIndicator "p" 2 in
  let b := mkIndicator "q" 1 in
  a <> b
  /\ Lang.PredicateIndicator_lt a b = true
  /\ Lang.PredicateIndicator_lt b a = true
  /\ Lang.PredicateIndicator_lt a a = false.
Proof.
  cbv zeta. repeat split; try reflexivity. discriminate.
Qed.

(** ** [Unifier::apply] without a unifier *)

(** C9 as stated fails where an input is the bottom term itself:
    [Unifier(Bottom, Top)] has no unifier, and [apply()] returns the bottom
    singleton, which is the first input. *)
Lemma apply_returns_an_input_Bottom :
  ~ apply_is_Bottom_and_no_input BottomTerm TopTerm.
Proof.
  intros H.
  destruct (H (Lang.mkUnifier BottomTerm TopTerm [] false) eq_refl eq_refl)
    as (_ & _ & Hne & _).
  apply Hne. reflexivity.
Qed.

(** The same on the right: [Unifier(f(X), Bottom)]. *)
Example apply_returns_the_second_input :
  exists sigma,
    Lang.Unifier_new (Predicate_of "f" [Variable_ "X"]) BottomTerm = Some sigma
    /\ Lang.exists_ sigma = false
    /\ Lang.Unifier_apply sigma = Some BottomTerm.
Proof. eexists; repeat split; reflexivity. Qed.

(** C9, amended: without a unifier [apply()] returns the bottom singleton,
    a non-null pointer, and this is neither input unless that input is the
    bottom term. *)
Theorem apply_without_unifier_is_Bottom (t0 t1 : Term) (sigma : Lang.Unifier) :
  Lang.Unifier_new t0 t1 = Some sigma ->
  Lang.exists_ sigma = false ->
  Lang.Unifier_apply sigma = Some BottomTerm
  /\ Lang.Unifier_apply sigma <> None
  /\ (isBottom t0 = false -> Lang.Unifier_apply sigma <> Some t0)
  /\ (isBottom t1 = false -> Lang.Unifier_apply sigma <> Some t1).
Proof.
  intros _ Hex.
  assert (Happ : Lang.Unifier_apply sigma = Some BottomTerm).
  { unfold Lang.Unifier_apply. rewrite Hex. reflexivity. }
  rewrite Happ. repeat split.
  - discriminate.
  - intros Hb Heq. inversion Heq; subst. discriminate Hb.
  - intros Hb Heq. inversion Heq; subst. discriminate Hb.
Qed.

Lemma apply_without_unifier_is_Bottom_witness :
  let t0 := StringTerm "a" in
  let t1 := StringTerm "b" in
  let sigma := Lang.mkUnifier t0 t1 [] false in
  Lang.Unifier_apply sigma = Some BottomTerm
  /\ Lang.Unifier_apply sigma <> None
  /\ (isBottom t0 = false -> Lang.Unifier_apply sigma <> Some t0)
  /\ (isBottom t1 = false -> Lang.Unifier_apply sigma <> Some t1).
Proof.
  apply (@apply_without_unifier_is_Bottom (StringTerm "a") (StringTerm "b")
           (Lang.mkUnifier (StringTerm "a") (StringTerm "b") [] false));
    reflexivity.
Defined.

(** ** [Substitution::set] in [src/terms/Substitution.cpp] *)

(** C10: [set] on a bound variable changes nothing, and [get] still
    returns the term bound before. *)
Theorem set_does_not_overwrite
    (sigma : Terms.Mapping) (v : string) (t t' : TermPtr) :
  StdMap.find sigma v = Some t ->
  Terms.set sigma v t' = sigma
  /\ Terms.get (Terms.set sigma v t') v = t.
Proof.
  intros Hfind.
  assert (Hset : Terms.set sigma v t' = sigma).
  { unfold Terms.set, StdMap.insert. rewrite Hfind. reflexivity. }
  split; [exact Hset|].
  rewrite Hset. unfold Terms.get. rewrite Hfind. reflexivity.
Qed.

Lemma set_does_not_overwrite_witness :
  let sigma := [("X", Some (StringTerm "a"))] in
  Terms.set sigma "X" (Some (StringTerm "b")) = sigma
  /\ Terms.get (Terms.set sigma "X" (Some (StringTerm "b"))) "X"
     = Some (StringTerm "a").
Proof.
  apply (@set_does_not_overwrite
           [("X", Some (StringTerm "a"))] "X"
           (Some (StringTerm "a")) (Some (StringTerm "b"))).
  reflexivity.
Defined.

(** By contrast [Substitution::set] of [src/lang/terms.cpp] overwrites. *)
Example Lang_set_overwrites :
  Lang.get (Lang.set [("X", Some (StringTerm "a"))] "X" (Some (StringTerm "b"))) "X"
  = Some (StringTerm "b").
Proof. reflexivity. Qed.

(** ** The order of variable names *)

Lemma String_ltb_lt (a b : string) :
  String.ltb a b = true <-> OrderedTypeEx.String_as_OT.lt a b.
Proof.
  rewrite <- OrderedTypeEx.String_as_OT.cmp_lt.
  unfold String.ltb, OrderedTypeEx.String_as_OT.cmp.
  destruct (String.compare a b); split; congruence.
Qed.

Lemma String_ltb_trans (a b c : string) :
  String.ltb a b = true -> String.ltb b c = true -> String.ltb a c = true.
Proof.
  rewrite !String_ltb_lt. apply OrderedTypeEx.String_as_OT.lt_trans.
Qed.

Lemma String_ltb_neq (a b : string) :
  String.ltb a b = true -> String.eqb a b = false.
Proof.
  intros H. apply String.eqb_neq. intros ->.
  rewrite String_ltb_irrefl in H. discriminate.
Qed.

Lemma String_ltb_connex (a b : string) :
  String.ltb a b = false -> String.eqb a b = false -> String.ltb b a = true.
Proof.
  unfold String.ltb. intros Hlt Hne.
  rewrite String.compare_antisym.
  destruct (String.compare a b) eqn:E; simpl; try reflexivity; try discriminate.
  apply OrderedTypeEx.String_as_OT.cmp_eq in E.
  apply String.eqb_neq in Hne. contradiction.
Qed.

(** ** Facts about [std::map] *)

Section StdMapFacts.
Context {V : Type}.
Implicit Types (m : StdMap.t V) (k : string) (v : V).

Lemma ordered_cons k v m :
  StdMap.ordered ((k, v) :: m) = true
  <-> above k m /\ StdMap.ordered m = true.
Proof.
  revert k v. induction m as [|[k1 v1] r IH]; intros k v.
  - simpl. split; [intros _; split; [intros ? []|reflexivity] | reflexivity].
  - change (StdMap.ordered ((k, v) :: (k1, v1) :: r))
      with (String.ltb k k1 && StdMap.ordered ((k1, v1) :: r)).
    rewrite andb_true_iff. split.
    + intros [Hk Hr]. split; [|exact Hr].
      apply IH in Hr. destruct Hr as [Hab _].
      intros k' [<-|Hin]; [exact Hk|].
      apply String_ltb_trans with k1; [exact Hk|apply Hab, Hin].
    + intros [Hab Hr]. split; [|exact Hr].
      apply Hab. left. reflexivity.
Qed.

Lemma find_Some_In m k v :
  StdMap.find m k = Some v -> In k (StdMap.keys m).
Proof.
  induction m as [|[k1 v1] r IH]; simpl; [discriminate|].
  destruct (String.eqb_spec k k1) as [->|Hne]; intros H.
  - left. reflexivity.
  - right. apply IH, H.
Qed.

Lemma above_find k m : above k m -> StdMap.find m k = None.
Proof.
  intros Hab. destruct (StdMap.find m k) eqn:E; [|reflexivity].
  apply find_Some_In, Hab in E. rewrite String_ltb_irrefl in E. discriminate.
Qed.

Lemma find_place m k v k' :
  StdMap.find m k = None ->
  StdMap.find (StdMap.place m k v) k'
  = if String.eqb k' k then Some v else StdMap.find m k'.
Proof.
  induction m as [|[k1 v1] r IH]; simpl; intros Hnone.
  - reflexivity.
  - destruct (String.eqb_spec k k1) as [->|Hne]; [discriminate|].
    destruct (String.ltb k k1); simpl.
    + reflexivity.
    + rewrite (IH Hnone).
      destruct (String.eqb_spec k' k1) as [->|Hne1]; [|reflexivity].
      destruct (String.eqb_spec k1 k) as [->|_]; [contradiction|reflexivity].
Qed.

Lemma find_assign m k v k' :
  StdMap.find (StdMap.assign m k v) k'
  = if String.eqb k' k
    then match StdMap.find m k with Some _ => Some v | None => None end
    else StdMap.find m k'.
Proof.
  induction m as [|[k1 v1] r IH]; simpl.
  - destruct (String.eqb k' k); reflexivity.
  - destruct (String.eqb_spec k k1) as [->|Hne]; simpl.
    + destruct (String.eqb k' k1); reflexivity.
    + rewrite IH.
      destruct (String.eqb_spec k' k1) as [->|Hne1]; [|reflexivity].
      destruct (String.eqb_spec k1 k) as [->|_]; [contradiction|reflexivity].
Qed.

Lemma find_erase m k k' :
  StdMap.ordered m = true ->
  StdMap.find (StdMap.erase m k) k'
  = if String.eqb k' k then None else StdMap.find m k'.
Proof.
  induction m as [|[k1 v1] r IH]; simpl StdMap.erase; intros Hord.
  - simpl. destruct (String.eqb k' k); reflexivity.
  - apply ordered_cons in Hord. destruct Hord as [Hab Hord].
    destruct (String.eqb_spec k k1) as [->|Hne].
    + simpl. destruct (String.eqb_spec k' k1) as [E|E]; [subst k'|reflexivity].
      apply above_find, Hab.
    + simpl. rewrite (IH Hord).
      destruct (String.eqb_spec k' k1) as [->|Hne1]; [|reflexivity].
      destruct (String.eqb_spec k1 k) as [->|_]; [contradiction|reflexivity].
Qed.

Lemma keys_place m k v k' :
  In k' (StdMap.keys (StdMap.place m k v)) <-> k' = k \/ In k' (StdMap.keys m).
Proof.
  induction m as [|[k1 v1] r IH]; simpl.
  - intuition congruence.
  - destruct (String.ltb k k1); simpl; [intuition congruence|].
    rewrite IH. intuition congruence.
Qed.

Lemma keys_assign m k v :
  StdMap.keys (StdMap.assign m k v) = StdMap.keys m.
Proof.
  induction m as [|[k1 v1] r IH]; simpl; [reflexivity|].
  destruct (String.eqb k k1); simpl; [reflexivity|].
  f_equal. exact IH.
Qed.

Lemma keys_erase m k k' :
  In k' (StdMap.keys (StdMap.erase m k)) -> In k' (StdMap.keys m).
Proof.
  induction m as [|[k1 v1] r IH]; simpl; [tauto|].
  destruct (String.eqb k k1); simpl; intuition.
Qed.

Lemma ordered_place m k v :
  StdMap.ordered m = true -> StdMap.find m k = None ->
  StdMap.ordered (StdMap.place m k v) = true.
Proof.
  induction m as [|[k1 v1] r IH]; intros Hord Hnone.
  - reflexivity.
  - simpl in Hnone. destruct (String.eqb k k1) eqn:Heq; [discriminate|].
    simpl StdMap.place. destruct (String.ltb k k1) eqn:Hlt.
    + apply ordered_cons. split; [|exact Hord].
      apply ordered_cons in Hord. destruct Hord as [Hab _].
      intros k' [<-|Hin]; [exact Hlt|].
      apply String_ltb_trans with k1; [exact Hlt|apply Hab, Hin].
    + apply ordered_cons in Hord. destruct Hord as [Hab Hord].
      apply ordered_cons. split; [|apply IH; assumption].
      intros k' Hin. apply keys_place in Hin. destruct Hin as [->|Hin].
      * apply String_ltb_connex; assumption.
      * apply Hab, Hin.
Qed.

Lemma ordered_assign m k v :
  StdMap.ordered m = true -> StdMap.ordered (StdMap.assign m k v) = true.
Proof.
  induction m as [|[k1 v1] r IH]; intros Hord; [reflexivity|].
  apply ordered_cons in Hord. destruct Hord as [Hab Hord].
  simpl. destruct (String.eqb k k1).
  - apply ordered_cons. split; assumption.
  - apply ordered_cons. split; [|apply IH, Hord].
    intros k' Hin. rewrite keys_assign in Hin. apply Hab, Hin.
Qed.

Lemma ordered_erase m k :
  StdMap.ordered m = true -> StdMap.ordered (StdMap.erase m k) = true.
Proof.
  induction m as [|[k1 v1] r IH]; intros Hord; [reflexivity|].
  apply ordered_cons in Hord. destruct Hord as [Hab Hord].
  simpl. destruct (String.eqb k k1); [exact Hord|].
  apply ordered_cons. split; [|apply IH, Hord].
  intros k' Hin. apply keys_erase in Hin. apply Hab, Hin.
Qed.

Lemma ordered_NoDup m :
  StdMap.ordered m = true -> NoDup (StdMap.keys m).
Proof.
  induction m as [|[k1 v1] r IH]; intros Hord; [constructor|].
  apply ordered_cons in Hord. destruct Hord as [Hab Hord].
  simpl. constructor; [|apply IH, Hord].
  intros Hin. apply Hab in Hin. rewrite String_ltb_irrefl in Hin. discriminate.
Qed.

(** Two maps with the same lookups are the same map. *)
Lemma ordered_ext m1 m2 :
  StdMap.ordered m1 = true -> StdMap.ordered m2 = true ->
  (forall k, StdMap.find m1 k = StdMap.find m2 k) ->
  m1 = m2.
Proof.
  revert m2. induction m1 as [|[k1 v1] r1 IH]; intros [|[k2 v2] r2] H1 H2 Hext.
  - reflexivity.
  - specialize (Hext k2). simpl in Hext. rewrite String.eqb_refl in Hext.
    discriminate.
  - specialize (Hext k1). simpl in Hext. rewrite String.eqb_refl in Hext.
    discriminate.
  - apply ordered_cons in H1. destruct H1 as [Hab1 H1].
    apply ordered_cons in H2. destruct H2 as [Hab2 H2].
    assert (Hk : k1 = k2).
    { destruct (String.eqb_spec k1 k2) as [E|Hne]; [exact E|exfalso].
      pose proof (Hext k1) as E1. simpl in E1. rewrite String.eqb_refl in E1.
      destruct (String.eqb_spec k1 k2) as [|_]; [contradiction|].
      symmetry in E1. apply find_Some_In, Hab2 in E1.
      pose proof (Hext k2) as E2. simpl in E2. rewrite String.eqb_refl in E2.
      destruct (String.eqb_spec k2 k1) as [E|_]; [symmetry in E; contradiction|].
      apply find_Some_In, Hab1 in E2.
      pose proof (String_ltb_trans _ _ _ E1 E2) as F.
      rewrite String_ltb_irrefl in F. discriminate. }
    subst k2.
    pose proof (Hext k1) as E1. simpl in E1. rewrite String.eqb_refl in E1.
    injection E1 as ->.
    f_equal. apply IH; [assumption|assumption|].
    intros k. specialize (Hext k). simpl in Hext.
    destruct (String.eqb_spec k k1) as [E|Hne]; [subst k|exact Hext].
    rewrite (above_find Hab1), (above_find Hab2). reflexivity.
Qed.

End StdMapFacts.

(** ** The journal of a merge *)

Lemma journal_find_None js k :
  ~ In k (List.map node_of js) -> journal_find js k = None.
Proof.
  induction js as [|f r IH]; simpl; intros Hnin; [reflexivity|].
  destruct (String.eqb_spec k (node_of f)) as [E|_].
  - exfalso. apply Hnin. left. symmetry. exact E.
  - apply IH. intros Hin. apply Hnin. right. exact Hin.
Qed.

Lemma call_spec (f : Terms.RevertFunction) (m : Terms.Mapping) :
  StdMap.ordered m = true ->
  StdMap.find m (node_of f) <> None ->
  exists m',
    Terms.call f m = Some m'
    /\ StdMap.ordered m' = true
    /\ forall k, StdMap.find m' k
                 = if String.eqb k (node_of f) then leaves f
                   else StdMap.find m k.
Proof.
  intros Hord Hin.
  destruct f as [jt|it t0]; simpl in *.
  - unfold StdMap.it_erase.
    destruct (StdMap.find m jt) eqn:E; [|contradiction].
    eexists; split; [reflexivity|]. split; [apply ordered_erase, Hord|].
    intros k. apply find_erase, Hord.
  - unfold StdMap.it_assign.
    destruct (StdMap.find m it) eqn:E; [|contradiction].
    eexists; split; [reflexivity|]. split; [apply ordered_assign, Hord|].
    intros k. rewrite find_assign, E. reflexivity.
Qed.

(** Revert functions on different nodes: all are called, front first, and
    each node ends with what its function leaves. *)
Lemma rollBack_spec (js : Terms.Reversible) :
  forall m : Terms.Mapping,
    StdMap.ordered m = true ->
    NoDup (List.map node_of js) ->
    (forall f, In f js -> StdMap.find m (node_of f) <> None) ->
    exists m',
      Terms.rollBack js m = (js, Some m')
      /\ StdMap.ordered m' = true
      /\ forall k, StdMap.find m' k
                   = match journal_find js k with
                     | Some f => leaves f
                     | None => StdMap.find m k
                     end.
Proof.
  induction js as [|f r IH]; intros m Hord Hnd Hpres.
  - exists m. split; [reflexivity|]. split; [exact Hord|]. reflexivity.
  - inversion Hnd as [|? ? Hnin Hnd']; subst.
    destruct (@call_spec f m Hord (Hpres f (or_introl eq_refl)))
      as (m1 & Hcall & Hord1 & Hfind1).
    destruct (IH m1 Hord1 Hnd') as (m' & Hrb & Hord' & Hfind').
    { intros g Hg. rewrite Hfind1.
      destruct (String.eqb_spec (node_of g) (node_of f)) as [E|_].
      - exfalso. apply Hnin. rewrite <- E. apply in_map, Hg.
      - apply Hpres. right. exact Hg. }
    exists m'. split; [|split; [exact Hord'|]].
    + simpl. rewrite Hcall, Hrb. reflexivity.
    + intros k. rewrite Hfind'. simpl.
      destruct (String.eqb_spec k (node_of f)) as [E|Hne].
      * subst k. rewrite (journal_find_None _ _ Hnin), Hfind1.
        rewrite String.eqb_refl. reflexivity.
      * destruct (journal_find r k); [reflexivity|].
        rewrite Hfind1. destruct (String.eqb_spec k (node_of f)); [contradiction|].
        reflexivity.
Qed.

Section Merge.
Variable Unifier_exists : TermPtr -> TermPtr -> bool.
Variable Unifier_apply : TermPtr -> TermPtr -> TermPtr.

Local Abbreviation step := (Terms.unifyWith_step Unifier_exists Unifier_apply).
Local Abbreviation loop := (Terms.unifyWith_loop Unifier_exists Unifier_apply).

(** A turn of the loop that does not return pushes one function, whose
    node is the key of the pair and is in the map afterwards. *)
Lemma unifyWith_step_spec (m : Terms.Mapping) (j : Terms.Reversible)
    (k : string) (t1 : TermPtr) (m1 : Terms.Mapping)
    (r1 : option Terms.Reversible) :
  StdMap.ordered m = true ->
  step m (Some j) (k, t1) = Some (m1, r1) ->
  exists f,
    r1 = Some (StdQueue.push j f)
    /\ node_of f = k
    /\ leaves f = StdMap.find m k
    /\ StdMap.ordered m1 = true
    /\ StdMap.find m1 k <> None
    /\ forall k', k' <> k -> StdMap.find m1 k' = StdMap.find m k'.
Proof.
  intros Hord. unfold Terms.unifyWith_step, StdMap.insert.
  destruct (StdMap.find m k) as [t0|] eqn:E.
  - destruct (Unifier_exists t0 t1); [|discriminate].
    intros H. injection H as <- <-.
    exists (Terms.assign_it_t0 k t0). repeat split.
    + apply ordered_assign, Hord.
    + rewrite find_assign, String.eqb_refl, E. discriminate.
    + intros k' Hne. rewrite find_assign.
      destruct (String.eqb_spec k' k); [contradiction|reflexivity].
  - intros H. injection H as <- <-.
    exists (Terms.erase_jt k). repeat split.
    + apply ordered_place; assumption.
    + rewrite find_place by exact E. rewrite String.eqb_refl. discriminate.
    + intros k' Hne. rewrite find_place by exact E.
      destruct (String.eqb_spec k' k); [contradiction|reflexivity].
Qed.

(** The loop of [unifyWith]: what it appends to the journal undoes, node
    by node, what it did to the map. *)
Lemma unifyWith_loop_spec (pairs : list (string * TermPtr)) :
  forall (m : Terms.Mapping) (j : Terms.Reversible),
    StdMap.ordered m = true ->
    NoDup (StdMap.keys pairs) ->
    exists b m' js,
      loop pairs m (Some j) = (b, m', Some (j ++ js)%list)
      /\ StdMap.ordered m' = true
      /\ NoDup (List.map node_of js)
      /\ (forall f, In f js -> In (node_of f) (StdMap.keys pairs))
      /\ (forall f, In f js -> StdMap.find m' (node_of f) <> None)
      /\ (forall k, StdMap.find m k
                    = match journal_find js k with
                      | Some f => leaves f
                      | None => StdMap.find m' k
                      end)
      /\ (forall k, StdMap.find m k <> None -> StdMap.find m' k <> None)
      /\ (b = true -> List.length js = List.length pairs).
Proof.
  induction pairs as [|[k t1] rest IH]; intros m j Hord Hnd.
  - exists true, m, []. simpl. rewrite app_nil_r.
    split; [reflexivity|]. split; [exact Hord|].
    split; [constructor|]. split; [intros ? []|]. split; [intros ? []|].
    split; [reflexivity|]. split; [auto|reflexivity].
  - inversion Hnd as [|? ? Hnin Hnd']; subst.
    cbn [Terms.unifyWith_loop].
    destruct (step m (Some j) (k, t1)) as [[m1 r1]|] eqn:Hstep.
    + destruct (@unifyWith_step_spec _ _ _ _ _ _ Hord Hstep)
        as (f & -> & Hnode & Hleaves & Hord1 & Hpres1 & Hsame1).
      destruct (IH m1 (StdQueue.push j f) Hord1 Hnd')
        as (b & m' & js & Hloop & Hord' & Hnd_js & Hsub & Hpres & Hfind
             & Hmono & Hlen).
      exists b, m', (f :: js).
      split.
      { cbv beta iota. refine (eq_trans Hloop _). unfold StdQueue.push.
        rewrite <- app_assoc. reflexivity. }
      split; [exact Hord'|].
      split.
      { simpl. constructor; [|exact Hnd_js].
        rewrite Hnode. intros Hin. apply Hnin.
        apply in_map_iff in Hin. destruct Hin as (g & <- & Hg).
        apply Hsub, Hg. }
      split.
      { intros g [<-|Hg]; [left; symmetry; exact Hnode|right; apply Hsub, Hg]. }
      split.
      { intros g [<-|Hg]; [rewrite Hnode; apply Hmono, Hpres1|apply Hpres, Hg]. }
      split.
      { intros k'. simpl. rewrite Hnode.
        destruct (String.eqb_spec k' k) as [E|Hne].
        - subst k'. symmetry. exact Hleaves.
        - rewrite <- (Hsame1 k' Hne). apply Hfind. }
      split.
      { intros k' Hk'. apply Hmono.
        destruct (String.eqb_spec k' k) as [E|Hne].
        - subst k'. exact Hpres1.
        - rewrite (Hsame1 k' Hne). exact Hk'. }
      { intros Hb. simpl. f_equal. apply Hlen, Hb. }
    + exists false, m, []. rewrite app_nil_r.
      split; [reflexivity|]. split; [exact Hord|].
      split; [constructor|]. split; [intros ? []|]. split; [intros ? []|].
      split; [reflexivity|]. split; [auto|discriminate].
Qed.

End Merge.

(** ** Rolling a merge back *)

(** C2: after [sigma.unifyWith(sigma', &j)] on an empty journal [j],
    whatever the answer, [j.rollBack()] runs through without touching an
    invalid iterator and leaves [sigma] with the mapping it had before, and
    so with the hash it had before. *)
Theorem rollBack_after_unifyWith_restores
    (Unifier_exists : TermPtr -> TermPtr -> bool)
    (Unifier_apply : TermPtr -> TermPtr -> TermPtr)
    (Variable_computeHash : string -> Z) (Term_computeHash : Term -> Z)
    (sigma sigma' : Terms.Mapping) :
  StdMap.ordered sigma = true ->
  StdMap.ordered sigma' = true ->
  exists (answer : bool) (merged : Terms.Mapping) (j : Terms.Reversible),
    Terms.unifyWith Unifier_exists Unifier_apply sigma sigma' (Some [])
    = (answer, merged, Some j)
    /\ snd (Terms.rollBack j merged) = Some sigma
    /\ option_map (Terms.computeHash Variable_computeHash Term_computeHash)
         (snd (Terms.rollBack j merged))
       = Some (Terms.computeHash Variable_computeHash Term_computeHash sigma).
Proof.
  intros Hord Hord'.
  destruct (@unifyWith_loop_spec Unifier_exists Unifier_apply
              sigma' sigma [] Hord (@ordered_NoDup _ _ Hord'))
    as (b & m' & js & Hloop & Hordm & Hnd & _ & Hpres & Hfind & _ & _).
  destruct (@rollBack_spec js m' Hordm Hnd Hpres) as (m'' & Hrb & Hord'' & Hfind'').
  assert (Hsame : m'' = sigma).
  { apply ordered_ext; [assumption|assumption|].
    intros k. rewrite Hfind'', Hfind. reflexivity. }
  subst m''.
  exists b, m', js. split; [exact Hloop|].
  rewrite Hrb. split; reflexivity.
Qed.

Lemma rollBack_after_unifyWith_restores_witness :
  let a := Some (StringTerm "a") in
  let sigma := [("X", a)] in
  let sigma' := [("X", Some (Variable_ "Z")); ("Y", Some (StringTerm "b"))] in
  exists (answer : bool) (merged : Terms.Mapping) (j : Terms.Reversible),
    Terms.unifyWith Terms.Lang_exists Terms.Lang_apply sigma sigma' (Some [])
    = (answer, merged, Some j)
    /\ snd (Terms.rollBack j merged) = Some sigma
    /\ option_map (Terms.computeHash length_hash type_hash)
         (snd (Terms.rollBack j merged))
       = Some (Terms.computeHash length_hash type_hash sigma).
Proof.
  apply (@rollBack_after_unifyWith_restores
           Terms.Lang_exists Terms.Lang_apply length_hash type_hash
           [("X", Some (StringTerm "a"))]
           [("X", Some (Variable_ "Z")); ("Y", Some (StringTerm "b"))]);
    reflexivity.
Defined.

(** A merge that goes through, and one that stops at its second pair. *)
Example unifyWith_true :
  Terms.unifyWith Terms.Lang_exists Terms.Lang_apply
    [("X", Some (StringTerm "a"))]
    [("X", Some (Variable_ "Z")); ("Y", Some (StringTerm "b"))] (Some [])
  = (true,
     [("X", Some (StringTerm "a")); ("Y", Some (StringTerm "b"))],
     Some [Terms.assign_it_t0 "X" (Some (StringTerm "a")); Terms.erase_jt "Y"]).
Proof. reflexivity. Qed.

Example unifyWith_false :
  Terms.unifyWith Terms.Lang_exists Terms.Lang_apply
    [("Y", Some (StringTerm "a"))]
    [("X", Some (StringTerm "c")); ("Y", Some (StringTerm "b"))] (Some [])
  = (false,
     [("X", Some (StringTerm "c")); ("Y", Some (StringTerm "a"))],
     Some [Terms.erase_jt "X"]).
Proof. reflexivity. Qed.

Example rollBack_after_false :
  Terms.rollBack [Terms.erase_jt "X"]
    [("X", Some (StringTerm "c")); ("Y", Some (StringTerm "a"))]
  = ([Terms.erase_jt "X"], Some [("Y", Some (StringTerm "a"))]).
Proof. reflexivity. Qed.

(** ** The order of rollback *)

(** C3 as stated fails: merging [{X: a, Y: b}] into the empty substitution
    pushes the function that erases [X] and then the one that erases [Y],
    and [rollBack] calls them in this order, not in the reverse one. *)
Lemma rollBack_calls_oldest_first :
  exists (merged : Terms.Mapping) (j : Terms.Reversible),
    Terms.unifyWith Terms.Lang_exists Terms.Lang_apply []
      [("X", Some (StringTerm "a")); ("Y", Some (StringTerm "b"))] (Some [])
    = (true, merged, Some j)
    /\ j = StdQueue.push (StdQueue.push [] (Terms.erase_jt "X"))
             (Terms.erase_jt "Y")
    /\ fst (Terms.rollBack j merged) = [Terms.erase_jt "X"; Terms.erase_jt "Y"]
    /\ fst (Terms.rollBack j merged) <> List.rev j.
Proof.
  eexists. eexists. split; [reflexivity|]. split; [reflexivity|].
  split; [reflexivity|]. discriminate.
Qed.

Lemma rollBack_calls_prefix (j : Terms.Reversible) :
  forall m : Terms.Mapping,
    exists rest, j = (fst (Terms.rollBack j m) ++ rest)%list.
Proof.
  induction j as [|f r IH]; intros m.
  - exists []. reflexivity.
  - simpl. destruct (Terms.call f m) as [m1|].
    + destruct (IH m1) as [rest Hrest].
      destruct (Terms.rollBack r m1) as [called res]. simpl in *.
      exists rest. f_equal. exact Hrest.
    + exists r. reflexivity.
Qed.

Lemma Lang_rollBack_calls_prefix (changes : Lang.Diff) :
  forall m : Lang.Mapping,
    exists rest, changes = (fst (Lang.rollBack changes m) ++ rest)%list.
Proof.
  induction changes as [|f r IH]; intros m.
  - exists []. reflexivity.
  - simpl. destruct (Lang.Operation_rollBack f m) as [m1|].
    + destruct (IH m1) as [rest Hrest].
      destruct (Lang.rollBack r m1) as [called res]. simpl in *.
      exists rest. f_equal. exact Hrest.
    + exists r. reflexivity.
Qed.

(** C3, amended: the journal is a first-in-first-out queue.  A turn of the
    merge loop that changes the substitution pushes exactly one function,
    at the back; a merge that answers [true] has pushed one for each pair
    of the other substitution; and [rollBack] calls the functions of the
    journal from the front, in the order in which they were pushed.  The
    loop of [Substitution::rollBack] in [src/lang/terms.cpp] starts from
    the front likewise. *)
Theorem rollBack_runs_in_push_order
    (Unifier_exists : TermPtr -> TermPtr -> bool)
    (Unifier_apply : TermPtr -> TermPtr -> TermPtr)
    (sigma sigma' : Terms.Mapping) :
  StdMap.ordered sigma = true ->
  StdMap.ordered sigma' = true ->
  (forall (m m1 : Terms.Mapping) (j : Terms.Reversible)
          (item : string * TermPtr) (r1 : option Terms.Reversible),
      Terms.unifyWith_step Unifier_exists Unifier_apply m (Some j) item
      = Some (m1, r1) ->
      exists f, r1 = Some (StdQueue.push j f))
  /\ (exists (answer : bool) (merged : Terms.Mapping) (j : Terms.Reversible),
        Terms.unifyWith Unifier_exists Unifier_apply sigma sigma' (Some [])
        = (answer, merged, Some j)
        /\ (answer = true -> List.length j = List.length sigma')
        /\ fst (Terms.rollBack j merged) = j)
  /\ (forall (j : Terms.Reversible) (m : Terms.Mapping),
        exists rest, j = (fst (Terms.rollBack j m) ++ rest)%list)
  /\ (forall (changes : Lang.Diff) (m : Lang.Mapping),
        exists rest, changes = (fst (Lang.rollBack changes m) ++ rest)%list).
Proof.
  intros Hord Hord'. split; [|split; [|split]].
  - intros m m1 j [k t1] r1.
    unfold Terms.unifyWith_step, StdMap.insert.
    destruct (StdMap.find m k) as [t0|].
    + destruct (Unifier_exists t0 t1); [|discriminate].
      intros H. injection H as _ <-. eexists. reflexivity.
    + intros H. injection H as _ <-. eexists. reflexivity.
  - destruct (@unifyWith_loop_spec Unifier_exists Unifier_apply
                sigma' sigma [] Hord (@ordered_NoDup _ _ Hord'))
      as (b & m' & js & Hloop & Hordm & Hnd & _ & Hpres & _ & _ & Hlen).
    destruct (@rollBack_spec js m' Hordm Hnd Hpres) as (m'' & Hrb & _).
    exists b, m', js. split; [exact Hloop|]. split; [exact Hlen|].
    rewrite Hrb. reflexivity.
  - intros j m. apply rollBack_calls_prefix.
  - intros changes m. apply Lang_rollBack_calls_prefix.
Qed.

Lemma rollBack_runs_in_push_order_witness :
  let sigma := [("X", Some (StringTerm "a"))] in
  let sigma' := [("X", Some (Variable_ "Z")); ("Y", Some (StringTerm "b"))] in
  exists (answer : bool) (merged : Terms.Mapping) (j : Terms.Reversible),
    Terms.unifyWith Terms.Lang_exists Terms.Lang_apply sigma sigma' (Some [])
    = (answer, merged, Some j)
    /\ (answer = true -> List.length j = List.length sigma')
    /\ fst (Terms.rollBack j merged) = j.
Proof.
  apply (@rollBack_runs_in_push_order
           Terms.Lang_exists Terms.Lang_apply
           [("X", Some (StringTerm "a"))]
           [("X", Some (Variable_ "Z")); ("Y", Some (StringTerm "b"))]
           eq_refl eq_refl).
Defined.

(** The older [combine] and [rollBack] on the same merge. *)
Example Lang_combine_then_rollBack :
  Lang.combine []
    [("X", Some (StringTerm "a")); ("Y", Some (StringTerm "b"))] []
  = Lang.Returns
      (true,
       [("X", Some (StringTerm "a")); ("Y", Some (StringTerm "b"))],
       [Lang.Added "X"; Lang.Added "Y"])
  /\ Lang.rollBack [Lang.Added "X"; Lang.Added "Y"]
       [("X", Some (StringTerm "a")); ("Y", Some (StringTerm "b"))]
     = ([Lang.Added "X"; Lang.Added "Y"], Some []).
Proof. split; reflexivity. Qed.

(** ** The query parser *)

Section ParserFacts.
Variable registry : string -> string -> option string.

(** C4: conjunction binds tighter than disjunction, which binds tighter
    than implication, and implication associates to the right. *)
Theorem parser_precedence :
  QueryParser.parse registry "p,q;r"
  = QueryParser.Returns
      (QueryParser.Disjunction
         [QueryParser.Conjunction [nullary "p"; nullary "q"]; nullary "r"])
  /\ QueryParser.parse registry "p;q,r"
     = QueryParser.Returns
         (QueryParser.Disjunction
            [nullary "p"; QueryParser.Conjunction [nullary "q"; nullary "r"]])
  /\ QueryParser.parse registry "p->q->r"
     = QueryParser.Returns
         (QueryParser.Implication (nullary "p")
            (QueryParser.Implication (nullary "q") (nullary "r"))).
Proof. repeat split; vm_compute; reflexivity. Qed.

(** C5, at the failing inputs: an option list with an empty slot is not
    read by [options], whose list needs an option on both sides of a
    comma; the operand expected next is not there, and the query is
    refused as a whole. *)
Theorem empty_option_slot_is_refused :
  QueryParser.parse registry "P[,20] p(x)"
  = QueryParser.Throws (QueryParser.Invalid_syntax "P[,20] p(x)")
  /\ QueryParser.parse registry "P[10,] p(x)"
     = QueryParser.Throws (QueryParser.Invalid_syntax "P[10,] p(x)")
  /\ QueryParser.parse registry "H[,20] p(x)"
     = QueryParser.Throws (QueryParser.Invalid_syntax "H[,20] p(x)")
  /\ QueryParser.parse registry "P[,10.0] p(x)"
     = QueryParser.Throws (QueryParser.Invalid_syntax "P[,10.0] p(x)").
Proof. repeat split; vm_compute; reflexivity. Qed.

End ParserFacts.

(** ** More depth does not change a result *)

Lemma result_le_refl {A : Type} (r : QueryParser.Result A) : result_le r r.
Proof. right. reflexivity. Qed.

Lemma parser_le_refl {A : Type} (p : QueryParser.Parser A) : parser_le p p.
Proof. intros s. apply result_le_refl. Qed.

Lemma parser_le_trans {A : Type} (p q r : QueryParser.Parser A) :
  parser_le p q -> parser_le q r -> parser_le p r.
Proof.
  intros Hpq Hqr s. destruct (Hpq s) as [E|E]; [left; exact E|].
  rewrite E. apply Hqr.
Qed.

Lemma bind_le {A C : Type} (p p' : QueryParser.Parser A)
    (k k' : A -> QueryParser.Parser C) :
  parser_le p p' -> (forall a, parser_le (k a) (k' a)) ->
  parser_le (QueryParser.bind p k) (QueryParser.bind p' k').
Proof.
  intros Hp Hk s. unfold QueryParser.bind.
  destruct (Hp s) as [E|E]; rewrite E; [left; reflexivity|].
  destruct (p' s); try (right; reflexivity). apply Hk.
Qed.

Lemma alt_le {A : Type} (p p' q q' : QueryParser.Parser A) :
  parser_le p p' -> parser_le q q' ->
  parser_le (QueryParser.alt p q) (QueryParser.alt p' q').
Proof.
  intros Hp Hq s. unfold QueryParser.alt.
  destruct (Hp s) as [E|E]; rewrite E; [left; reflexivity|].
  destruct (p' s); try (right; reflexivity). apply Hq.
Qed.

Lemma skipped_le {A : Type} (p p' : QueryParser.Parser A) :
  parser_le p p' ->
  parser_le (QueryParser.skipped p) (QueryParser.skipped p').
Proof. intros Hp s. apply Hp. Qed.

Lemma list_more_le {A C : Type} (p p' : QueryParser.Parser A)
    (sep : QueryParser.Parser C) (fuel : nat) :
  parser_le p p' ->
  forall acc s,
    result_le (QueryParser.list_more fuel p sep acc s)
              (QueryParser.list_more fuel p' sep acc s).
Proof.
  intros Hp. induction fuel as [|fuel IH]; intros acc s.
  - left. reflexivity.
  - cbn [QueryParser.list_more].
    destruct (sep s) as [x r| | | |]; try (right; reflexivity).
    destruct (Hp r) as [E|E]; rewrite E; [left; reflexivity|].
    destruct (p' r); try (right; reflexivity). apply IH.
Qed.

Lemma list_of_le {A C : Type} (p p' : QueryParser.Parser A)
    (sep : QueryParser.Parser C) :
  parser_le p p' ->
  parser_le (QueryParser.list_of p sep) (QueryParser.list_of p' sep).
Proof.
  intros Hp s. unfold QueryParser.list_of.
  destruct (Hp s) as [E|E]; rewrite E; [left; reflexivity|].
  destruct (p' s); try (right; reflexivity). apply list_more_le, Hp.
Qed.

(** The combinators, taken apart down to the rules that differ. *)
Ltac monotone :=
  repeat match goal with
         | |- parser_le _ _ => assumption
         | |- parser_le ?p ?p => apply parser_le_refl
         | |- parser_le (QueryParser.bind _ _) (QueryParser.bind _ _) =>
             apply bind_le; [|intros ?]
         | |- parser_le (QueryParser.alt _ _) (QueryParser.alt _ _) =>
             apply alt_le
         | |- parser_le (QueryParser.skipped _) (QueryParser.skipped _) =>
             apply skipped_le
         | |- parser_le (QueryParser.list_of _ _) (QueryParser.list_of _ _) =>
             apply list_of_le
         | |- parser_le (match ?t with _ => _ end) _ => destruct t
         end.

Section Depth.
Variable registry : string -> string -> option string.

Lemma argument_le (n : nat) :
  parser_le (QueryParser.argument registry n)
            (QueryParser.argument registry (S n)).
Proof.
  induction n as [|n IH].
  - intros s. left. reflexivity.
  - change (QueryParser.argument registry (S (S n)))
      with (QueryParser.alt
              (QueryParser.alt
                 (QueryParser.alt
                    (QueryParser.compound_of registry
                       (QueryParser.argument registry (S n)))
                    QueryParser.variable)
                 (QueryParser.constant registry))
              (QueryParser.constantList registry)).
    change (QueryParser.argument registry (S n))
      with (QueryParser.alt
              (QueryParser.alt
                 (QueryParser.alt
                    (QueryParser.compound_of registry
                       (QueryParser.argument registry n))
                    QueryParser.variable)
                 (QueryParser.constant registry))
              (QueryParser.constantList registry)) at 1.
    unfold QueryParser.compound_of. monotone.
Qed.

Lemma predicate_le (n : nat) :
  parser_le (QueryParser.predicate registry n)
            (QueryParser.predicate registry (S n)).
Proof.
  pose proof (argument_le n) as Harg.
  unfold QueryParser.predicate, QueryParser.predicateWithArgs. monotone.
Qed.

Lemma rules_over_le (p p' : QueryParser.Parser Term)
    (r r' : QueryParser.ParserRules) :
  parser_le p p' -> rules_le r r' ->
  rules_le (QueryParser.rules_over registry p r)
           (QueryParser.rules_over registry p' r').
Proof.
  intros Hp (H1 & H2 & H3 & H4 & H5 & H6 & H7 & H8 & H9 & H10 & H11 & H12).
  unfold rules_le, QueryParser.rules_over.
  cbn [QueryParser.formula QueryParser.disjunction QueryParser.conjunction
       QueryParser.implication QueryParser.negation QueryParser.modalFormula
       QueryParser.belief QueryParser.knowledge QueryParser.oncePast
       QueryParser.alwaysPast QueryParser.brackets QueryParser.unary].
  unfold QueryParser.modal, QueryParser.as_formula.
  repeat split; monotone.
Qed.

Lemma bnf_le (n : nat) :
  rules_le (QueryParser.bnf registry n) (QueryParser.bnf registry (S n)).
Proof.
  induction n as [|n IH].
  - repeat split; intros s; left; reflexivity.
  - change (QueryParser.bnf registry (S (S n)))
      with (QueryParser.rules_over registry
              (QueryParser.predicate registry (S n))
              (QueryParser.bnf registry (S n))).
    change (QueryParser.bnf registry (S n))
      with (QueryParser.rules_over registry
              (QueryParser.predicate registry n)
              (QueryParser.bnf registry n)) at 1.
    apply rules_over_le; [apply predicate_le|exact IH].
Qed.

Lemma formula_le (n m : nat) :
  n <= m ->
  parser_le (QueryParser.formula (QueryParser.bnf registry n))
            (QueryParser.formula (QueryParser.bnf registry m)).
Proof.
  induction 1 as [|m Hle IH]; [apply parser_le_refl|].
  apply parser_le_trans with (1 := IH). apply bnf_le.
Qed.

(** The result of [parse] does not depend on the depth allowed, once the
    depth is enough for a result. *)
Theorem parse_at_any_greater_depth (queryString : string) (n : nat) :
  QueryParser.depth queryString <= n ->
  QueryParser.parse registry queryString <> QueryParser.Unfinished ->
  QueryParser.parse_ queryString
    (QueryParser.formula (QueryParser.bnf registry n))
  = QueryParser.parse registry queryString.
Proof.
  intros Hle Hfinished. unfold QueryParser.parse in *.
  unfold QueryParser.parse_ in *.
  destruct (formula_le Hle (list_ascii_of_string queryString)) as [E|E].
  - rewrite E in Hfinished. contradiction.
  - rewrite <- E. reflexivity.
Qed.

End Depth.

(** ** Options that a modal operator does not take *)

Import OptionSpec.

Lemma is_set_cons (p q : Slot) (assigned : list Slot) :
  is_set (p :: assigned) q = Slot_eqb q p || is_set assigned q.
Proof. reflexivity. Qed.










(** The options of the specification, at work. *)
Example judge_unknown_key :
  judge OpB [] (Predicate_of "=" [StringTerm "foo"; StringTerm "fred"])
  = Unknown_key.
Proof. reflexivity. Qed.

Example judge_type_mismatch :
  judge OpB [] (Predicate_of "=" [StringTerm "agent"; DoubleTerm S754_nan])
  = Type_mismatch
  /\ judge OpK [] (DoubleTerm S754_nan) = Type_mismatch
  /\ judge OpP [] (StringTerm "fred") = Type_mismatch.
Proof. repeat split; reflexivity. Qed.

Example judge_duplicate :
  judge OpB [confidence] (DoubleTerm S754_nan) = Duplicate_assignment
  /\ judge OpP [end_time; begin_time] (DoubleTerm S754_nan)
     = Duplicate_assignment
  /\ judge OpP [begin_time]
       (Predicate_of "=" [StringTerm "since"; DoubleTerm S754_nan])
     = Duplicate_assignment.
Proof. repeat split; reflexivity. Qed.

(** *** The two readings of a constant without a key *)

Lemma Slot_eqb_refl (p : Slot) : Slot_eqb p p = true.
Proof. destruct p; reflexivity. Qed.

Lemma is_set_more (p q : Slot) (assigned : list Slot) :
  is_set assigned q = true -> is_set (p :: assigned) q = true.
Proof. intros H. rewrite is_set_cons, H. apply orb_true_r. Qed.

Lemma is_set_head (p : Slot) (assigned : list Slot) :
  is_set (p :: assigned) p = true.
Proof. rewrite is_set_cons, Slot_eqb_refl. reflexivity. Qed.

Lemma positional_as_written_assigns (assigned slots : list Slot)
    (rank : nat) (p : Slot) :
  positional_as_written assigned slots rank = Assigns p ->
  List.nth_error slots rank = Some p.
Proof.
  unfold positional_as_written. destruct slots as [|a l]; [discriminate|].
  destruct (List.nth_error (a :: l) rank) as [q|]; [|discriminate].
  destruct (is_set assigned q); [discriminate|].
  intros H. injection H as ->. reflexivity.
Qed.

Lemma see_counted (op : Operator) (seen : Seen) (x : Term) (p : Slot) :
  counted op seen ->
  judge_as_written op seen x = Assigns p ->
  counted op (see seen x p).
Proof.
  intros [Hs Hf] Hj. split; intros k q Hq Hlt.
  - destruct x; cbn [see parameters strings_before] in *;
      try (apply is_set_more, (Hs k q Hq Hlt)).
    apply positional_as_written_assigns in Hj.
    destruct (Nat.eq_dec k (strings_before seen)) as [->|Hne].
    + rewrite Hq in Hj. injection Hj as ->. apply is_set_head.
    + apply is_set_more, (Hs k q Hq). lia.
  - destruct x; cbn [see parameters floats_before] in *;
      try (apply is_set_more, (Hf k q Hq Hlt)).
    apply positional_as_written_assigns in Hj.
    destruct (Nat.eq_dec k (floats_before seen)) as [->|Hne].
    + rewrite Hq in Hj. injection Hj as ->. apply is_set_head.
    + apply is_set_more, (Hf k q Hq). lia.
Qed.

Lemma seen_after_counted (op : Operator) (pre : list Term) :
  forall seen seen',
    counted op seen ->
    seen_after op seen pre = Some seen' ->
    counted op seen'.
Proof.
  induction pre as [|x rest IH]; intros seen seen' Hc Hafter.
  - injection Hafter as <-. exact Hc.
  - cbn [seen_after] in Hafter.
    destruct (judge_as_written op seen x) as [p| | | |] eqn:Hj;
      try discriminate Hafter.
    apply (IH _ _ (@see_counted op seen x p Hc Hj) Hafter).
Qed.

Lemma nothing_seen_counted (op : Operator) : counted op nothing_seen.
Proof. split; intros k p _ Hlt; cbn in Hlt; lia. Qed.

(** The reading of the code and the words of the specification give an
    option the same verdict, but for a float after [begin]. *)
Lemma judge_as_written_differs (op : Operator) (pre : list Term)
    (seen : Seen) (opt : Term) :
  seen_after op nothing_seen pre = Some seen ->
  judge_as_written op seen opt <> judge op (parameters seen) opt ->
  float_after_begin op seen opt
  /\ judge_as_written op seen opt = Duplicate_assignment
  /\ judge op (parameters seen) opt = Assigns end_time.
Proof.
  intros Hafter Hdiff.
  destruct (@seen_after_counted op pre nothing_seen seen
              (nothing_seen_counted op) Hafter) as [Hs Hf].
  unfold float_after_begin.
  destruct opt; try (exfalso; apply Hdiff; reflexivity);
    unfold judge_as_written, judge, positional_as_written, positional in *.
  - exfalso. apply Hdiff.
    destruct op; cbn [string_slots first_free List.nth_error] in *;
      try reflexivity;
      (destruct (strings_before seen) as [|k];
       [cbn; destruct (is_set (parameters seen) agent); reflexivity|];
       rewrite (Hs 0 agent eq_refl) by lia;
       destruct k; reflexivity).
  - destruct op; cbn [float_slots first_free List.nth_error] in *;
      try (exfalso; apply Hdiff; reflexivity).
    + exfalso. apply Hdiff.
      destruct (floats_before seen) as [|k];
        [cbn; destruct (is_set (parameters seen) confidence); reflexivity|].
      rewrite (Hf 0 confidence eq_refl) by lia. destruct k; reflexivity.
    + destruct (floats_before seen) as [|[|k]] eqn:Hk.
      * cbn [List.nth_error] in *.
        destruct (is_set (parameters seen) begin_time) eqn:Hb;
          [|exfalso; apply Hdiff; reflexivity].
        destruct (is_set (parameters seen) end_time) eqn:He;
          [exfalso; apply Hdiff; reflexivity|].
        repeat split; eauto.
      * exfalso. apply Hdiff. cbn [List.nth_error].
        rewrite (Hf 0 begin_time eq_refl) by lia.
        destruct (is_set (parameters seen) end_time); reflexivity.
      * exfalso. apply Hdiff.
        rewrite (Hf 0 begin_time eq_refl), (Hf 1 end_time eq_refl) by lia.
        destruct k; reflexivity.
    + destruct (floats_before seen) as [|[|k]] eqn:Hk.
      * cbn [List.nth_error] in *.
        destruct (is_set (parameters seen) begin_time) eqn:Hb;
          [|exfalso; apply Hdiff; reflexivity].
        destruct (is_set (parameters seen) end_time) eqn:He;
          [exfalso; apply Hdiff; reflexivity|].
        repeat split; eauto.
      * exfalso. apply Hdiff. cbn [List.nth_error].
        rewrite (Hf 0 begin_time eq_refl) by lia.
        destruct (is_set (parameters seen) end_time); reflexivity.
      * exfalso. apply Hdiff.
        rewrite (Hf 0 begin_time eq_refl), (Hf 1 end_time eq_refl) by lia.
        destruct k; reflexivity.
Qed.


(** The same through the parser, and for [H]. *)
Example parse_float_after_begin :
  judge_as_written OpP (mkSeen [begin_time] 0 0) float_10
  = Duplicate_assignment
  /\ QueryParser.parse owl_registry "P[begin=5,10] p(x)"
     = QueryParser.Returns
         (QueryParser.ModalFormula
            (QueryParser.P
               (Some (QueryParser.mkTimeInterval
                        (Some (QueryParser.double_of_Z 5))
                        (Some (QueryParser.double_of_Z 10)))))
            (QueryParser.PredicateFormula (mkIndicator "p" 1)
               [StringTerm "x"]))
  /\ QueryParser.parse owl_registry "H[since=5,10] p(x)"
     = QueryParser.Returns
         (QueryParser.ModalFormula
            (QueryParser.H
               (Some (QueryParser.mkTimeInterval
                        (Some (QueryParser.double_of_Z 5))
                        (Some (QueryParser.double_of_Z 10)))))
            (QueryParser.PredicateFormula (mkIndicator "p" 1)
               [StringTerm "x"])).
Proof. repeat split; vm_compute; reflexivity. Qed.

(** *** From the function that makes the operator to [parse] *)



Section Reported.
Variable registry : string -> string -> option string.








End Reported.



(** ** The parser on the inputs of its test suite *)

Example test_Numbers :
  QueryParser.parseConstant owl_registry "234"
  = QueryParser.Returns (DoubleTerm (QueryParser.double_of_Z 234))
  /\ QueryParser.parseConstant owl_registry "-45"
     = QueryParser.Returns (DoubleTerm (QueryParser.double_of_Z (-45)))
  /\ QueryParser.parseConstant owl_registry "-45.64"
     = QueryParser.Returns
         (DoubleTerm
            (SFdiv double_prec double_emax (QueryParser.double_of_Z (-4564))
               (QueryParser.double_of_Z 100))).
Proof. repeat split; vm_compute; reflexivity. Qed.

Example test_RawAtoms :
  QueryParser.parseRawAtom owl_registry "p_2" = QueryParser.Returns "p_2"
  /\ QueryParser.parseRawAtom owl_registry "'Foo'" = QueryParser.Returns "Foo"
  /\ QueryParser.parseRawAtom owl_registry "owl:Foo"
     = QueryParser.Returns "http://www.w3.org/2002/07/owl#Foo"
  /\ QueryParser.parseRawAtom owl_registry "owl:'Foo'"
     = QueryParser.Returns "http://www.w3.org/2002/07/owl#Foo"
  /\ QueryParser.parseRawAtom owl_registry "rdf:Foo"
     = QueryParser.Throws (QueryParser.Cannot_construct_IRI "Foo" "rdf").
Proof. repeat split; vm_compute; reflexivity. Qed.

Example test_InvalidConstant :
  QueryParser.parseConstant owl_registry "X1"
  = QueryParser.Throws (QueryParser.Invalid_syntax "X1")
  /\ QueryParser.parseConstant owl_registry "p(x)"
     = QueryParser.Throws (QueryParser.Invalid_syntax "p(x)")
  /\ QueryParser.parseConstant owl_registry "p,q"
     = QueryParser.Throws (QueryParser.Invalid_syntax "p,q").
Proof. repeat split; vm_compute; reflexivity. Qed.

Example test_Predicates :
  QueryParser.parsePredicate owl_registry "p(X,a)"
  = QueryParser.Returns (Predicate_of "p" [Variable_ "X"; StringTerm "a"])
  /\ QueryParser.parsePredicate owl_registry "q  (   3   ,    'x'   )"
     = QueryParser.Returns
         (Predicate_of "q"
            [DoubleTerm (QueryParser.double_of_Z 3); StringTerm "x"])
  /\ QueryParser.parsePredicate owl_registry "nullary"
     = QueryParser.Returns (Predicate_of "nullary" [])
  /\ QueryParser.parsePredicate owl_registry "p(X,'<'(a))"
     = QueryParser.Returns
         (Predicate_of "p"
            [Variable_ "X"; Predicate_of "<" [StringTerm "a"]])
  /\ QueryParser.parsePredicate owl_registry "p(X,[a,b])"
     = QueryParser.Returns
         (Predicate_of "p"
            [Variable_ "X"; ListTerm [StringTerm "a"; StringTerm "b"]])
  /\ QueryParser.parsePredicate owl_registry "p,q"
     = QueryParser.Throws (QueryParser.Invalid_syntax "p,q").
Proof. repeat split; vm_compute; reflexivity. Qed.

Example test_Conjunctions :
  QueryParser.parse owl_registry "  p,   q  &  r  "
  = QueryParser.Returns
      (QueryParser.Conjunction
         [QueryParser.PredicateFormula (mkIndicator "p" 0) [];
          QueryParser.PredicateFormula (mkIndicator "q" 0) [];
          QueryParser.PredicateFormula (mkIndicator "r" 0) []])
  /\ QueryParser.parse owl_registry "(p|q)&r"
     = QueryParser.Returns
         (QueryParser.Conjunction
            [QueryParser.Disjunction
               [QueryParser.PredicateFormula (mkIndicator "p" 0) [];
                QueryParser.PredicateFormula (mkIndicator "q" 0) []];
             QueryParser.PredicateFormula (mkIndicator "r" 0) []]).
Proof. repeat split; vm_compute; reflexivity. Qed.

Example test_ModalFormulas :
  QueryParser.parse owl_registry "Kq(a)"
  = QueryParser.Returns
      (QueryParser.ModalFormula (QueryParser.K None)
         (QueryParser.PredicateFormula (mkIndicator "q" 1) [StringTerm "a"]))
  /\ QueryParser.parse owl_registry "B (b,q)"
     = QueryParser.Returns
         (QueryParser.ModalFormula (QueryParser.B None None)
            (QueryParser.Conjunction
               [QueryParser.PredicateFormula (mkIndicator "b" 0) [];
                QueryParser.PredicateFormula (mkIndicator "q" 0) []])).
Proof. repeat split; vm_compute; reflexivity. Qed.

Example test_ModalityWithArguments :
  QueryParser.parse owl_registry "B[fred,confidence=0.8] p(x)"
  = QueryParser.Returns
      (QueryParser.ModalFormula
         (QueryParser.B (Some "fred")
            (Some (SFdiv double_prec double_emax
                     (QueryParser.double_of_Z 8)
                     (QueryParser.double_of_Z 10))))
         (QueryParser.PredicateFormula (mkIndicator "p" 1) [StringTerm "x"]))
  /\ QueryParser.parse owl_registry "B['self'] p(x)"
     = QueryParser.Returns
         (QueryParser.ModalFormula (QueryParser.B None None)
            (QueryParser.PredicateFormula (mkIndicator "p" 1) [StringTerm "x"]))
  /\ QueryParser.parse owl_registry "P[until=20] p(x)"
     = QueryParser.Returns
         (QueryParser.ModalFormula
            (QueryParser.P
               (Some (QueryParser.mkTimeInterval None
                        (Some (QueryParser.double_of_Z 20)))))
            (QueryParser.PredicateFormula (mkIndicator "p" 1) [StringTerm "x"]))
  /\ QueryParser.parse owl_registry "P[10,20] p(x)"
     = QueryParser.Returns
         (QueryParser.ModalFormula
            (QueryParser.P
               (Some (QueryParser.mkTimeInterval
                        (Some (QueryParser.double_of_Z 10))
                        (Some (QueryParser.double_of_Z 20)))))
            (QueryParser.PredicateFormula (mkIndicator "p" 1) [StringTerm "x"])).
Proof. repeat split; vm_compute; reflexivity. Qed.

Example test_ModalityWithWrongArguments :
  QueryParser.parse owl_registry "B[0.8,0.8] p(x)"
  = QueryParser.Throws
      (QueryParser.Unrecognized_option
         (DoubleTerm (SFdiv double_prec double_emax
                        (QueryParser.double_of_Z 8)
                        (QueryParser.double_of_Z 10)))).
Proof. vm_compute; reflexivity. Qed.

Example test_Precedence :
  QueryParser.parse owl_registry "p,q->r;p"
  = QueryParser.Returns
      (QueryParser.Implication
         (QueryParser.Conjunction
            [QueryParser.PredicateFormula (mkIndicator "p" 0) [];
             QueryParser.PredicateFormula (mkIndicator "q" 0) []])
         (QueryParser.Disjunction
            [QueryParser.PredicateFormula (mkIndicator "r" 0) [];
             QueryParser.PredicateFormula (mkIndicator "p" 0) []]))
  /\ QueryParser.parse owl_registry "Bp->~p"
     = QueryParser.Returns
         (QueryParser.Implication
            (QueryParser.ModalFormula (QueryParser.B None None)
               (QueryParser.PredicateFormula (mkIndicator "p" 0) []))
            (QueryParser.Negation
               (QueryParser.PredicateFormula (mkIndicator "p" 0) []))).
Proof. repeat split; vm_compute; reflexivity. Qed.

(** ** [ReasonerManager::loadReasoner] *)

Section LoadReasoner.
Variable IReasoner : Type.
Variable loadConfiguration : IReasoner -> Reasoner.ReasonerConfiguration -> bool.
Variable dlopen : string -> option (Reasoner.SharedObject IReasoner).

(** Looking for the factory leaves the pool and the index alone. *)
Lemma loadReasoner_factory_keeps_pool
    (this this1 : Reasoner.ReasonerManager IReasoner)
    (log log1 : Reasoner.Log) (config : Reasoner.ptree)
    (found : option (Reasoner.ReasonerFactory IReasoner)) :
  Reasoner.loadReasoner_factory dlopen this log config = (this1, log1, found) ->
  Reasoner.reasonerPool_ this1 = Reasoner.reasonerPool_ this
  /\ Reasoner.reasonerIndex_ this1 = Reasoner.reasonerIndex_ this.
Proof.
  unfold Reasoner.loadReasoner_factory, Reasoner.loadReasonerPlugin.
  destruct (Reasoner.get_optional config "lib") as [lib|].
  - destruct (StdMap.find (Reasoner.loadedPlugins_ this) lib) as [p|].
    + destruct (Reasoner.isLoaded p); cbv beta iota zeta; intros H;
        injection H as <- _ _; split; reflexivity.
    + destruct (Reasoner.loadDLL dlopen (Reasoner.ReasonerPlugin_new IReasoner lib))
        as [p [|]]; cbv beta iota zeta; intros H; injection H as <- _ _;
        split; reflexivity.
  - destruct (Reasoner.get_optional config "type") as [ty|].
    + destruct (StdMap.find (Reasoner.reasonerFactories_ this) ty);
        intros H; injection H as <- _ _; split; reflexivity.
    + intros H; injection H as <- _ _; split; reflexivity.
Qed.

End LoadReasoner.

(** C8: with a factory found and an instance created, [loadReasoner]
    returns; the instance is added at the end of the pool when its
    [loadConfiguration] answers [true], and when it answers [false] the pool
    is as before and the last thing logged is the warning; the index is
    one more than before in both cases. *)
Theorem loadReasoner_adds_on_success_and_counts
    (IReasoner : Type)
    (loadConfiguration : IReasoner -> Reasoner.ReasonerConfiguration -> bool)
    (dlopen : string -> option (Reasoner.SharedObject IReasoner))
    (this this1 : Reasoner.ReasonerManager IReasoner)
    (log log1 : Reasoner.Log) (config : Reasoner.ptree)
    (factory : Reasoner.ReasonerFactory IReasoner)
    (factoryName reasonerID : string) (reasoner : IReasoner) :
  Reasoner.loadReasoner_factory dlopen this log config
  = (this1, log1, Some factory) ->
  Reasoner.factory_name factory = Some factoryName ->
  reasonerID
  = match Reasoner.get_optional config "name" with
    | Some name => name
    | None => factoryName ++ Reasoner.to_string (Reasoner.reasonerIndex_ this1)
    end ->
  Reasoner.createReasoner factory reasonerID = Some reasoner ->
  exists (this' : Reasoner.ReasonerManager IReasoner) (log' log2 : Reasoner.Log)
         (reasonerConfig : Reasoner.ReasonerConfiguration),
    Reasoner.loadReasoner loadConfiguration dlopen this log config
    = Reasoner.Returns (this', log')
    /\ (reasonerConfig, log2)
       = Reasoner.loadPropertyTree config
           (Reasoner.mkConfiguration [] [],
            (log1 ++ [Reasoner.INFO ("Using reasoner `" ++ reasonerID
                                     ++ "` with type `" ++ factoryName
                                     ++ "`.")])%list)
    /\ Reasoner.reasonerIndex_ this' = (Reasoner.reasonerIndex_ this + 1)%N
    /\ (loadConfiguration reasoner reasonerConfig = false ->
        Reasoner.reasonerPool_ this' = Reasoner.reasonerPool_ this
        /\ log' = (log2 ++ [Reasoner.WARN
                              ("Reasoner `" ++ reasonerID
                               ++ "` failed to loadConfiguration.")])%list)
    /\ (loadConfiguration reasoner reasonerConfig = true ->
        Reasoner.reasonerPool_ this'
        = (Reasoner.reasonerPool_ this ++ [reasoner])%list
        /\ log' = log2).
Proof.
  intros Hfactory Hname HID Hcreate.
  destruct (loadReasoner_factory_keeps_pool _ _ _ _ Hfactory) as [Hpool Hindex].
  unfold Reasoner.loadReasoner. rewrite Hfactory.
  unfold Reasoner.loadReasoner_with. rewrite Hname, <- HID, Hcreate.
  destruct (Reasoner.loadPropertyTree config
              (Reasoner.mkConfiguration [] [],
               (log1 ++ [Reasoner.INFO ("Using reasoner `" ++ reasonerID
                                        ++ "` with type `" ++ factoryName
                                        ++ "`.")])%list))
    as [reasonerConfig log2] eqn:Hcfg.
  destruct (loadConfiguration reasoner reasonerConfig) eqn:Hload; simpl.
  - eexists _, _, log2, reasonerConfig.
    split; [reflexivity|]. split; [reflexivity|]. simpl.
    split; [rewrite Hindex; reflexivity|].
    split; [intros H; rewrite Hload in H; discriminate H|].
    intros _. rewrite Hpool. split; reflexivity.
  - eexists _, _, log2, reasonerConfig.
    split; [reflexivity|]. split; [reflexivity|]. simpl.
    split; [rewrite Hindex; reflexivity|].
    split; [|intros H; rewrite Hload in H; discriminate H].
    intros _. rewrite Hpool. split; reflexivity.
Qed.

Example loadReasoner_refused :
  Reasoner.loadReasoner accepts_no_settings no_shared_object
    manager_with_Prolog [] config_Prolog
  = Reasoner.Returns
      (Reasoner.mkManager
         (Reasoner.reasonerFactories_ manager_with_Prolog) [] [] 1%N,
       [Reasoner.INFO "Using reasoner `Prolog0` with type `Prolog`.";
        Reasoner.WARN "Reasoner `Prolog0` failed to loadConfiguration."]).
Proof. reflexivity. Qed.

Example loadReasoner_without_factory :
  Reasoner.loadReasoner accepts_no_settings no_shared_object
    manager_with_Prolog [] (Reasoner.PTree EmptyString [])
  = Reasoner.Throws (Reasoner.ReasonerError_ "failed to load a reasoner.").
Proof. reflexivity. Qed.

Lemma loadReasoner_adds_on_success_and_counts_witness :
  exists (this' : Reasoner.ReasonerManager string) (log' log2 : Reasoner.Log)
         (reasonerConfig : Reasoner.ReasonerConfiguration),
    Reasoner.loadReasoner accepts_no_settings no_shared_object
      manager_with_Prolog [] config_Prolog
    = Reasoner.Returns (this', log')
    /\ (reasonerConfig, log2)
       = Reasoner.loadPropertyTree config_Prolog
           (Reasoner.mkConfiguration [] [],
            ([] ++ [Reasoner.INFO ("Using reasoner `" ++ "Prolog0"
                                   ++ "` with type `" ++ "Prolog"
                                   ++ "`.")])%list)
    /\ Reasoner.reasonerIndex_ this'
       = (Reasoner.reasonerIndex_ manager_with_Prolog + 1)%N
    /\ (accepts_no_settings "Prolog0" reasonerConfig = false ->
        Reasoner.reasonerPool_ this'
        = Reasoner.reasonerPool_ manager_with_Prolog
        /\ log' = (log2 ++ [Reasoner.WARN
                              ("Reasoner `" ++ "Prolog0"
                               ++ "` failed to loadConfiguration.")])%list)
    /\ (accepts_no_settings "Prolog0" reasonerConfig = true ->
        Reasoner.reasonerPool_ this'
        = (Reasoner.reasonerPool_ manager_with_Prolog ++ ["Prolog0"])%list
        /\ log' = log2).
Proof.
  apply (@loadReasoner_adds_on_success_and_counts
           string accepts_no_settings no_shared_object
           manager_with_Prolog manager_with_Prolog [] [] config_Prolog
           (Reasoner.TypedReasonerFactory "Prolog" (fun reasonerID => reasonerID))
           "Prolog" "Prolog0" "Prolog0");
    reflexivity.
Defined.

(** * Further properties *)

(** ** Substitutions of [src/lang/terms.cpp] *)

(** Induction on terms, with the arguments of a predicate and the elements
    of a list as smaller terms. *)
Lemma Term_nested_ind (Q : Term -> Prop) :
  (forall x, Q (Variable_ x)) ->
  (forall ind args, Forall Q args -> Q (Predicate ind args)) ->
  (forall v, Q (StringTerm v)) ->
  (forall v, Q (DoubleTerm v)) ->
  (forall v, Q (Integer32Term v)) ->
  (forall v, Q (LongTerm v)) ->
  (forall elems, Forall Q elems -> Q (ListTerm elems)) ->
  Q TopTerm -> Q BottomTerm ->
  forall t, Q t.
Proof.
  intros HV HP HS HD HI HL HLi HT HB.
  fix IH 1. intros [x|ind args|v|v|v|v|elems| |].
  - apply HV.
  - apply HP. induction args as [|a r IHr]; constructor; [apply IH|exact IHr].
  - apply HS.
  - apply HD.
  - apply HI.
  - apply HL.
  - apply HLi. induction elems as [|a r IHr]; constructor; [apply IH|exact IHr].
  - apply HT.
  - apply HB.
Qed.

Lemma Lang_find_set (m : Lang.Mapping) (x y : string) (t : TermPtr) :
  StdMap.find (Lang.set m x t) y
  = if String.eqb y x then Some t else StdMap.find m y.
Proof.
  unfold Lang.set, StdMap.subscript_assign.
  destruct (StdMap.find m x) eqn:E.
  - rewrite find_assign, E. reflexivity.
  - apply find_place. exact E.
Qed.

Lemma Lang_ordered_set (m : Lang.Mapping) (x : string) (t : TermPtr) :
  StdMap.ordered m = true -> StdMap.ordered (Lang.set m x t) = true.
Proof.
  intros Hord. unfold Lang.set, StdMap.subscript_assign.
  destruct (StdMap.find m x) eqn:E.
  - apply ordered_assign, Hord.
  - apply ordered_place; assumption.
Qed.

(** X1: [set] then [get] gives the term that was set, whatever was bound
    before; the other variables keep what they had, and the map stays in
    key order. *)
Theorem Lang_set_then_get (m : Lang.Mapping) (x y : string) (t : TermPtr) :
  Lang.get (Lang.set m x t) x = t
  /\ (y <> x -> Lang.get (Lang.set m x t) y = Lang.get m y
               /\ Lang.contains (Lang.set m x t) y = Lang.contains m y)
  /\ Lang.contains (Lang.set m x t) x = true
  /\ (StdMap.ordered m = true -> StdMap.ordered (Lang.set m x t) = true).
Proof.
  unfold Lang.get, Lang.contains. repeat split.
  - rewrite Lang_find_set, String.eqb_refl. reflexivity.
  - rewrite Lang_find_set. destruct (String.eqb_spec y x); [contradiction|].
    reflexivity.
  - rewrite Lang_find_set. destruct (String.eqb_spec y x); [contradiction|].
    reflexivity.
  - rewrite Lang_find_set, String.eqb_refl. reflexivity.
  - apply Lang_ordered_set.
Qed.

(** X2: after [erase] the variable is not contained and [get] gives the
    null pointer; the other variables keep what they had. *)
Theorem Lang_erase_then_get (m : Lang.Mapping) (x y : string) :
  StdMap.ordered m = true ->
  Lang.contains (Lang.erase m x) x = false
  /\ Lang.get (Lang.erase m x) x = None
  /\ (y <> x -> Lang.get (Lang.erase m x) y = Lang.get m y)
  /\ StdMap.ordered (Lang.erase m x) = true.
Proof.
  intros Hord. unfold Lang.get, Lang.contains, Lang.erase. repeat split.
  - rewrite find_erase by exact Hord. rewrite String.eqb_refl. reflexivity.
  - rewrite find_erase by exact Hord. rewrite String.eqb_refl. reflexivity.
  - intros Hne. rewrite find_erase by exact Hord.
    destruct (String.eqb_spec y x); [contradiction|reflexivity].
  - apply ordered_erase, Hord.
Qed.

Lemma Lang_erase_then_get_witness :
  let m := [("X", Some (StringTerm "a")); ("Y", Some (StringTerm "b"))] in
  Lang.contains (Lang.erase m "X") "X" = false
  /\ Lang.get (Lang.erase m "X") "X" = None
  /\ ("Y" <> "X" -> Lang.get (Lang.erase m "X") "Y" = Lang.get m "Y")
  /\ StdMap.ordered (Lang.erase m "X") = true.
Proof.
  apply (@Lang_erase_then_get
           [("X", Some (StringTerm "a")); ("Y", Some (StringTerm "b"))]
           "X" "Y").
  reflexivity.
Defined.

(** ** Applying a substitution *)

Lemma applySubstitution_arg_ground (sub : Lang.Mapping) (t : Term) :
  isGround t = true -> Lang.applySubstitution_arg sub t = t.
Proof.
  destruct t; cbn [Lang.applySubstitution_arg]; intros Hg;
    try reflexivity.
  - discriminate Hg.
  - rewrite Hg. reflexivity.
Qed.

Lemma map_applySubstitution_ground (sub : Lang.Mapping) (args : list Term) :
  forallb isGround args = true ->
  List.map (Lang.applySubstitution_arg sub) args = args.
Proof.
  induction args as [|a r IH]; cbn; [reflexivity|].
  intros H. apply andb_true_iff in H. destruct H as [Ha Hr].
  rewrite (applySubstitution_arg_ground sub a Ha), (IH Hr). reflexivity.
Qed.

(** X3: a ground term is left as it is by every substitution, also a
    ground predicate on which [applySubstitution(sub)] is called directly;
    and the empty substitution leaves every term as it is. *)
Theorem applySubstitution_fixes_ground_terms
    (sub : Lang.Mapping) (t : Term)
    (ind : PredicateIndicator) (args : list Term) :
  (isGround t = true -> Lang.applySubstitution_arg sub t = t)
  /\ (isGround (Predicate ind args) = true ->
      Lang.Predicate_applySubstitution ind args sub = Predicate ind args)
  /\ Lang.applySubstitution_arg [] t = t.
Proof.
  split; [apply applySubstitution_arg_ground|]. split.
  - intros Hg. unfold Lang.Predicate_applySubstitution,
      Lang.applySubstitution_args.
    rewrite map_applySubstitution_ground; [reflexivity|exact Hg].
  - induction t as [x|i a IH| | | | |e IH| |] using Term_nested_ind;
      cbn [Lang.applySubstitution_arg]; try reflexivity.
    destruct (isGround (Predicate i a)); [reflexivity|].
    f_equal. induction IH as [|y r Hy Hr IHr]; [reflexivity|].
    cbn. rewrite Hy, IHr. reflexivity.
Qed.

Lemma applySubstitution_arg_idempotent (sub : Lang.Mapping) :
  ground_range sub ->
  forall t,
    Lang.applySubstitution_arg sub (Lang.applySubstitution_arg sub t)
    = Lang.applySubstitution_arg sub t.
Proof.
  intros Hrange t.
  induction t as [x|i a IH| | | | |e IH| |] using Term_nested_ind;
    try reflexivity.
  - cbn [Lang.applySubstitution_arg].
    destruct (Lang.get sub x) as [t'|] eqn:E.
    + apply applySubstitution_arg_ground. apply (Hrange x t' E).
    + cbn [Lang.applySubstitution_arg]. rewrite E. reflexivity.
  - cbn [Lang.applySubstitution_arg].
    destruct (isGround (Predicate i a)) eqn:Hg.
    + cbn [Lang.applySubstitution_arg]. rewrite Hg. reflexivity.
    + remember (List.map (Lang.applySubstitution_arg sub) a) as a' eqn:Ea.
      cbn [Lang.applySubstitution_arg].
      destruct (isGround (Predicate i a')); [reflexivity|].
      f_equal. subst a'. clear Hg.
      induction IH as [|y r Hy Hr IHr]; [reflexivity|].
      cbn. rewrite Hy, IHr. reflexivity.
Qed.

Lemma applySubstitution_arg_closed (sub : Lang.Mapping) :
  ground_range sub ->
  forall t,
    closed_by sub t = true ->
    isGround (Lang.applySubstitution_arg sub t) = true.
Proof.
  intros Hrange t.
  induction t as [x|i a IH| | | | |e IH| |] using Term_nested_ind;
    cbn [closed_by Lang.applySubstitution_arg]; intros Hc;
    try reflexivity.
  - destruct (Lang.get sub x) as [t'|] eqn:E; [|discriminate Hc].
    apply (Hrange x t' E).
  - destruct (isGround (Predicate i a)) eqn:Hg; [exact Hg|].
    clear Hg. cbn [isGround].
    induction IH as [|y r Hy Hr IHr]; [reflexivity|].
    cbn in Hc |- *. apply andb_true_iff in Hc. destruct Hc as [Hy' Hr'].
    rewrite (Hy Hy'), (IHr Hr'). reflexivity.
  - exact Hc.
Qed.

(** X4: with a substitution that binds ground terms only, applying it a
    second time changes nothing, and the result is ground when every
    variable of the term is bound. *)
Theorem applySubstitution_with_ground_terms
    (sub : Lang.Mapping) (t : Term) :
  ground_range sub ->
  Lang.applySubstitution_arg sub (Lang.applySubstitution_arg sub t)
  = Lang.applySubstitution_arg sub t
  /\ (closed_by sub t = true ->
      isGround (Lang.applySubstitution_arg sub t) = true).
Proof.
  intros Hrange. split.
  - apply applySubstitution_arg_idempotent, Hrange.
  - apply applySubstitution_arg_closed, Hrange.
Qed.

Lemma applySubstitution_with_ground_terms_witness :
  let sub := [("X", Some (StringTerm "b"))] in
  let t := Predicate_of "f" [Variable_ "X"; Variable_ "Y"] in
  Lang.applySubstitution_arg sub (Lang.applySubstitution_arg sub t)
  = Lang.applySubstitution_arg sub t
  /\ (closed_by sub t = true ->
      isGround (Lang.applySubstitution_arg sub t) = true).
Proof.
  apply (@applySubstitution_with_ground_terms
           [("X", Some (StringTerm "b"))]
           (Predicate_of "f" [Variable_ "X"; Variable_ "Y"])).
  intros x t. unfold Lang.get. cbn [StdMap.find].
  destruct (String.eqb x "X"); intros H; [|discriminate H].
  injection H as <-. reflexivity.
Defined.

(** Without the condition the second application goes on: [X] is bound to
    [f(Y)] and [Y] to [a]. *)
Example applySubstitution_twice :
  let sub := [("X", Some (Predicate_of "f" [Variable_ "Y"]));
              ("Y", Some (StringTerm "a"))] in
  Lang.applySubstitution_arg sub (Variable_ "X")
  = Predicate_of "f" [Variable_ "Y"]
  /\ Lang.applySubstitution_arg sub (Predicate_of "f" [Variable_ "Y"])
     = Predicate_of "f" [StringTerm "a"].
Proof. split; reflexivity. Qed.

(** ** [Unifier::unify] *)

(** Two predicates: the test of functor and arity compares [p0] with
    itself, and what is left is the loop over the arguments. *)
Lemma unify_Predicate (p0 p1 : PredicateIndicator) (a0 a1 : list Term)
    (m : Lang.Mapping) :
  Lang.unify (Predicate p0 a0) (Predicate p1 a1) m
  = unify_args a0 (arity p0) a1 m.
Proof.
  cbn [Lang.unify]. rewrite String.eqb_refl, Nat.eqb_refl. cbn [negb orb].
  reflexivity.
Qed.

(** Whatever [set] keeps, [unify] keeps. *)
Lemma unify_keeps (R : Lang.Mapping -> Lang.Mapping -> Prop) :
  (forall m, R m m) ->
  (forall m1 m2 m3, R m1 m2 -> R m2 m3 -> R m1 m3) ->
  (forall m x t, R m (Lang.set m x (Some t))) ->
  forall t0 t1 m b m',
    Lang.unify t0 t1 m = Some (b, m') -> R m m'.
Proof.
  intros Hrefl Htrans Hset t0.
  induction t0 as [x|i a IH| | | | |e IH| |] using Term_nested_ind;
    intros t1 m b m';
    try (destruct t1; cbn [Lang.unify]; intros H; injection H as _ <-;
         solve [apply Hrefl | apply Hset]).
  destruct t1 as [x1|p1 a1| | | | | | |];
    try (cbn [Lang.unify]; intros H; injection H as _ <-;
         solve [apply Hrefl | apply Hset]).
  rewrite unify_Predicate. generalize (arity i) as n.
  revert a1 m. induction IH as [|x0 r0 Hx0 Hr0 IHr]; intros a1 m [|n];
    cbn [unify_args]; intros H; try discriminate H.
  - injection H as _ <-. apply Hrefl.
  - injection H as _ <-. apply Hrefl.
  - destruct a1 as [|x1 r1]; [discriminate H|].
    destruct (Lang.unify x0 x1 m) as [[[|] m1]|] eqn:E; [| |discriminate H].
    + apply (Htrans m m1 m'); [apply (Hx0 x1 m true m1 E)|].
      apply (IHr r1 m1 n H).
    + injection H as _ <-. apply (Hx0 x1 m false m1 E).
Qed.

(** X5: [unify] only ever calls [set]: whatever the answer, the map stays
    in key order and a variable that was bound before is bound
    afterwards, to a term that is not the null pointer if none was. *)
Theorem unify_only_adds_bindings
    (t0 t1 : Term) (m m' : Lang.Mapping) (b : bool) :
  Lang.unify t0 t1 m = Some (b, m') ->
  (StdMap.ordered m = true -> StdMap.ordered m' = true)
  /\ (forall x, Lang.contains m x = true -> Lang.contains m' x = true)
  /\ ((forall x, Lang.contains m x = true -> Lang.get m x <> None) ->
      forall x, Lang.contains m' x = true -> Lang.get m' x <> None).
Proof.
  apply (@unify_keeps (fun m m' =>
    (StdMap.ordered m = true -> StdMap.ordered m' = true)
    /\ (forall x, Lang.contains m x = true -> Lang.contains m' x = true)
    /\ ((forall x, Lang.contains m x = true -> Lang.get m x <> None) ->
        forall x, Lang.contains m' x = true -> Lang.get m' x <> None))).
  - intros m0. split; [auto|]. split; auto.
  - intros m1 m2 m3 (Ho1 & Hc1 & Hn1) (Ho2 & Hc2 & Hn2).
    split; [auto|]. split; auto.
  - intros m0 x t. split; [apply Lang_ordered_set|].
    unfold Lang.contains, Lang.get. split.
    + intros y. rewrite Lang_find_set. destruct (String.eqb y x); auto.
    + intros Hn y. rewrite Lang_find_set.
      destruct (String.eqb y x); [discriminate|]. apply Hn.
Qed.

Lemma unify_only_adds_bindings_witness :
  let t0 := Predicate_of "f" [Variable_ "X"; StringTerm "a"] in
  let t1 := Predicate_of "f" [StringTerm "b"; StringTerm "c"] in
  let m := [("W", Some TopTerm)] in
  let m' := [("W", Some TopTerm); ("X", Some (StringTerm "b"))] in
  (StdMap.ordered m = true -> StdMap.ordered m' = true)
  /\ (forall x, Lang.contains m x = true -> Lang.contains m' x = true)
  /\ ((forall x, Lang.contains m x = true -> Lang.get m x <> None) ->
      forall x, Lang.contains m' x = true -> Lang.get m' x <> None).
Proof.
  apply (@unify_only_adds_bindings
           (Predicate_of "f" [Variable_ "X"; StringTerm "a"])
           (Predicate_of "f" [StringTerm "b"; StringTerm "c"])
           [("W", Some TopTerm)]
           [("W", Some TopTerm); ("X", Some (StringTerm "b"))] false).
  reflexivity.
Defined.

Lemma unify_ground (t0 : Term) :
  forall t1 m b m',
    isGround t0 = true -> isGround t1 = true ->
    Lang.unify t0 t1 m = Some (b, m') -> m' = m.
Proof.
  induction t0 as [x|i a IH| | | | |e IH| |] using Term_nested_ind;
    intros t1 m b m' Hg0 Hg1;
    try (destruct t1; try discriminate Hg1; cbn [Lang.unify];
         intros H; injection H as _ <-; reflexivity).
  - discriminate Hg0.
  - destruct t1 as [x1|p1 a1| | | | | | |]; try discriminate Hg1;
      try (cbn [Lang.unify]; intros H; injection H as _ <-; reflexivity).
    rewrite unify_Predicate. generalize (arity i) as n.
    cbn [isGround] in Hg0, Hg1. revert a1 m Hg1.
    induction IH as [|x0 r0 Hx0 Hr0 IHr]; intros a1 m Hg1 [|n];
      cbn [unify_args]; intros H; try discriminate H;
      try (injection H as _ <-; reflexivity).
    destruct a1 as [|x1 r1]; [discriminate H|].
    cbn [forallb] in Hg0, Hg1.
    apply andb_true_iff in Hg0. destruct Hg0 as [Hgx0 Hgr0].
    apply andb_true_iff in Hg1. destruct Hg1 as [Hgx1 Hgr1].
    destruct (Lang.unify x0 x1 m) as [[[|] m1]|] eqn:E; [| |discriminate H].
    + rewrite (Hx0 x1 m true m1 Hgx0 Hgx1 E) in H.
      apply (IHr Hgr0 r1 m Hgr1 n H).
    + injection H as _ <-. apply (Hx0 x1 m false m1 Hgx0 Hgx1 E).
Qed.

(** X6: the unifier of two ground terms binds nothing, and where it
    exists [apply()] returns the first term. *)
Theorem unifier_of_ground_terms_is_empty
    (t0 t1 : Term) (sigma : Lang.Unifier) :
  isGround t0 = true -> isGround t1 = true ->
  Lang.Unifier_new t0 t1 = Some sigma ->
  Lang.mapping_ sigma = []
  /\ (Lang.exists_ sigma = true -> Lang.Unifier_apply sigma = Some t0).
Proof.
  intros Hg0 Hg1. unfold Lang.Unifier_new.
  destruct (Lang.unify t0 t1 []) as [[b m]|] eqn:E; [|discriminate].
  intros H. injection H as <-. cbn.
  rewrite (@unify_ground t0 t1 [] b m Hg0 Hg1 E).
  split; [reflexivity|]. intros ->. reflexivity.
Qed.

Lemma unifier_of_ground_terms_is_empty_witness :
  let t0 := Predicate_of "f" [StringTerm "a"; LongTerm 3] in
  let t1 := Predicate_of "f" [StringTerm "a"; LongTerm 3] in
  let sigma := Lang.mkUnifier t0 t1 [] true in
  Lang.mapping_ sigma = []
  /\ (Lang.exists_ sigma = true -> Lang.Unifier_apply sigma = Some t0).
Proof.
  apply (@unifier_of_ground_terms_is_empty
           (Predicate_of "f" [StringTerm "a"; LongTerm 3])
           (Predicate_of "f" [StringTerm "a"; LongTerm 3])
           (Lang.mkUnifier
              (Predicate_of "f" [StringTerm "a"; LongTerm 3])
              (Predicate_of "f" [StringTerm "a"; LongTerm 3]) [] true));
    reflexivity.
Defined.

(** X30: a variable unifies with every term.  The unifier of a term and
    a variable, in either order, exists and binds the variable to the
    term and nothing else, and [apply()] returns the term. *)
Theorem unifier_of_a_variable (x : string) (t : Term) :
  (exists sigma,
     Lang.Unifier_new t (Variable_ x) = Some sigma
     /\ Lang.exists_ sigma = true
     /\ Lang.mapping_ sigma = [(x, Some t)]
     /\ Lang.Unifier_apply sigma = Some t)
  /\ (type t <> VARIABLE ->
      exists sigma,
        Lang.Unifier_new (Variable_ x) t = Some sigma
        /\ Lang.exists_ sigma = true
        /\ Lang.mapping_ sigma = [(x, Some t)]
        /\ Lang.Unifier_apply sigma = Some t).
Proof.
  split.
  - eexists. split; [destruct t; reflexivity|].
    split; [reflexivity|]. split; [reflexivity|].
    unfold Lang.Unifier_apply. cbn. rewrite orb_true_r. reflexivity.
  - intros Hv. destruct t; try (exfalso; apply Hv; reflexivity);
      (eexists; split; [reflexivity|]; split; [reflexivity|];
       split; [reflexivity|]);
      unfold Lang.Unifier_apply; cbn; rewrite ?orb_true_r; reflexivity.
Qed.

(** ** [PredicateIndicator::operator<], continued *)

(** X7: no indicator is below itself, and of two indicators that differ
    at least one is below the other. *)
Theorem PredicateIndicator_lt_connex (a b : PredicateIndicator) :
  Lang.PredicateIndicator_lt a a = false
  /\ (a <> b ->
      Lang.PredicateIndicator_lt a b = true
      \/ Lang.PredicateIndicator_lt b a = true).
Proof.
  split; [apply PredicateIndicator_lt_irrefl|].
  destruct a as [fa na], b as [fb nb]. unfold Lang.PredicateIndicator_lt.
  cbn [functor arity]. intros Hne.
  destruct (String.ltb fb fa) eqn:E1; [left; reflexivity|].
  destruct (String.ltb fa fb) eqn:E2; [right; reflexivity|].
  destruct (String.eqb fb fa) eqn:E3.
  - apply String.eqb_eq in E3. subst fb. cbn [orb].
    destruct (Nat.ltb_spec nb na) as [|H1]; [left; reflexivity|].
    destruct (Nat.ltb_spec na nb) as [|H2]; [right; reflexivity|].
    exfalso. apply Hne. f_equal. lia.
  - rewrite (String_ltb_connex _ _ E1 E3) in E2. discriminate E2.
Qed.

(** ** [Substitution::combine] and [Substitution::rollBack] *)

Lemma Operation_rollBack_as_call (op : Lang.Operation) (m : Lang.Mapping) :
  Lang.Operation_rollBack op m = Terms.call (as_revert op) m.
Proof. destruct op; reflexivity. Qed.

Lemma Lang_rollBack_as_Terms (changes : Lang.Diff) :
  forall m : Lang.Mapping,
    snd (Lang.rollBack changes m)
    = snd (Terms.rollBack (List.map as_revert changes) m).
Proof.
  induction changes as [|op r IH]; intros m; [reflexivity|].
  cbn [Lang.rollBack Terms.rollBack List.map].
  rewrite Operation_rollBack_as_call.
  destruct (Terms.call (as_revert op) m) as [m1|]; [|reflexivity].
  specialize (IH m1).
  destruct (Lang.rollBack r m1) as [c1 r1].
  destruct (Terms.rollBack (List.map as_revert r) m1) as [c2 r2].
  exact IH.
Qed.

(** Where the loop of [combine] stays inside defined behaviour, it does
    what the loop of [unifyWith] does with the same unifier. *)
Lemma combine_loop_as_unifyWith (pairs : list (string * TermPtr)) :
  forall (m : Lang.Mapping) (changes : Lang.Diff)
         (b : bool) (m' : Lang.Mapping) (changes' : Lang.Diff),
    Lang.combine_loop pairs m changes = Lang.Returns (b, m', changes') ->
    Terms.unifyWith_loop Terms.Lang_exists Terms.Lang_apply pairs m
      (Some (List.map as_revert changes))
    = (b, m', Some (List.map as_revert changes')).
Proof.
  induction pairs as [|[k t1] rest IH]; intros m changes b m' changes'.
  - cbn. intros H. injection H as <- <- <-. reflexivity.
  - cbn [Lang.combine_loop Terms.unifyWith_loop Terms.unifyWith_step].
    destruct (StdMap.find m k) as [t0|] eqn:E.
    + destruct t0 as [a0|]; [|discriminate].
      destruct t1 as [a1|]; [|discriminate].
      cbn [Terms.Lang_exists Terms.Lang_apply].
      destruct (Lang.Unifier_new a0 a1) as [sigma|]; [|discriminate].
      destruct (Lang.exists_ sigma).
      * intros H. apply IH in H. rewrite <- H.
        unfold StdQueue.push, Terms.push_if. rewrite List.map_app.
        reflexivity.
      * intros H. injection H as <- <- <-. reflexivity.
    + unfold StdMap.insert. rewrite E.
      intros H. apply IH in H. rewrite <- H.
      unfold StdQueue.push, Terms.push_if. rewrite List.map_app.
      reflexivity.
Qed.

(** X8: where [combine], started with an empty queue of changes, returns,
    [rollBack] of the changes runs through and leaves the substitution as
    it was before, whatever [combine] answered; with the answer [true]
    there is one change for each variable of the other substitution. *)
Theorem rollBack_after_combine_restores
    (this other merged : Lang.Mapping) (changes : Lang.Diff) (answer : bool) :
  StdMap.ordered this = true ->
  StdMap.ordered other = true ->
  Lang.combine this other [] = Lang.Returns (answer, merged, changes) ->
  snd (Lang.rollBack changes merged) = Some this
  /\ (answer = true -> List.length changes = List.length other).
Proof.
  intros Hord Hord' Hc. unfold Lang.combine in Hc.
  apply combine_loop_as_unifyWith in Hc. cbn [List.map] in Hc.
  destruct (@unifyWith_loop_spec Terms.Lang_exists Terms.Lang_apply
              other this [] Hord (@ordered_NoDup _ _ Hord'))
    as (b & m' & js & Hloop & Hordm & Hnd & _ & Hpres & Hfind & _ & Hlen).
  assert (Heq := eq_trans (eq_sym Hc) Hloop). cbn [app] in Heq.
  injection Heq as -> -> Hjs. clear Hc Hloop.
  destruct (@rollBack_spec js m' Hordm Hnd Hpres)
    as (m'' & Hrb & Hord'' & Hfind'').
  split.
  - rewrite Lang_rollBack_as_Terms, Hjs, Hrb. cbn [snd]. f_equal.
    apply ordered_ext; [assumption|assumption|].
    intros k. rewrite Hfind'', Hfind. reflexivity.
  - intros Hb. rewrite <- (Hlen Hb), <- Hjs. symmetry. apply List.length_map.
Qed.

Lemma rollBack_after_combine_restores_witness :
  let this := [("X", Some (Variable_ "Z"))] in
  let other := [("X", Some (StringTerm "a")); ("Y", Some (StringTerm "b"))] in
  let merged := [("X", Some (StringTerm "a")); ("Y", Some (StringTerm "b"))] in
  let changes := [Lang.Replaced "X" (Some (Variable_ "Z")); Lang.Added "Y"] in
  snd (Lang.rollBack changes merged) = Some this
  /\ (true = true -> List.length changes = List.length other).
Proof.
  apply (@rollBack_after_combine_restores
           [("X", Some (Variable_ "Z"))]
           [("X", Some (StringTerm "a")); ("Y", Some (StringTerm "b"))]
           [("X", Some (StringTerm "a")); ("Y", Some (StringTerm "b"))]
           [Lang.Replaced "X" (Some (Variable_ "Z")); Lang.Added "Y"] true);
    reflexivity.
Defined.

(** ** Substitutions of [src/terms/Substitution.cpp] *)

Lemma find_absent {V : Type} (m : StdMap.t V) (k : string) :
  ~ In k (StdMap.keys m) -> StdMap.find m k = None.
Proof.
  induction m as [|[k' v] r IH]; [reflexivity|].
  cbn. intros Hnin.
  destruct (String.eqb_spec k k') as [E|_].
  - exfalso. apply Hnin. left. symmetry. exact E.
  - apply IH. intros Hin. apply Hnin. right. exact Hin.
Qed.

(** X9: [set] binds a variable that has no term, and only then: a second
    [set] of the same variable changes nothing, and the other variables
    keep what they had. *)
Theorem Terms_set_binds_once
    (sigma : Terms.Mapping) (v y : string) (t t' : TermPtr) :
  (Terms.contains sigma v = false ->
   Terms.get (Terms.set sigma v t) v = t)
  /\ Terms.contains (Terms.set sigma v t) v = true
  /\ Terms.set (Terms.set sigma v t) v t' = Terms.set sigma v t
  /\ (y <> v -> Terms.get (Terms.set sigma v t) y = Terms.get sigma y).
Proof.
  unfold Terms.contains, Terms.get, Terms.set, StdMap.insert.
  destruct (StdMap.find sigma v) as [t0|] eqn:E; cbn [fst].
  - rewrite E. split; [discriminate|]. split; [reflexivity|].
    split; [reflexivity|]. reflexivity.
  - rewrite (@find_place _ sigma v t v E), String.eqb_refl. cbn [fst].
    split; [reflexivity|]. split; [reflexivity|]. split; [reflexivity|].
    intros Hne. rewrite (@find_place _ sigma v t y E).
    destruct (String.eqb_spec y v); [contradiction|reflexivity].
Qed.

Section Merging.
Variable Unifier_exists : TermPtr -> TermPtr -> bool.
Variable Unifier_apply : TermPtr -> TermPtr -> TermPtr.

Local Abbreviation loop := (Terms.unifyWith_loop Unifier_exists Unifier_apply).

Lemma unifyWith_loop_journal (pairs : list (string * TermPtr)) :
  forall (m : Terms.Mapping) (j : Terms.Reversible),
    fst (loop pairs m (Some j)) = fst (loop pairs m None)
    /\ snd (loop pairs m None) = None.
Proof.
  induction pairs as [|[k t1] rest IH]; intros m j; [split; reflexivity|].
  cbn [Terms.unifyWith_loop Terms.unifyWith_step].
  destruct (StdMap.find m k) as [t0|].
  - destruct (Unifier_exists t0 t1); [|split; reflexivity].
    cbn [Terms.push_if]. apply IH.
  - unfold StdMap.insert. destruct (StdMap.find m k); cbn [Terms.push_if];
      apply IH.
Qed.

Lemma unifyWith_loop_merged (pairs : list (string * TermPtr)) :
  forall (m m' : Terms.Mapping) (r r' : option Terms.Reversible) (b : bool),
    NoDup (StdMap.keys pairs) ->
    loop pairs m r = (b, m', r') ->
    (b = true ->
     forall k,
       StdMap.find m' k
       = match StdMap.find pairs k with
         | Some t1 =>
             Some match StdMap.find m k with
                  | Some t0 => Unifier_apply t0 t1
                  | None => t1
                  end
         | None => StdMap.find m k
         end)
    /\ (b = true ->
        forall k t0 t1,
          StdMap.find m k = Some t0 -> StdMap.find pairs k = Some t1 ->
          Unifier_exists t0 t1 = true)
    /\ (b = false ->
        exists k t0 t1,
          StdMap.find m k = Some t0 /\ StdMap.find pairs k = Some t1
          /\ Unifier_exists t0 t1 = false).
Proof.
  induction pairs as [|[k1 t1] rest IH]; intros m m' r r' b Hnd.
  - cbn. intros H. injection H as <- <- _.
    split; [reflexivity|]. split; [discriminate|discriminate].
  - inversion Hnd as [|? ? Hnin Hnd']; subst.
    cbn [Terms.unifyWith_loop].
    destruct (Terms.unifyWith_step Unifier_exists Unifier_apply m r (k1, t1))
      as [[m1 r1]|] eqn:Hstep.
    + intros Hloop.
      destruct (IH m1 m' r1 r' b Hnd' Hloop) as (Hm & He & Hf).
      assert (Hm1 : forall k, StdMap.find m1 k
                = if String.eqb k k1
                  then Some match StdMap.find m k1 with
                            | Some t0 => Unifier_apply t0 t1
                            | None => t1
                            end
                  else StdMap.find m k).
      { intros k. unfold Terms.unifyWith_step, StdMap.insert in Hstep.
        destruct (StdMap.find m k1) as [t0|] eqn:E.
        - destruct (Unifier_exists t0 t1); [|discriminate Hstep].
          injection Hstep as <- _. rewrite find_assign, E. reflexivity.
        - injection Hstep as <- _. apply find_place. exact E. }
      assert (Hok : forall t0, StdMap.find m k1 = Some t0 ->
                               Unifier_exists t0 t1 = true).
      { intros t0 E. unfold Terms.unifyWith_step in Hstep. rewrite E in Hstep.
        destruct (Unifier_exists t0 t1); [reflexivity|discriminate Hstep]. }
      split; [|split].
      * intros Hb k. rewrite (Hm Hb k), Hm1. cbn [StdMap.find].
        destruct (String.eqb_spec k k1) as [->|Hne]; [|reflexivity].
        rewrite (find_absent _ _ Hnin). reflexivity.
      * intros Hb k t0 t1' Hk. cbn [StdMap.find].
        destruct (String.eqb_spec k k1) as [->|Hne].
        -- intros H. injection H as <-. apply Hok, Hk.
        -- apply (He Hb k t0 t1'). rewrite Hm1.
           destruct (String.eqb_spec k k1); [contradiction|exact Hk].
      * intros Hb. destruct (Hf Hb) as (k & t0 & t1' & Hk & Hp & Hne).
        assert (Hkk : k <> k1).
        { intros ->. rewrite (find_absent _ _ Hnin) in Hp. discriminate Hp. }
        exists k, t0, t1'. cbn [StdMap.find].
        rewrite Hm1 in Hk.
        destruct (String.eqb_spec k k1); [contradiction|].
        split; [exact Hk|]. split; [exact Hp|exact Hne].
    + intros H. injection H as <- <- _.
      split; [discriminate|]. split; [discriminate|]. intros _.
      unfold Terms.unifyWith_step in Hstep.
      destruct (StdMap.find m k1) as [t0|] eqn:E.
      * destruct (Unifier_exists t0 t1) eqn:Hx; [discriminate Hstep|].
        exists k1, t0, t1. cbn [StdMap.find]. rewrite String.eqb_refl.
        split; [exact E|]. split; [reflexivity|exact Hx].
      * unfold StdMap.insert in Hstep. rewrite E in Hstep. discriminate Hstep.
Qed.

End Merging.

(** X10: the journal is written and never read: with and without one,
    [unifyWith] gives the same answer and leaves the same mapping. *)
Theorem unifyWith_without_journal
    (Unifier_exists : TermPtr -> TermPtr -> bool)
    (Unifier_apply : TermPtr -> TermPtr -> TermPtr)
    (this other : Terms.Mapping) (j : Terms.Reversible) :
  fst (Terms.unifyWith Unifier_exists Unifier_apply this other (Some j))
  = fst (Terms.unifyWith Unifier_exists Unifier_apply this other None)
  /\ snd (Terms.unifyWith Unifier_exists Unifier_apply this other None)
     = None.
Proof. apply unifyWith_loop_journal. Qed.

(** X11: after [unifyWith] has answered [true], a variable of the other
    substitution is bound to the other term if it had none and to what
    [sigma.apply()] gave if it had one, for which a unifier exists; the
    remaining variables keep what they had. *)
Theorem unifyWith_true_merges
    (Unifier_exists : TermPtr -> TermPtr -> bool)
    (Unifier_apply : TermPtr -> TermPtr -> TermPtr)
    (this other merged : Terms.Mapping) (r r' : option Terms.Reversible) :
  StdMap.ordered other = true ->
  Terms.unifyWith Unifier_exists Unifier_apply this other r
  = (true, merged, r') ->
  (forall x,
     StdMap.find merged x
     = match StdMap.find other x with
       | Some t1 =>
           Some match StdMap.find this x with
                | Some t0 => Unifier_apply t0 t1
                | None => t1
                end
       | None => StdMap.find this x
       end)
  /\ (forall x t0 t1,
        StdMap.find this x = Some t0 -> StdMap.find other x = Some t1 ->
        Unifier_exists t0 t1 = true).
Proof.
  intros Hord H.
  destruct (@unifyWith_loop_merged Unifier_exists Unifier_apply
              other this merged r r' true (@ordered_NoDup _ _ Hord) H)
    as (Hm & He & _).
  split; [apply Hm; reflexivity|apply He; reflexivity].
Qed.

Lemma unifyWith_true_merges_witness :
  let this := [("X", Some (Variable_ "Z"))] in
  let other := [("X", Some (StringTerm "a")); ("Y", Some (StringTerm "b"))] in
  let merged := [("X", Some (StringTerm "a")); ("Y", Some (StringTerm "b"))] in
  (forall x,
     StdMap.find merged x
     = match StdMap.find other x with
       | Some t1 =>
           Some match StdMap.find this x with
                | Some t0 => Terms.Lang_apply t0 t1
                | None => t1
                end
       | None => StdMap.find this x
       end)
  /\ (forall x t0 t1,
        StdMap.find this x = Some t0 -> StdMap.find other x = Some t1 ->
        Terms.Lang_exists t0 t1 = true).
Proof.
  apply (@unifyWith_true_merges Terms.Lang_exists Terms.Lang_apply
           [("X", Some (Variable_ "Z"))]
           [("X", Some (StringTerm "a")); ("Y", Some (StringTerm "b"))]
           [("X", Some (StringTerm "a")); ("Y", Some (StringTerm "b"))]
           None None);
    reflexivity.
Defined.

(** X12: [unifyWith] answers [false] only where a variable is bound in
    both substitutions to terms without a unifier. *)
Theorem unifyWith_false_has_a_clash
    (Unifier_exists : TermPtr -> TermPtr -> bool)
    (Unifier_apply : TermPtr -> TermPtr -> TermPtr)
    (this other merged : Terms.Mapping) (r r' : option Terms.Reversible) :
  StdMap.ordered other = true ->
  Terms.unifyWith Unifier_exists Unifier_apply this other r
  = (false, merged, r') ->
  exists x t0 t1,
    StdMap.find this x = Some t0 /\ StdMap.find other x = Some t1
    /\ Unifier_exists t0 t1 = false.
Proof.
  intros Hord H.
  destruct (@unifyWith_loop_merged Unifier_exists Unifier_apply
              other this merged r r' false (@ordered_NoDup _ _ Hord) H)
    as (_ & _ & Hf).
  apply Hf. reflexivity.
Qed.

Lemma unifyWith_false_has_a_clash_witness :
  let this := [("X", Some (StringTerm "a"))] in
  let other := [("X", Some (StringTerm "b"))] in
  exists x t0 t1,
    StdMap.find this x = Some t0 /\ StdMap.find other x = Some t1
    /\ Terms.Lang_exists t0 t1 = false.
Proof.
  apply (@unifyWith_false_has_a_clash Terms.Lang_exists Terms.Lang_apply
           [("X", Some (StringTerm "a"))] [("X", Some (StringTerm "b"))]
           [("X", Some (StringTerm "a"))] None None);
    reflexivity.
Defined.

(** ** [Substitution::computeHash] *)

Lemma lxor_size_t (a b : Z) :
  (0 <= a < Terms.size_t_modulus)%Z -> (0 <= b < Terms.size_t_modulus)%Z ->
  (0 <= Z.lxor a b < Terms.size_t_modulus)%Z.
Proof.
  unfold Terms.size_t_modulus. intros [Ha0 Ha] [Hb0 Hb].
  assert (H0 : (0 <= Z.lxor a b)%Z) by (apply Z.lxor_nonneg; tauto).
  split; [exact H0|].
  destruct (Z.eq_dec (Z.lxor a b) 0) as [E|E]; [rewrite E; reflexivity|].
  apply Z.log2_lt_pow2; [lia|].
  pose proof (Z.log2_lxor a b Ha0 Hb0) as Hlog.
  assert (La : (Z.log2 a < 64)%Z).
  { destruct (Z.eq_dec a 0) as [->|]; [reflexivity|].
    apply Z.log2_lt_pow2; lia. }
  assert (Lb : (Z.log2 b < 64)%Z).
  { destruct (Z.eq_dec b 0) as [->|]; [reflexivity|].
    apply Z.log2_lt_pow2; lia. }
  lia.
Qed.

Lemma hash_combine_size_t (seed h : Z) :
  (0 <= seed < Terms.size_t_modulus)%Z ->
  (0 <= Terms.hash_combine seed h < Terms.size_t_modulus)%Z.
Proof.
  intros Hseed. unfold Terms.hash_combine. apply lxor_size_t; [exact Hseed|].
  unfold Terms.size_t. apply Z.mod_pos_bound. reflexivity.
Qed.

(** X28: the hash of a substitution is a [size_t] value, whatever the
    hashes of the variables and terms are, and it is [0] for the empty
    substitution. *)
Theorem computeHash_is_size_t
    (Variable_computeHash : string -> Z) (Term_computeHash : Term -> Z)
    (sigma : Terms.Mapping) :
  (0 <= Terms.computeHash Variable_computeHash Term_computeHash sigma
   < Terms.size_t_modulus)%Z
  /\ Terms.computeHash Variable_computeHash Term_computeHash [] = 0%Z.
Proof.
  split; [|reflexivity]. unfold Terms.computeHash.
  assert (H : forall (f : Z -> string * TermPtr -> Z) (seed : Z),
             (forall z item, (0 <= z < Terms.size_t_modulus)%Z ->
                             (0 <= f z item < Terms.size_t_modulus)%Z) ->
             (0 <= seed < Terms.size_t_modulus)%Z ->
             (0 <= List.fold_left f sigma seed < Terms.size_t_modulus)%Z).
  { intros f seed Hf. revert seed.
    induction sigma as [|item rest IH]; intros seed Hseed; [exact Hseed|].
    cbn [List.fold_left]. apply IH, Hf, Hseed. }
  apply H; [|split; reflexivity].
  intros z item Hz. apply hash_combine_size_t, hash_combine_size_t, Hz.
Qed.

(** ** The plugins of [ReasonerManager] *)

Section Plugins.
Variable IReasoner : Type.
Variable loadConfiguration : IReasoner -> Reasoner.ReasonerConfiguration -> bool.

Local Abbreviation failed path :=
  (Reasoner.WARN ("Failed to open reasoner library at path '" ++ path ++ "'.")).

(** What [loadReasonerPlugin] hands out and what it leaves. *)
Lemma loadReasonerPlugin_spec
    (dlopen : string -> option (Reasoner.SharedObject IReasoner))
    (this this' : Reasoner.ReasonerManager IReasoner)
    (log log' : Reasoner.Log) (path : string)
    (r : option (Reasoner.ReasonerPlugin IReasoner)) :
  Reasoner.loadReasonerPlugin dlopen this log path = (this', log', r) ->
  (exists p,
     StdMap.find (Reasoner.loadedPlugins_ this') path = Some p
     /\ r = (if Reasoner.isLoaded p then Some p else None)
     /\ log' = (if Reasoner.isLoaded p then log
                else log ++ [failed path])%list)
  /\ Reasoner.reasonerFactories_ this' = Reasoner.reasonerFactories_ this
  /\ Reasoner.reasonerPool_ this' = Reasoner.reasonerPool_ this
  /\ Reasoner.reasonerIndex_ this' = Reasoner.reasonerIndex_ this.
Proof.
  unfold Reasoner.loadReasonerPlugin.
  destruct (StdMap.find (Reasoner.loadedPlugins_ this) path) as [p|] eqn:E.
  - destruct (Reasoner.isLoaded p) eqn:L; intros H; injection H as <- <- <-;
      (split; [exists p; rewrite L; auto|auto]).
  - unfold Reasoner.loadDLL, Reasoner.ReasonerPlugin_new.
    cbn [Reasoner.dllPath_ Reasoner.create_ Reasoner.get_name_].
    unfold StdMap.insert. rewrite E. cbn [fst].
    destruct (dlopen path) as [so|].
    + cbv zeta.
      destruct (Reasoner.isLoaded
                  (Reasoner.mkPlugin (Some so)
                     (Reasoner.knowrob_createReasoner so)
                     (Reasoner.knowrob_getPluginName so) path)) eqn:L;
        intros H; injection H as <- <- <-;
        (split; [|auto]); eexists;
        (split;
         [unfold Reasoner.set_loadedPlugins; cbn [Reasoner.loadedPlugins_];
          rewrite find_place by exact E; rewrite String.eqb_refl;
          reflexivity|]);
        rewrite L; auto.
    + cbv zeta. intros H; injection H as <- <- <-.
      split; [|auto]. eexists.
      split;
        [unfold Reasoner.set_loadedPlugins; cbn [Reasoner.loadedPlugins_];
         rewrite find_place by exact E; rewrite String.eqb_refl;
         reflexivity|].
      cbn. auto.
Qed.

(** X13: a library is opened once.  After [loadReasonerPlugin(path)] a
    second call for the same path gives the same plugin, or null again,
    without looking at the library, whatever [dlopen] would answer now,
    and changes nothing in the manager; a plugin that is handed out has
    both of its functions. *)
Theorem loadReasonerPlugin_opens_once
    (dlopen dlopen' : string -> option (Reasoner.SharedObject IReasoner))
    (this this' : Reasoner.ReasonerManager IReasoner)
    (log log' log2 : Reasoner.Log) (path : string)
    (r : option (Reasoner.ReasonerPlugin IReasoner)) :
  Reasoner.loadReasonerPlugin dlopen this log path = (this', log', r) ->
  Reasoner.loadReasonerPlugin dlopen' this' log2 path
  = (this', match r with Some _ => log2 | None => (log2 ++ [failed path])%list end, r)
  /\ (forall p, r = Some p ->
        Reasoner.isLoaded p = true
        /\ Reasoner.factory_name (Reasoner.PluginFactory p) <> None
        /\ forall reasonerID,
             Reasoner.createReasoner (Reasoner.PluginFactory p) reasonerID
             <> None).
Proof.
  intros H. destruct (loadReasonerPlugin_spec _ _ _ _ H)
    as ((p & Hfind & Hr & Hlog) & _).
  split.
  - unfold Reasoner.loadReasonerPlugin. rewrite Hfind.
    destruct (Reasoner.isLoaded p); subst r; reflexivity.
  - intros q Hq. rewrite Hq in Hr.
    destruct (Reasoner.isLoaded p) eqn:L; [|discriminate Hr].
    injection Hr as ->. split; [exact L|].
    unfold Reasoner.isLoaded in L. cbn.
    destruct (Reasoner.create_ p); [|discriminate L].
    destruct (Reasoner.get_name_ p); [|discriminate L].
    split; [discriminate|]. intros ?. discriminate.
Qed.

(** X14: with a [lib] key the library decides alone.  [loadReasoner]
    throws where the plugin cannot be handed out, also when [type] names
    a registered factory, and returns where it can: it never calls through
    a null function pointer. *)
Theorem loadReasoner_with_lib
    (dlopen : string -> option (Reasoner.SharedObject IReasoner))
    (this this' : Reasoner.ReasonerManager IReasoner)
    (log log' : Reasoner.Log) (config : Reasoner.ptree) (path : string)
    (r : option (Reasoner.ReasonerPlugin IReasoner)) :
  Reasoner.get_optional config "lib" = Some path ->
  Reasoner.loadReasonerPlugin dlopen this log path = (this', log', r) ->
  match r with
  | None =>
      Reasoner.loadReasoner loadConfiguration dlopen this log config
      = Reasoner.Throws (Reasoner.ReasonerError_ "failed to load a reasoner.")
  | Some p =>
      exists this2 log2,
        Reasoner.loadReasoner loadConfiguration dlopen this log config
        = Reasoner.Returns (this2, log2)
        /\ Reasoner.reasonerIndex_ this2
           = (Reasoner.reasonerIndex_ this + 1)%N
  end.
Proof.
  intros Hlib Hplugin.
  destruct (loadReasonerPlugin_spec _ _ _ _ Hplugin)
    as ((p & Hfind & Hr & Hlog) & _ & _ & Hindex).
  unfold Reasoner.loadReasoner, Reasoner.loadReasoner_factory.
  rewrite Hlib, Hplugin.
  destruct r as [q|]; [|reflexivity].
  destruct (Reasoner.isLoaded p) eqn:L; [|discriminate Hr].
  injection Hr as ->.
  unfold Reasoner.isLoaded in L. unfold Reasoner.loadReasoner_with.
  cbn [Reasoner.factory_name Reasoner.createReasoner].
  destruct (Reasoner.create_ p) as [create|]; [|discriminate L].
  destruct (Reasoner.get_name_ p) as [name|]; [|discriminate L].
  destruct (Reasoner.loadPropertyTree config _) as [reasonerConfig log2].
  destruct (negb (loadConfiguration _ reasonerConfig));
    eexists; eexists; (split; [reflexivity|]); cbn; rewrite Hindex;
    reflexivity.
Qed.

(** X15: without a [lib] key [loadReasoner] throws exactly where [type]
    is missing or names no registered factory, and looking for the
    factory has then left the manager as it was and logged one
    warning. *)
Theorem loadReasoner_without_lib
    (dlopen : string -> option (Reasoner.SharedObject IReasoner))
    (this : Reasoner.ReasonerManager IReasoner)
    (log : Reasoner.Log) (config : Reasoner.ptree) :
  Reasoner.get_optional config "lib" = None ->
  let registered :=
    match Reasoner.get_optional config "type" with
    | Some type => StdMap.find (Reasoner.reasonerFactories_ this) type
    | None => None
    end in
  (registered = None <->
   Reasoner.loadReasoner loadConfiguration dlopen this log config
   = Reasoner.Throws (Reasoner.ReasonerError_ "failed to load a reasoner."))
  /\ (registered = None ->
      exists warning,
        Reasoner.loadReasoner_factory dlopen this log config
        = (this, (log ++ [Reasoner.WARN warning])%list, None)).
Proof.
  intros Hlib registered. subst registered.
  unfold Reasoner.loadReasoner, Reasoner.loadReasoner_factory.
  rewrite Hlib.
  destruct (Reasoner.get_optional config "type") as [ty|].
  - destruct (StdMap.find (Reasoner.reasonerFactories_ this) ty) as [f|].
    + split; [split; [discriminate|]|discriminate].
      unfold Reasoner.loadReasoner_with.
      destruct (Reasoner.factory_name f); [|discriminate].
      destruct (Reasoner.createReasoner f _); [|discriminate].
      destruct (Reasoner.loadPropertyTree config _).
      destruct (negb (loadConfiguration _ _)); discriminate.
    + split; [split; reflexivity|]. intros _. eexists. reflexivity.
  - split; [split; reflexivity|]. intros _. eexists. reflexivity.
Qed.

End Plugins.

Lemma loadReasonerPlugin_opens_once_witness :
  let res := Reasoner.loadReasonerPlugin one_library manager_with_Prolog []
               "libfoo.so" in
  let this' := fst (fst res) in
  let r := snd res in
  Reasoner.loadReasonerPlugin no_shared_object this' [] "libfoo.so"
  = (this',
     match r with
     | Some _ => []
     | None =>
         ([] ++ [Reasoner.WARN ("Failed to open reasoner library at path '"
                                ++ "libfoo.so" ++ "'.")])%list
     end, r)
  /\ (forall p, r = Some p ->
        Reasoner.isLoaded p = true
        /\ Reasoner.factory_name (Reasoner.PluginFactory p) <> None
        /\ forall reasonerID,
             Reasoner.createReasoner (Reasoner.PluginFactory p) reasonerID
             <> None).
Proof.
  apply (@loadReasonerPlugin_opens_once string one_library no_shared_object
           manager_with_Prolog
           (fst (fst (Reasoner.loadReasonerPlugin one_library
                        manager_with_Prolog [] "libfoo.so")))
           [] [] [] "libfoo.so"
           (snd (Reasoner.loadReasonerPlugin one_library
                   manager_with_Prolog [] "libfoo.so"))).
  reflexivity.
Defined.

Lemma loadReasoner_with_lib_witness :
  Reasoner.loadReasoner accepts_no_settings no_shared_object
    manager_with_Prolog [] config_lib_and_type
  = Reasoner.Throws (Reasoner.ReasonerError_ "failed to load a reasoner.").
Proof.
  apply (@loadReasoner_with_lib string accepts_no_settings no_shared_object
           manager_with_Prolog
           (fst (fst (Reasoner.loadReasonerPlugin no_shared_object
                        manager_with_Prolog [] "libbar.so")))
           []
           (snd (fst (Reasoner.loadReasonerPlugin no_shared_object
                        manager_with_Prolog [] "libbar.so")))
           config_lib_and_type "libbar.so" None);
    reflexivity.
Defined.

Lemma loadReasoner_without_lib_witness :
  let config := Reasoner.PTree EmptyString
                  [("type", Reasoner.PTree "Datalog" [])] in
  let registered :=
    match Reasoner.get_optional config "type" with
    | Some type =>
        StdMap.find (Reasoner.reasonerFactories_ manager_with_Prolog) type
    | None => None
    end in
  (registered = None <->
   Reasoner.loadReasoner accepts_no_settings no_shared_object
     manager_with_Prolog [] config
   = Reasoner.Throws (Reasoner.ReasonerError_ "failed to load a reasoner."))
  /\ (registered = None ->
      exists warning,
        Reasoner.loadReasoner_factory no_shared_object manager_with_Prolog
          [] config
        = (manager_with_Prolog, ([] ++ [Reasoner.WARN warning])%list, None)).
Proof.
  apply (@loadReasoner_without_lib string accepts_no_settings
           no_shared_object manager_with_Prolog []
           (Reasoner.PTree EmptyString
              [("type", Reasoner.PTree "Datalog" [])])).
  reflexivity.
Defined.

(** ** [ReasonerConfiguration::loadPropertyTree] *)

(** Induction on property trees, with the children as smaller trees. *)
Lemma ptree_nested_ind (Q : Reasoner.ptree -> Prop) :
  (forall data children,
      Forall (fun kc => Q (snd kc)) children ->
      Q (Reasoner.PTree data children)) ->
  forall pt, Q pt.
Proof.
  intros H. fix IH 1. intros [data children]. apply H.
  induction children as [|[k c] r IHr]; constructor; [apply IH|exact IHr].
Qed.

Lemma extends_settings_refl st : extends_settings st st.
Proof.
  split; [reflexivity|]. split.
  - exists []. rewrite app_nil_r. split; [reflexivity|constructor].
  - exists []. rewrite app_nil_r. reflexivity.
Qed.

Lemma extends_settings_trans st1 st2 st3 :
  extends_settings st1 st2 -> extends_settings st2 st3 ->
  extends_settings st1 st3.
Proof.
  intros (Hd1 & (m1 & Hs1 & Hf1) & (l1 & Hl1))
         (Hd2 & (m2 & Hs2 & Hf2) & (l2 & Hl2)).
  split; [congruence|]. split.
  - exists (m1 ++ m2)%list. rewrite Hs2, Hs1, app_assoc.
    split; [reflexivity|]. apply Forall_app. split; assumption.
  - exists (l1 ++ l2)%list. rewrite Hl2, Hl1, app_assoc. reflexivity.
Qed.

Lemma extends_settings_emplace st key v :
  is_setting_key key = true ->
  extends_settings st
    (Reasoner.emplace_setting (fst st) key (StringTerm v), snd st).
Proof.
  intros Hk. split; [reflexivity|]. split.
  - exists [(key, StringTerm v)]. split; [reflexivity|].
    constructor; [|constructor]. split; [exact Hk|]. exists v. reflexivity.
  - exists []. rewrite app_nil_r. reflexivity.
Qed.

Lemma extends_settings_log st line :
  extends_settings st (fst st, (snd st ++ [line])%list).
Proof.
  split; [reflexivity|]. split.
  - exists []. rewrite app_nil_r. split; [reflexivity|constructor].
  - exists [line]. reflexivity.
Qed.

Lemma loadSettings_extends (pt : Reasoner.ptree) :
  forall key1 st,
    is_setting_key key1 = true ->
    extends_settings st (Reasoner.loadSettings key1 pt st).
Proof.
  induction pt as [data children IH] using ptree_nested_ind.
  intros key1 st Hk. cbn [Reasoner.loadSettings].
  revert st. induction IH as [|[first second] rest Hc Hrest IHrest];
    intros st; [apply extends_settings_refl|].
  cbn [snd] in Hc.
  destruct (String.eqb first EmptyString).
  - eapply extends_settings_trans; [|apply IHrest].
    apply extends_settings_log.
  - assert (Hk2 : is_setting_key
                    (Predicate Reasoner.colon_f [key1; StringTerm first])
                  = true).
    { cbn. exact Hk. }
    destruct (Reasoner.ptree_empty second).
    + eapply extends_settings_trans; [|apply IHrest].
      apply extends_settings_emplace. exact Hk2.
    + eapply extends_settings_trans; [|apply IHrest].
      apply Hc. exact Hk2.
Qed.

Local Abbreviation settings_loop :=
  (List.fold_left
     (fun (st : Reasoner.ReasonerConfiguration * Reasoner.Log)
          (key_val : string * Reasoner.ptree) =>
        let key_t := StringTerm (fst key_val) in
        if Reasoner.ptree_empty (snd key_val) then
          (Reasoner.emplace_setting (fst st) key_t
             (StringTerm (Reasoner.get_value (snd key_val))), snd st)
        else Reasoner.loadSettings key_t (snd key_val) st)).

Local Abbreviation data_sources_loop :=
  (List.fold_left
     (fun (st : Reasoner.ReasonerConfiguration * Reasoner.Log)
          (item : string * Reasoner.ptree) =>
        let subtree := snd item in
        match Reasoner.get_optional subtree "file" with
        | Some fileValue =>
            let fileFormat :=
              Reasoner.get_or subtree "format" Reasoner.formatDefault in
            (Reasoner.push_dataFile (fst st)
               (Reasoner.mkDataFile fileValue fileFormat), snd st)
        | None =>
            (fst st,
             (snd st ++ [Reasoner.WARN ("Ignoring data source without "
                                        ++ Reasoner.quoted "file"
                                        ++ " key.")])%list)
        end)).

Lemma settings_loop_extends (children : list (string * Reasoner.ptree)) :
  forall st, extends_settings st (settings_loop children st).
Proof.
  induction children as [|[k c] r IH]; intros st;
    [apply extends_settings_refl|].
  cbn [List.fold_left fst snd].
  eapply extends_settings_trans; [|apply IH].
  destruct (Reasoner.ptree_empty c).
  - apply extends_settings_emplace. reflexivity.
  - apply loadSettings_extends. reflexivity.
Qed.

Lemma settings_loop_flat (children : list (string * Reasoner.ptree)) :
  forall st,
    Forall (fun kc => Reasoner.ptree_empty (snd kc) = true) children ->
    settings_loop children st
    = (Reasoner.mkConfiguration
         (Reasoner.settings (fst st)
          ++ List.map (fun kc : string * Reasoner.ptree =>
                         (StringTerm (fst kc),
                          StringTerm (Reasoner.data_of (snd kc))))
               children)
         (Reasoner.dataFiles (fst st)),
       snd st).
Proof.
  induction children as [|[k c] r IH]; intros [[s d] l] Hflat.
  - cbn. rewrite app_nil_r. reflexivity.
  - inversion Hflat as [|? ? Hc Hr]; subst. cbn [snd] in Hc.
    cbn [List.fold_left fst snd]. rewrite Hc.
    rewrite (IH _ Hr). cbn. rewrite <- app_assoc. reflexivity.
Qed.

Lemma data_sources_loop_spec (items : list (string * Reasoner.ptree)) :
  forall st,
    Reasoner.settings (fst (data_sources_loop items st))
    = Reasoner.settings (fst st)
    /\ Reasoner.dataFiles (fst (data_sources_loop items st))
       = (Reasoner.dataFiles (fst st)
          ++ data_files_of (Reasoner.PTree EmptyString items))%list.
Proof.
  unfold data_files_of. cbn [Reasoner.children_of].
  induction items as [|[k c] r IH]; intros st.
  - cbn. rewrite app_nil_r. split; reflexivity.
  - cbn [List.fold_left List.flat_map fst snd].
    destruct (Reasoner.get_optional c "file") as [fileValue|].
    + destruct (IH (Reasoner.push_dataFile (fst st)
                      (Reasoner.mkDataFile fileValue
                         (Reasoner.get_or c "format" Reasoner.formatDefault)),
                    snd st)) as [Hs Hd].
      cbv zeta. rewrite Hs, Hd. cbn. rewrite <- app_assoc.
      split; reflexivity.
    + destruct (IH (fst st,
                    (snd st ++ [Reasoner.WARN
                                  ("Ignoring data source without "
                                   ++ Reasoner.quoted "file"
                                   ++ " key.")])%list)) as [Hs Hd].
      cbv zeta. rewrite Hs, Hd. split; reflexivity.
Qed.

(** X16: the data files of a configuration are those it had, followed by
    one for each child of [data-sources] with a [file] key, in the order
    of the children, with the empty format where the child has none;
    without a [data-sources] key they are those it had. *)
Theorem loadPropertyTree_dataFiles
    (config : Reasoner.ptree) (cfg : Reasoner.ReasonerConfiguration)
    (log : Reasoner.Log) :
  Reasoner.dataFiles (fst (Reasoner.loadPropertyTree config (cfg, log)))
  = (Reasoner.dataFiles cfg
     ++ match Reasoner.get_child_optional config "data-sources" with
        | Some data_sources => data_files_of data_sources
        | None => []
        end)%list.
Proof.
  unfold Reasoner.loadPropertyTree.
  destruct (settings_loop_extends (Reasoner.children_of config) (cfg, log))
    as (Hd & _ & _). cbn [fst] in Hd.
  destruct (Reasoner.get_child_optional config "data-sources")
    as [[data items]|].
  - destruct (data_sources_loop_spec items
                (settings_loop (Reasoner.children_of config) (cfg, log)))
      as [_ Hfiles].
    cbn [Reasoner.children_of]. cbv zeta.
    etransitivity; [exact Hfiles|].
    apply (f_equal2 (@app _)); [exact Hd|reflexivity].
  - cbv zeta. etransitivity; [exact Hd|]. rewrite app_nil_r. reflexivity.
Qed.

(** X17: the settings of a configuration are those it had, followed by
    settings whose value is a string and whose key is a name or a chain
    [name:name:...] built with [:/2]; for a tree whose children all are
    leaves these are the children, name and value, in their order. *)
Theorem loadPropertyTree_settings
    (config : Reasoner.ptree) (cfg : Reasoner.ReasonerConfiguration)
    (log : Reasoner.Log) :
  exists more,
    Reasoner.settings (fst (Reasoner.loadPropertyTree config (cfg, log)))
    = (Reasoner.settings cfg ++ more)%list
    /\ Forall is_setting more
    /\ (Forall (fun kc => Reasoner.ptree_empty (snd kc) = true)
          (Reasoner.children_of config) ->
        more = List.map (fun kc : string * Reasoner.ptree =>
                           (StringTerm (fst kc),
                            StringTerm (Reasoner.data_of (snd kc))))
                 (Reasoner.children_of config)).
Proof.
  destruct (settings_loop_extends (Reasoner.children_of config) (cfg, log))
    as (_ & (more & Hs & Hf) & _). cbn [fst] in Hs.
  assert (Hsame :
    Reasoner.settings (fst (Reasoner.loadPropertyTree config (cfg, log)))
    = Reasoner.settings
        (fst (settings_loop (Reasoner.children_of config) (cfg, log)))).
  { unfold Reasoner.loadPropertyTree.
    destruct (Reasoner.get_child_optional config "data-sources")
      as [[data items]|]; [|reflexivity].
    cbn [Reasoner.children_of].
    apply (data_sources_loop_spec items). }
  exists more. split; [rewrite Hsame; exact Hs|]. split; [exact Hf|].
  intros Hflat.
  assert (Hflat' := @settings_loop_flat (Reasoner.children_of config)
                      (cfg, log) Hflat).
  apply (f_equal (fun st => Reasoner.settings (fst st))) in Hflat'.
  cbn [fst snd Reasoner.settings] in Hflat'.
  assert (Hs' := eq_trans (eq_sym Hs) Hflat'). clear Hs Hflat'.
  rename Hs' into Hs.
  apply app_inv_head in Hs. exact Hs.
Qed.

(** ** [IReasoner::loadDataFile] *)

Lemma find_subscript_assign {V : Type} (m : StdMap.t V) (k k' : string)
    (v : V) :
  StdMap.find (StdMap.subscript_assign m k v) k'
  = if String.eqb k' k then Some v else StdMap.find m k'.
Proof.
  unfold StdMap.subscript_assign.
  destruct (StdMap.find m k) eqn:E.
  - rewrite find_assign, E. reflexivity.
  - apply find_place. exact E.
Qed.

(** X18: a data file with a format goes to the handler added last for
    that format, and the answer of the handler is the answer; handlers
    added for other formats change nothing for it, and without a handler
    the file is ignored with a warning.  A file without a format never
    reaches a handler. *)
Theorem loadDataFile_dispatch
    (loadDataFileWithUnknownFormat : Reasoner.DataFile -> bool)
    (handlers : StdMap.t Reasoner.DataFileLoader)
    (format : string) (fn : Reasoner.DataFileLoader)
    (log : Reasoner.Log) (dataFile : Reasoner.DataFile) :
  let handlers' := Reasoner.addDataFileHandler handlers format fn in
  (Reasoner.hasUnknownFormat dataFile = false ->
   (Reasoner.format dataFile = format ->
    Reasoner.loadDataFile loadDataFileWithUnknownFormat handlers' log dataFile
    = (fn dataFile,
       (log ++ [Reasoner.INFO ("Using data file " ++ Reasoner.path dataFile
                               ++ " with format "
                               ++ Reasoner.quoted format ++ ".")])%list))
   /\ (Reasoner.format dataFile <> format ->
       Reasoner.loadDataFile loadDataFileWithUnknownFormat handlers' log
         dataFile
       = Reasoner.loadDataFile loadDataFileWithUnknownFormat handlers log
           dataFile)
   /\ (StdMap.find handlers (Reasoner.format dataFile) = None ->
       Reasoner.loadDataFile loadDataFileWithUnknownFormat handlers log
         dataFile
       = (false,
          (log ++ [Reasoner.WARN ("Ignoring data file with unknown format "
                                  ++ Reasoner.quoted
                                       (Reasoner.format dataFile))])%list)))
  /\ (Reasoner.hasUnknownFormat dataFile = true ->
      Reasoner.loadDataFile loadDataFileWithUnknownFormat handlers' log
        dataFile
      = (loadDataFileWithUnknownFormat dataFile, log)).
Proof.
  cbv zeta. unfold Reasoner.loadDataFile, Reasoner.addDataFileHandler.
  split.
  - intros Hknown. rewrite Hknown. split; [|split].
    + intros <-. rewrite find_subscript_assign, String.eqb_refl.
      reflexivity.
    + intros Hne. rewrite find_subscript_assign.
      destruct (String.eqb_spec (Reasoner.format dataFile) format);
        [contradiction|reflexivity].
    + intros ->. reflexivity.
  - intros ->. reflexivity.
Qed.

(** ** The pool of [ReasonerManager] *)

Section Pool.
Variable IReasoner : Type.
Variable same : IReasoner -> IReasoner -> bool.
Variable isCurrentPredicate : IReasoner -> PredicateIndicator -> bool.
Hypothesis same_spec : forall a b, same a b = true <-> a = b.

Lemma filter_same_absent (reasoner : IReasoner) (pool : list IReasoner) :
  ~ In reasoner pool ->
  List.filter (fun x => negb (same x reasoner)) pool = pool.
Proof.
  induction pool as [|x r IH]; [reflexivity|].
  intros Hnin. cbn [List.filter].
  destruct (same x reasoner) eqn:E.
  - exfalso. apply Hnin. left. apply same_spec. exact E.
  - cbn [negb]. f_equal. apply IH. intros Hin. apply Hnin. right. exact Hin.
Qed.

(** X19: [getReasonerForPredicate] gives the reasoners of the pool for
    which the predicate is current, in the order of the pool.  A reasoner
    that is added comes last among them; one that is removed is not among
    them any more, however often it had been added, and the others stay;
    adding a reasoner that is not in the pool and removing it again
    leaves the manager as it was. *)
Theorem pool_add_remove_get
    (this : Reasoner.ReasonerManager IReasoner) (reasoner x : IReasoner)
    (predicate : PredicateIndicator) :
  Reasoner.getReasonerForPredicate isCurrentPredicate
    (Reasoner.addReasoner this reasoner) predicate
  = (Reasoner.getReasonerForPredicate isCurrentPredicate this predicate
     ++ (if isCurrentPredicate reasoner predicate then [reasoner] else []))%list
  /\ ~ In reasoner
         (Reasoner.getReasonerForPredicate isCurrentPredicate
            (Reasoner.removeReasoner same this reasoner) predicate)
  /\ ~ In reasoner
         (Reasoner.reasonerPool_
            (Reasoner.removeReasoner same
               (Reasoner.addReasoner (Reasoner.addReasoner this reasoner)
                  reasoner)
               reasoner))
  /\ (x <> reasoner ->
      (In x (Reasoner.getReasonerForPredicate isCurrentPredicate
               (Reasoner.removeReasoner same this reasoner) predicate)
       <-> In x (Reasoner.getReasonerForPredicate isCurrentPredicate this
                   predicate)))
  /\ (~ In reasoner (Reasoner.reasonerPool_ this) ->
      Reasoner.removeReasoner same (Reasoner.addReasoner this reasoner)
        reasoner
      = this).
Proof.
  assert (Hsame : same reasoner reasoner = true) by (apply same_spec; reflexivity).
  unfold Reasoner.getReasonerForPredicate, Reasoner.removeReasoner,
    Reasoner.addReasoner.
  cbn [Reasoner.reasonerPool_ Reasoner.reasonerFactories_
       Reasoner.loadedPlugins_ Reasoner.reasonerIndex_].
  split; [|split; [|split; [|split]]].
  - rewrite List.filter_app. reflexivity.
  - intros Hin. apply List.filter_In in Hin. destruct Hin as [Hin _].
    apply List.filter_In in Hin. destruct Hin as [_ Hin].
    rewrite Hsame in Hin. discriminate Hin.
  - intros Hin. apply List.filter_In in Hin. destruct Hin as [_ Hin].
    rewrite Hsame in Hin. discriminate Hin.
  - intros Hne. rewrite !List.filter_In.
    assert (Hx : same x reasoner = false).
    { destruct (same x reasoner) eqn:E; [|reflexivity].
      exfalso. apply Hne, same_spec, E. }
    rewrite Hx. cbn [negb]. tauto.
  - intros Hnin. destruct this as [f p pool i].
    cbn [Reasoner.reasonerPool_] in *. f_equal.
    rewrite List.filter_app. cbn [List.filter]. rewrite Hsame. cbn [negb].
    rewrite app_nil_r. apply filter_same_absent. exact Hnin.
Qed.

End Pool.

Lemma pool_add_remove_get_witness :
  let this := Reasoner.mkManager [] [] ["r1"; "r2"] 2%N in
  let current (r : string) (_ : PredicateIndicator) := String.eqb r "r3" in
  Reasoner.getReasonerForPredicate current
    (Reasoner.addReasoner this "r3") (mkIndicator "p" 1)
  = (Reasoner.getReasonerForPredicate current this (mkIndicator "p" 1)
     ++ (if current "r3" (mkIndicator "p" 1) then ["r3"] else []))%list
  /\ ~ In "r3"
         (Reasoner.getReasonerForPredicate current
            (Reasoner.removeReasoner String.eqb this "r3")
            (mkIndicator "p" 1))
  /\ ~ In "r3"
         (Reasoner.reasonerPool_
            (Reasoner.removeReasoner String.eqb
               (Reasoner.addReasoner (Reasoner.addReasoner this "r3") "r3")
               "r3"))
  /\ ("r1" <> "r3" ->
      (In "r1" (Reasoner.getReasonerForPredicate current
                  (Reasoner.removeReasoner String.eqb this "r3")
                  (mkIndicator "p" 1))
       <-> In "r1" (Reasoner.getReasonerForPredicate current this
                      (mkIndicator "p" 1))))
  /\ (~ In "r3" (Reasoner.reasonerPool_ this) ->
      Reasoner.removeReasoner String.eqb (Reasoner.addReasoner this "r3")
        "r3"
      = this).
Proof.
  apply (@pool_add_remove_get string String.eqb
           (fun (r : string) (_ : PredicateIndicator) => String.eqb r "r3")
           String.eqb_eq
           (Reasoner.mkManager [] [] ["r1"; "r2"] 2%N) "r3" "r1"
           (mkIndicator "p" 1)).
Defined.

(** ** The manager as it is constructed *)

(** X20: a manager as constructed has no reasoner, and it loads each of
    the four built-in types from a configuration with that [type] and
    neither [lib] nor [name]: the reasoner is made by the constructor of
    the type with the identifier [type0], and it is the one reasoner of
    the pool if it accepts the configuration. *)
Theorem new_manager_loads_built_in_types
    (IReasoner : Type)
    (loadConfiguration : IReasoner -> Reasoner.ReasonerConfiguration -> bool)
    (dlopen : string -> option (Reasoner.SharedObject IReasoner))
    (MongologReasoner PrologReasoner ESGReasoner SWRLReasoner
       : string -> IReasoner)
    (type : string) (make : string -> IReasoner) (log : Reasoner.Log) :
  In (type, make)
     [("Mongolog", MongologReasoner); ("Prolog", PrologReasoner);
      ("ESG", ESGReasoner); ("SWRL", SWRLReasoner)] ->
  let this := Reasoner.ReasonerManager_new MongologReasoner PrologReasoner
                ESGReasoner SWRLReasoner in
  let config := Reasoner.PTree EmptyString [("type", Reasoner.PTree type [])] in
  Reasoner.reasonerPool_ this = []
  /\ exists this' log',
       Reasoner.loadReasoner loadConfiguration dlopen this log config
       = Reasoner.Returns (this', log')
       /\ Reasoner.reasonerIndex_ this' = 1%N
       /\ Reasoner.reasonerPool_ this'
          = if loadConfiguration (make (type ++ "0"))
                 (Reasoner.mkConfiguration
                    [(StringTerm "type", StringTerm type)] [])
            then [make (type ++ "0")] else [].
Proof.
  intros Hin. cbv zeta. split; [reflexivity|].
  destruct Hin as [H|[H|[H|[H|[]]]]]; injection H as <- <-;
    cbv [Reasoner.loadReasoner Reasoner.loadReasoner_factory
         Reasoner.loadReasoner_with Reasoner.ReasonerManager_new
         Reasoner.addReasonerFactory Reasoner.get_optional
         Reasoner.get_child_optional Reasoner.children_of
         Reasoner.find_child Reasoner.get_value Reasoner.data_of];
    cbv;
    match goal with
    | |- context [loadConfiguration ?r ?c] =>
        destruct (loadConfiguration r c)
    end;
    eexists; eexists; (split; [reflexivity|]); split; reflexivity.
Qed.

Lemma new_manager_loads_built_in_types_witness :
  let this := Reasoner.ReasonerManager_new
                (fun s => ("M:" ++ s)%string) (fun s => ("P:" ++ s)%string)
                (fun s => ("E:" ++ s)%string) (fun s => ("S:" ++ s)%string) in
  let config := Reasoner.PTree EmptyString
                  [("type", Reasoner.PTree "ESG" [])] in
  Reasoner.reasonerPool_ this = []
  /\ exists this' log',
       Reasoner.loadReasoner accepts_no_settings no_shared_object this []
         config
       = Reasoner.Returns (this', log')
       /\ Reasoner.reasonerIndex_ this' = 1%N
       /\ Reasoner.reasonerPool_ this'
          = if accepts_no_settings ("E:" ++ ("ESG" ++ "0"))%string
                 (Reasoner.mkConfiguration
                    [(StringTerm "type", StringTerm "ESG")] [])
            then ["E:" ++ ("ESG" ++ "0")]%string else [].
Proof.
  apply (@new_manager_loads_built_in_types string accepts_no_settings
           no_shared_object
           (fun s => ("M:" ++ s)%string) (fun s => ("P:" ++ s)%string)
           (fun s => ("E:" ++ s)%string) (fun s => ("S:" ++ s)%string)
           "ESG" (fun s => ("E:" ++ s)%string) []).
  cbn. tauto.
Defined.

(** ** The modal operators that option lists give *)

Ltac by_cases :=
  repeat (match goal with
          | |- context [match ?x with _ => _ end] => destruct x eqn:?
          end; try discriminate).

Lemma createK_loop_accepts (options : list Term) :
  forall (a : option string) (op : QueryParser.ModalOperator)
         (rest : list ascii),
    QueryParser.createK_loop options a = QueryParser.Match op rest ->
    List.length options <= free a
    /\ exists a', op = QueryParser.K a' /\ a' <> Some "self".
Proof.
  induction options as [|opt r IH]; intros a op rest.
  - cbn [QueryParser.createK_loop List.length]. intros H. split; [lia|].
    destruct a as [v|].
    + destruct (String.eqb_spec v "self") as [E|E]; cbn [negb] in H;
        injection H as <- _; eexists; (split; [reflexivity|]);
        [discriminate|congruence].
    + injection H as <- _. eexists; split; [reflexivity|discriminate].
  - cbn [QueryParser.createK_loop].
    unfold QueryParser.createK_option, QueryParser.reportUnrecognized.
    by_cases; intros H; apply IH in H; destruct H as [Hlen Hop];
      cbn [List.length free] in *; (split; [lia|exact Hop]).
Qed.

Lemma createB_loop_accepts (options : list Term) :
  forall (a : option string) (c : option double)
         (op : QueryParser.ModalOperator) (rest : list ascii),
    QueryParser.createB_loop options a c = QueryParser.Match op rest ->
    List.length options <= free a + free c
    /\ exists a' c', op = QueryParser.B a' c' /\ a' <> Some "self".
Proof.
  induction options as [|opt r IH]; intros a c op rest.
  - cbn [QueryParser.createB_loop List.length]. intros H.
    split; [lia|]. injection H as <- _. eexists; eexists.
    split; [reflexivity|].
    destruct a as [v|]; [|discriminate].
    destruct (String.eqb_spec v "self"); congruence.
  - cbn [QueryParser.createB_loop].
    unfold QueryParser.createB_option, QueryParser.reportUnrecognized.
    by_cases; intros H; apply IH in H; destruct H as [Hlen Hop];
      cbn [List.length free] in *; (split; [lia|exact Hop]).
Qed.

Lemma readTimeInterval_loop_accepts (options : list Term) :
  forall (b e : option double) (r : option QueryParser.TimeInterval)
         (rest : list ascii),
    QueryParser.readTimeInterval_loop options b e
    = QueryParser.Match r rest ->
    List.length options <= free b + free e
    /\ (r = None -> b = None /\ e = None /\ options = [])
    /\ (forall iv, r = Some iv ->
          QueryParser.since iv <> None \/ QueryParser.until iv <> None).
Proof.
  induction options as [|opt r0 IH]; intros b e r rest.
  - cbn [QueryParser.readTimeInterval_loop List.length]. intros H.
    split; [lia|].
    destruct b as [vb|], e as [ve|]; injection H as <- _;
      (split; [try discriminate; auto|]); intros iv Hiv;
      try discriminate Hiv; injection Hiv as <-; cbn;
      try (left; discriminate); right; discriminate.
  - cbn [QueryParser.readTimeInterval_loop].
    unfold QueryParser.readTimeInterval_option,
      QueryParser.reportUnrecognized.
    by_cases; intros H; apply IH in H; destruct H as (Hlen & Hnone & Hsome);
      cbn [List.length free] in *;
      (split; [lia|]);
      (split; [intros Hr; destruct (Hnone Hr) as (? & ? & ?); discriminate
              |exact Hsome]).
Qed.

(** X21: [createK] and [createB] on a list of options that they accept.
    The list has no more options than the operator has parameters, one
    for [K] and two for [B], and the agent of the operator is never
    ["self"]: that name gives the operator without an agent. *)
Theorem createK_createB_accept
    (options : list Term) (op : QueryParser.ModalOperator)
    (rest : list ascii) :
  (QueryParser.createK (ListTerm options) = QueryParser.Match op rest ->
   List.length options <= 1
   /\ exists a, op = QueryParser.K a /\ a <> Some "self")
  /\ (QueryParser.createB (ListTerm options) = QueryParser.Match op rest ->
      List.length options <= 2
      /\ exists a c, op = QueryParser.B a c /\ a <> Some "self").
Proof.
  split.
  - destruct options as [|o r].
    + cbn. intros H. injection H as <- _. split; [lia|].
      eexists; split; [reflexivity|discriminate].
    + intros H. apply (@createK_loop_accepts (o :: r) None op rest H).
  - destruct options as [|o r].
    + cbn. intros H. injection H as <- _. split; [lia|].
      eexists; eexists; split; [reflexivity|discriminate].
    + intros H. apply (@createB_loop_accepts (o :: r) None None op rest H).
Qed.

Lemma createPast_accepts
    (make : option QueryParser.TimeInterval -> QueryParser.ModalOperator)
    (options : list Term) (op : QueryParser.ModalOperator)
    (rest : list ascii) :
  QueryParser.createPast make (ListTerm options)
  = QueryParser.Match op rest ->
  List.length options <= 2
  /\ exists timeInterval,
       op = make timeInterval
       /\ (timeInterval = None <-> options = [])
       /\ forall iv, timeInterval = Some iv ->
            QueryParser.since iv <> None \/ QueryParser.until iv <> None.
Proof.
  intros H. destruct options as [|o r].
  - cbn in H. injection H as <- _. split; [cbn; lia|].
    exists None. split; [reflexivity|]. split; [tauto|discriminate].
  - unfold QueryParser.createPast, QueryParser.readTimeInterval in H.
    destruct (QueryParser.readTimeInterval_loop (o :: r) None None)
      as [ti rest'| | | |] eqn:E; try discriminate H.
    injection H as <- _.
    destruct (@readTimeInterval_loop_accepts (o :: r) None None ti rest' E)
      as (Hlen & Hnone & Hsome).
    split; [exact Hlen|]. exists ti. split; [reflexivity|].
    split; [|exact Hsome].
    split; [intros Hti; apply Hnone, Hti|discriminate].
Qed.

(** X22: [createP] and [createH] on a list of options that they accept.
    The list has at most two options; the operator has a time interval
    exactly when the list has an option, and the interval has a begin or
    an end. *)
Theorem createP_createH_accept
    (options : list Term) (op : QueryParser.ModalOperator)
    (rest : list ascii) :
  (QueryParser.createP (ListTerm options) = QueryParser.Match op rest ->
   List.length options <= 2
   /\ exists timeInterval,
        op = QueryParser.P timeInterval
        /\ (timeInterval = None <-> options = [])
        /\ forall iv, timeInterval = Some iv ->
             QueryParser.since iv <> None \/ QueryParser.until iv <> None)
  /\ (QueryParser.createH (ListTerm options) = QueryParser.Match op rest ->
      List.length options <= 2
      /\ exists timeInterval,
           op = QueryParser.H timeInterval
           /\ (timeInterval = None <-> options = [])
           /\ forall iv, timeInterval = Some iv ->
                QueryParser.since iv <> None
                \/ QueryParser.until iv <> None).
Proof. split; apply createPast_accepts. Qed.

(** A third time, an agent for [P], and both parameters of [B] by
    name. *)
Example options_at_work :
  QueryParser.createP
    (ListTerm [DoubleTerm (S754_zero false); DoubleTerm (S754_zero false);
               DoubleTerm (S754_zero false)])
  = QueryParser.Thrown (QueryParser.Unrecognized_option (DoubleTerm (S754_zero false)))
  /\ QueryParser.createB
       (ListTerm [Predicate_of "=" [StringTerm "c"; DoubleTerm (S754_zero false)];
                  Predicate_of "=" [StringTerm "a"; StringTerm "self"]])
     = QueryParser.Match (QueryParser.B None (Some (S754_zero false))) [].
Proof. split; reflexivity. Qed.

(** ** Words, IRIs and quoted atoms *)

Lemma span_all (f : ascii -> bool) (l : list ascii) :
  forallb f l = true -> QueryParser.span f l = (l, []).
Proof.
  induction l as [|c r IH]; [reflexivity|].
  cbn. intros H. apply andb_true_iff in H. destruct H as [Hc Hr].
  rewrite Hc, (IH Hr). reflexivity.
Qed.

Lemma span_stop (f : ascii -> bool) (l : list ascii) (c : ascii)
    (r : list ascii) :
  forallb f l = true -> f c = false ->
  QueryParser.span f (l ++ c :: r) = (l, c :: r).
Proof.
  intros Hl Hc. induction l as [|x l' IH].
  - cbn. rewrite Hc. reflexivity.
  - cbn in Hl |- *. apply andb_true_iff in Hl. destruct Hl as [Hx Hl'].
    rewrite Hx, (IH Hl'). reflexivity.
Qed.

Lemma list_ascii_of_string_app (a b : string) :
  list_ascii_of_string (a ++ b)
  = (list_ascii_of_string a ++ list_ascii_of_string b)%list.
Proof.
  induction a as [|c a IH]; [reflexivity|]. cbn. rewrite IH. reflexivity.
Qed.

(** A letter is none of the characters that start another rule. *)
Lemma alpha_is_no_sign (c x : ascii) :
  QueryParser.is_alpha c = true ->
  QueryParser.is_alpha x = false ->
  Ascii.eqb x c = false.
Proof.
  intros Hc Hx. destruct (Ascii.eqb_spec x c) as [->|]; [|reflexivity].
  rewrite Hc in Hx. discriminate Hx.
Qed.

Lemma lower_is_alpha (c : ascii) :
  QueryParser.is_lower c = true -> QueryParser.is_alpha c = true.
Proof. unfold QueryParser.is_alpha. intros ->. reflexivity. Qed.

Lemma lower_is_no_upper (c x : ascii) :
  QueryParser.is_lower c = true ->
  QueryParser.is_lower x = false ->
  Ascii.eqb x c = false.
Proof.
  intros Hc Hx. destruct (Ascii.eqb_spec x c) as [->|]; [|reflexivity].
  rewrite Hc in Hx. discriminate Hx.
Qed.

Lemma alpha_is_no_space (c : ascii) :
  QueryParser.is_alpha c = true -> QueryParser.is_space c = false.
Proof.
  unfold QueryParser.is_alpha, QueryParser.is_lower, QueryParser.is_upper,
    QueryParser.is_space, QueryParser.between.
  generalize (QueryParser.code c) as n. intros n H.
  destruct (Nat.leb_spec 97 n), (Nat.leb_spec n 122), (Nat.leb_spec 65 n),
    (Nat.leb_spec n 90), (Nat.leb_spec 9 n), (Nat.leb_spec n 13),
    (Nat.eqb_spec n 32); cbn in *; try reflexivity; try discriminate; lia.
Qed.

Section Words.
Variable registry : string -> string -> option string.
Variable c : ascii.
Variable l : list ascii.
Hypothesis Hl : forallb QueryParser.word_char l = true.

Lemma singleQuotes_no_letter :
  QueryParser.is_alpha c = true ->
  QueryParser.singleQuotes (c :: l) = QueryParser.NoMatch.
Proof.
  intros Hc. unfold QueryParser.singleQuotes, QueryParser.bind,
    QueryParser.lit, QueryParser.char_, QueryParser.is_char.
  rewrite (@alpha_is_no_sign c QueryParser.quote Hc eq_refl). reflexivity.
Qed.

Lemma iri_no_colon :
  QueryParser.is_alpha c = true ->
  QueryParser.iri registry (c :: l) = QueryParser.NoMatch.
Proof.
  intros Hc. unfold QueryParser.iri, QueryParser.iri_ns, QueryParser.bind,
    QueryParser.char_, QueryParser.star.
  rewrite Hc, (span_all _ _ Hl). reflexivity.
Qed.

Hypothesis Hc : QueryParser.is_lower c = true.

Lemma atomRaw_word :
  QueryParser.atomRaw registry (c :: l)
  = QueryParser.Match (QueryParser.text (c :: l)) [].
Proof.
  unfold QueryParser.atomRaw, QueryParser.alt.
  rewrite (singleQuotes_no_letter (lower_is_alpha _ Hc)).
  rewrite (iri_no_colon (lower_is_alpha _ Hc)).
  unfold QueryParser.lowerPrefix, QueryParser.bind, QueryParser.char_,
    QueryParser.star.
  rewrite Hc, (span_all _ _ Hl). reflexivity.
Qed.

Lemma skip_word : QueryParser.skip (c :: l) = c :: l.
Proof.
  cbn. rewrite (alpha_is_no_space _ (lower_is_alpha _ Hc)). reflexivity.
Qed.

Lemma constant_word :
  QueryParser.constant registry (c :: l)
  = QueryParser.Match (StringTerm (QueryParser.text (c :: l))) [].
Proof.
  unfold QueryParser.constant, QueryParser.alt, QueryParser.atom,
    QueryParser.bind.
  rewrite atomRaw_word. reflexivity.
Qed.

Lemma predicate_word (n : nat) :
  QueryParser.predicate registry n (c :: l)
  = QueryParser.Match (Predicate_of (QueryParser.text (c :: l)) []) [].
Proof.
  unfold QueryParser.predicate, QueryParser.alt,
    QueryParser.predicateWithArgs, QueryParser.predicateNullary,
    QueryParser.bind, QueryParser.skipped.
  rewrite skip_word, atomRaw_word. reflexivity.
Qed.

Lemma sign_no_word {A : Type} (x : ascii) (k : ascii -> QueryParser.Parser A) :
  QueryParser.is_lower x = false ->
  QueryParser.bind (QueryParser.skipped (QueryParser.lit x)) k (c :: l)
  = QueryParser.NoMatch.
Proof.
  intros Hx. unfold QueryParser.bind, QueryParser.skipped, QueryParser.lit,
    QueryParser.char_, QueryParser.is_char.
  rewrite skip_word, (lower_is_no_upper _ x Hc Hx). reflexivity.
Qed.

Local Abbreviation F :=
  (QueryParser.PredicateFormula
     (mkIndicator (QueryParser.text (c :: l)) 0) []).

Lemma unary_word (n : nat) :
  QueryParser.unary (QueryParser.bnf registry (S (S (S n)))) (c :: l)
  = QueryParser.Match F [].
Proof.
  change (QueryParser.unary (QueryParser.bnf registry (S (S (S n)))))
    with (QueryParser.alt
            (QueryParser.alt
               (QueryParser.modalFormula
                  (QueryParser.bnf registry (S (S n))))
               (QueryParser.negation (QueryParser.bnf registry (S (S n)))))
            (QueryParser.as_formula
               (QueryParser.predicate registry (S (S n))))).
  change (QueryParser.modalFormula (QueryParser.bnf registry (S (S n))))
    with (QueryParser.alt
            (QueryParser.alt
               (QueryParser.alt
                  (QueryParser.belief (QueryParser.bnf registry (S n)))
                  (QueryParser.knowledge (QueryParser.bnf registry (S n))))
               (QueryParser.oncePast (QueryParser.bnf registry (S n))))
            (QueryParser.alwaysPast (QueryParser.bnf registry (S n)))).
  unfold QueryParser.alt at 1 2 3 4 5.
  assert (HB : QueryParser.belief (QueryParser.bnf registry (S n)) (c :: l)
               = QueryParser.NoMatch) by (apply sign_no_word; reflexivity).
  assert (HK : QueryParser.knowledge (QueryParser.bnf registry (S n)) (c :: l)
               = QueryParser.NoMatch) by (apply sign_no_word; reflexivity).
  assert (HP : QueryParser.oncePast (QueryParser.bnf registry (S n)) (c :: l)
               = QueryParser.NoMatch) by (apply sign_no_word; reflexivity).
  assert (HH : QueryParser.alwaysPast (QueryParser.bnf registry (S n)) (c :: l)
               = QueryParser.NoMatch) by (apply sign_no_word; reflexivity).
  assert (HN : QueryParser.negation (QueryParser.bnf registry (S (S n)))
                 (c :: l)
               = QueryParser.NoMatch) by (apply sign_no_word; reflexivity).
  rewrite HB, HK, HP, HH, HN.
  unfold QueryParser.as_formula, QueryParser.bind.
  rewrite predicate_word. reflexivity.
Qed.

Lemma brackets_word (n : nat) :
  QueryParser.brackets (QueryParser.bnf registry (S n)) (c :: l)
  = QueryParser.NoMatch.
Proof. apply sign_no_word. reflexivity. Qed.

Lemma conjunction_word (n : nat) :
  QueryParser.conjunction (QueryParser.bnf registry (S (S (S (S n)))))
    (c :: l)
  = QueryParser.Match F [].
Proof.
  set (r := QueryParser.bnf registry (S (S (S n)))).
  change (QueryParser.conjunction (QueryParser.bnf registry (S (S (S (S n))))))
    with (QueryParser.alt
            (QueryParser.bind
               (QueryParser.alt (QueryParser.unary r) (QueryParser.brackets r))
               (fun phi =>
                  QueryParser.bind
                    (QueryParser.alt
                       (QueryParser.skipped (QueryParser.lit ","))
                       (QueryParser.skipped (QueryParser.lit "&")))
                    (fun _ =>
                       QueryParser.bind
                         (QueryParser.alt (QueryParser.conjunction r)
                            (QueryParser.brackets r))
                         (fun psi =>
                            QueryParser.attr (QueryParser.and_ phi psi)))))
            (QueryParser.unary r)).
  unfold QueryParser.alt at 1. unfold QueryParser.bind at 1.
  unfold QueryParser.alt at 1. subst r. rewrite unary_word. reflexivity.
Qed.

Lemma disjunction_word (n : nat) :
  QueryParser.disjunction
    (QueryParser.bnf registry (S (S (S (S (S n)))))) (c :: l)
  = QueryParser.Match F [].
Proof.
  set (r := QueryParser.bnf registry (S (S (S (S n))))).
  change (QueryParser.disjunction
            (QueryParser.bnf registry (S (S (S (S (S n)))))))
    with (QueryParser.alt
            (QueryParser.bind
               (QueryParser.alt (QueryParser.conjunction r)
                  (QueryParser.brackets r))
               (fun phi =>
                  QueryParser.bind
                    (QueryParser.alt
                       (QueryParser.skipped (QueryParser.lit ";"))
                       (QueryParser.skipped (QueryParser.lit "|")))
                    (fun _ =>
                       QueryParser.bind
                         (QueryParser.alt (QueryParser.disjunction r)
                            (QueryParser.brackets r))
                         (fun psi =>
                            QueryParser.attr (QueryParser.or_ phi psi)))))
            (QueryParser.conjunction r)).
  unfold QueryParser.alt at 1. unfold QueryParser.bind at 1.
  unfold QueryParser.alt at 1. subst r. rewrite conjunction_word.
  reflexivity.
Qed.

Lemma implication_word (n : nat) :
  QueryParser.implication
    (QueryParser.bnf registry (S (S (S (S (S (S n))))))) (c :: l)
  = QueryParser.Match F [].
Proof.
  set (r := QueryParser.bnf registry (S (S (S (S (S n)))))).
  change (QueryParser.implication
            (QueryParser.bnf registry (S (S (S (S (S (S n))))))))
    with (QueryParser.alt
            (QueryParser.bind
               (QueryParser.alt (QueryParser.disjunction r)
                  (QueryParser.brackets r))
               (fun phi =>
                  QueryParser.bind
                    (QueryParser.skipped
                       (QueryParser.lit_string (list_ascii_of_string "->")))
                    (fun _ =>
                       QueryParser.bind
                         (QueryParser.alt (QueryParser.implication r)
                            (QueryParser.brackets r))
                         (fun psi =>
                            QueryParser.attr
                              (QueryParser.Implication phi psi)))))
            (QueryParser.disjunction r)).
  unfold QueryParser.alt at 1. unfold QueryParser.bind at 1.
  unfold QueryParser.alt at 1. subst r. rewrite disjunction_word.
  reflexivity.
Qed.

Lemma formula_word (n : nat) :
  QueryParser.formula
    (QueryParser.bnf registry (S (S (S (S (S (S (S n)))))))) (c :: l)
  = QueryParser.Match F [].
Proof.
  set (r := QueryParser.bnf registry (S (S (S (S (S (S n))))))).
  change (QueryParser.formula
            (QueryParser.bnf registry (S (S (S (S (S (S (S n)))))))))
    with (QueryParser.alt (QueryParser.implication r)
            (QueryParser.brackets r)).
  unfold QueryParser.alt. subst r. rewrite implication_word. reflexivity.
Qed.

End Words.

(** X23: a word that starts with a lower-case letter is read by every
    entry of the parser, whatever prefixes are registered: it is the raw
    atom and the constant of that name, the predicate of that name
    without arguments, and as a formula that predicate. *)
Theorem lower_case_word_parses
    (registry : string -> string -> option string) (s : string) :
  is_word QueryParser.is_lower s = true ->
  QueryParser.parseRawAtom registry s = QueryParser.Returns s
  /\ QueryParser.parseConstant registry s
     = QueryParser.Returns (StringTerm s)
  /\ QueryParser.parsePredicate registry s
     = QueryParser.Returns (Predicate_of s [])
  /\ QueryParser.parse registry s = QueryParser.Returns (nullary s).
Proof.
  unfold is_word. intros Hw.
  destruct (list_ascii_of_string s) as [|c l] eqn:Es; [discriminate Hw|].
  apply andb_true_iff in Hw. destruct Hw as [Hc Hl].
  assert (Htext : QueryParser.text (c :: l) = s).
  { unfold QueryParser.text. rewrite <- Es.
    apply string_of_list_ascii_of_string. }
  unfold QueryParser.parseRawAtom, QueryParser.parseConstant,
    QueryParser.parsePredicate, QueryParser.parse, QueryParser.parse_,
    QueryParser.skipped.
  rewrite Es, (@skip_word c l Hc).
  rewrite (@atomRaw_word registry c l Hl Hc),
    (@constant_word registry c l Hl Hc),
    (@predicate_word registry c l Hl Hc), Htext.
  split; [reflexivity|]. split; [reflexivity|]. split; [reflexivity|].
  assert (Hd : exists k, QueryParser.depth s = S (S (S (S (S (S (S k))))))).
  { exists (8 * String.length s + 9). unfold QueryParser.depth. lia. }
  destruct Hd as [k ->].
  rewrite (@formula_word registry c l Hl Hc), Htext. reflexivity.
Qed.

Lemma lower_case_word_parses_witness :
  QueryParser.parseRawAtom owl_registry "is_a1" = QueryParser.Returns "is_a1"
  /\ QueryParser.parseConstant owl_registry "is_a1"
     = QueryParser.Returns (StringTerm "is_a1")
  /\ QueryParser.parsePredicate owl_registry "is_a1"
     = QueryParser.Returns (Predicate_of "is_a1" [])
  /\ QueryParser.parse owl_registry "is_a1"
     = QueryParser.Returns (nullary "is_a1").
Proof.
  apply (@lower_case_word_parses owl_registry "is_a1"). reflexivity.
Defined.

Lemma text_of_string (s : string) :
  QueryParser.text (list_ascii_of_string s) = s.
Proof. apply string_of_list_ascii_of_string. Qed.

(** X24: [ns:entity], two words that start with a letter, is read as a
    raw atom by asking the registry: the IRI that the registry gives is
    the result, and where the prefix is not registered the parser throws
    "Cannot construct IRI" and does not go on to read a plain atom. *)
Theorem iri_parses
    (registry : string -> string -> option string) (ns entity : string) :
  is_word QueryParser.is_alpha ns = true ->
  is_word QueryParser.is_alpha entity = true ->
  QueryParser.parseRawAtom registry (ns ++ ":" ++ entity)
  = match registry ns entity with
    | Some uri => QueryParser.Returns uri
    | None => QueryParser.Throws (QueryParser.Cannot_construct_IRI entity ns)
    end.
Proof.
  unfold is_word. intros Hns Hentity.
  pose proof (text_of_string ns) as Tns.
  pose proof (text_of_string entity) as Tentity.
  destruct (list_ascii_of_string ns) as [|cn ln] eqn:En; [discriminate Hns|].
  destruct (list_ascii_of_string entity) as [|ce le] eqn:Ee;
    [discriminate Hentity|].
  apply andb_true_iff in Hns. destruct Hns as [Hcn Hln].
  apply andb_true_iff in Hentity. destruct Hentity as [Hce Hle].
  unfold QueryParser.parseRawAtom, QueryParser.parse_, QueryParser.skipped.
  rewrite !list_ascii_of_string_app, En, Ee.
  cbn [list_ascii_of_string app QueryParser.skip].
  rewrite (alpha_is_no_space _ Hcn).
  unfold QueryParser.atomRaw, QueryParser.alt.
  rewrite (@singleQuotes_no_letter cn _ Hcn).
  unfold QueryParser.iri, QueryParser.iri_ns, QueryParser.bind at 1 2 3.
  unfold QueryParser.char_ at 1. rewrite Hcn.
  unfold QueryParser.star at 1.
  rewrite (@span_stop QueryParser.word_char ln ":" (ce :: le) Hln eq_refl).
  cbn [QueryParser.attr]. unfold QueryParser.bind at 1.
  unfold QueryParser.lit, QueryParser.char_ at 1, QueryParser.is_char.
  rewrite Ascii.eqb_refl.
  unfold QueryParser.bind at 1. unfold QueryParser.iri_entity,
    QueryParser.alt.
  rewrite (@singleQuotes_no_letter ce _ Hce).
  unfold QueryParser.bind, QueryParser.char_, QueryParser.star.
  rewrite Hce, (span_all _ _ Hle). cbn [QueryParser.attr].
  rewrite Tns, Tentity. unfold QueryParser.createIRI.
  destruct (registry ns entity); reflexivity.
Qed.

Lemma iri_parses_witness :
  QueryParser.parseRawAtom owl_registry ("owl" ++ ":" ++ "Thing")
  = match owl_registry "owl" "Thing" with
    | Some uri => QueryParser.Returns uri
    | None =>
        QueryParser.Throws (QueryParser.Cannot_construct_IRI "Thing" "owl")
    end.
Proof.
  apply (@iri_parses owl_registry "owl" "Thing"); reflexivity.
Defined.

(** X25: a text between single quotes that is not empty and has no
    single quote in it is read as the raw atom and as the constant of
    that text, whatever else is in it. *)
Theorem quoted_atom_parses
    (registry : string -> string -> option string) (t : string) :
  t <> EmptyString ->
  forallb (fun c => negb (Ascii.eqb c QueryParser.quote))
    (list_ascii_of_string t) = true ->
  QueryParser.parseRawAtom registry ("'" ++ t ++ "'") = QueryParser.Returns t
  /\ QueryParser.parseConstant registry ("'" ++ t ++ "'")
     = QueryParser.Returns (StringTerm t).
Proof.
  intros Hne Hq. pose proof (text_of_string t) as Tt.
  destruct (list_ascii_of_string t) as [|c l] eqn:Et.
  { exfalso. apply Hne. rewrite <- Tt. reflexivity. }
  assert (Hraw : QueryParser.atomRaw registry
                   (QueryParser.skip
                      (list_ascii_of_string ("'" ++ t ++ "'")))
                 = QueryParser.Match t []).
  { rewrite !list_ascii_of_string_app, Et.
    cbn [list_ascii_of_string app QueryParser.skip].
    change (QueryParser.is_space "'") with false. cbv iota.
    unfold QueryParser.atomRaw, QueryParser.alt, QueryParser.singleQuotes.
    unfold QueryParser.bind at 1. unfold QueryParser.lit at 1.
    unfold QueryParser.char_ at 1, QueryParser.is_char.
    change (Ascii.eqb QueryParser.quote "'") with true. cbv iota.
    unfold QueryParser.bind at 1. unfold QueryParser.plus.
    change (c :: (l ++ ["'"%char])%list) with ((c :: l) ++ ["'"%char])%list.
    rewrite (@span_stop (fun x => negb (Ascii.eqb x QueryParser.quote))
               (c :: l) "'" [] Hq eq_refl).
    cbv iota. unfold QueryParser.bind, QueryParser.lit, QueryParser.char_,
      QueryParser.is_char.
    change (Ascii.eqb QueryParser.quote "'") with true. cbv iota.
    cbn [QueryParser.attr]. rewrite Tt. reflexivity. }
  unfold QueryParser.parseRawAtom, QueryParser.parseConstant,
    QueryParser.parse_, QueryParser.skipped, QueryParser.constant,
    QueryParser.alt, QueryParser.atom.
  unfold QueryParser.bind at 1. rewrite Hraw. split; reflexivity.
Qed.

Lemma quoted_atom_parses_witness :
  QueryParser.parseRawAtom owl_registry ("'" ++ "x #/&" ++ "'")
  = QueryParser.Returns "x #/&"
  /\ QueryParser.parseConstant owl_registry ("'" ++ "x #/&" ++ "'")
     = QueryParser.Returns (StringTerm "x #/&").
Proof.
  apply (@quoted_atom_parses owl_registry "x #/&");
    [discriminate|reflexivity].
Defined.

(** ** Variables as arguments *)

Lemma span_until (f : ascii -> bool) (l rest : list ascii) :
  forallb f l = true ->
  match rest with [] => True | x :: _ => f x = false end ->
  QueryParser.span f (l ++ rest) = (l, rest).
Proof.
  intros Hl Hrest. destruct rest as [|x r].
  - rewrite app_nil_r. apply span_all, Hl.
  - apply span_stop; assumption.
Qed.

Lemma upper_is_alpha (c : ascii) :
  QueryParser.is_upper c = true -> QueryParser.is_alpha c = true.
Proof.
  unfold QueryParser.is_alpha. intros ->. apply orb_true_r.
Qed.

Lemma upper_is_no_lower (c : ascii) :
  QueryParser.is_upper c = true -> QueryParser.is_lower c = false.
Proof.
  unfold QueryParser.is_lower, QueryParser.is_upper, QueryParser.between.
  generalize (QueryParser.code c) as n. intros n H.
  destruct (Nat.leb_spec 97 n), (Nat.leb_spec n 122), (Nat.leb_spec 65 n),
    (Nat.leb_spec n 90); cbn in *; try reflexivity; try discriminate; lia.
Qed.

(** A word that is followed by the end or by a character that is no
    word character and no colon: the raw atom of the word if it starts in
    lower case, and no raw atom otherwise. *)
Lemma atomRaw_word_then
    (registry : string -> string -> option string)
    (c : ascii) (l rest : list ascii) :
  QueryParser.is_alpha c = true ->
  forallb QueryParser.word_char l = true ->
  match rest with
  | [] => True
  | x :: _ => QueryParser.word_char x = false /\ Ascii.eqb ":" x = false
  end ->
  QueryParser.atomRaw registry (c :: l ++ rest)
  = if QueryParser.is_lower c
    then QueryParser.Match (QueryParser.text (c :: l)) rest
    else QueryParser.NoMatch.
Proof.
  intros Hc Hl Hrest.
  assert (Hspan : QueryParser.span QueryParser.word_char (l ++ rest)
                  = (l, rest)).
  { apply span_until; [exact Hl|]. destruct rest; [exact I|apply Hrest]. }
  unfold QueryParser.atomRaw, QueryParser.alt.
  rewrite (@singleQuotes_no_letter c _ Hc).
  unfold QueryParser.iri, QueryParser.iri_ns, QueryParser.bind at 1 2 3.
  unfold QueryParser.char_ at 1. rewrite Hc.
  unfold QueryParser.star at 1. rewrite Hspan. cbn [QueryParser.attr].
  unfold QueryParser.bind at 1.
  assert (Hcolon : QueryParser.lit ":" rest = QueryParser.NoMatch).
  { unfold QueryParser.lit, QueryParser.char_, QueryParser.is_char.
    destruct rest as [|x r]; [reflexivity|].
    destruct Hrest as [_ ->]. reflexivity. }
  rewrite Hcolon.
  unfold QueryParser.lowerPrefix, QueryParser.bind, QueryParser.char_,
    QueryParser.star.
  destruct (QueryParser.is_lower c); [|reflexivity].
  rewrite Hspan. reflexivity.
Qed.

(** X26: a word that starts with an upper-case letter is a variable: it
    is refused as a raw atom and as a predicate, and as the argument of a
    predicate whose name is a lower-case word it is read as the variable
    of that name. *)
Theorem upper_case_word_is_a_variable
    (registry : string -> string -> option string) (f x : string) :
  is_word QueryParser.is_lower f = true ->
  is_word QueryParser.is_upper x = true ->
  QueryParser.parseRawAtom registry x
  = QueryParser.Throws (QueryParser.Invalid_syntax x)
  /\ QueryParser.parsePredicate registry x
     = QueryParser.Throws (QueryParser.Invalid_syntax x)
  /\ QueryParser.parsePredicate registry (f ++ "(" ++ x ++ ")")
     = QueryParser.Returns (Predicate_of f [Variable_ x]).
Proof.
  unfold is_word. intros Hf Hx.
  pose proof (text_of_string f) as Tf.
  pose proof (text_of_string x) as Tx.
  destruct (list_ascii_of_string f) as [|cf lf] eqn:Ef; [discriminate Hf|].
  destruct (list_ascii_of_string x) as [|cx lx] eqn:Ex; [discriminate Hx|].
  apply andb_true_iff in Hf. destruct Hf as [Hcf Hlf].
  apply andb_true_iff in Hx. destruct Hx as [Hcx Hlx].
  pose proof (upper_is_alpha _ Hcx) as Hax.
  pose proof (lower_is_alpha _ Hcf) as Haf.
  pose proof (upper_is_no_lower _ Hcx) as Hnx.
  assert (Hraw : forall rest,
             match rest with
             | [] => True
             | y :: _ => QueryParser.word_char y = false
                         /\ Ascii.eqb ":" y = false
             end ->
             QueryParser.atomRaw registry (cx :: lx ++ rest)
             = QueryParser.NoMatch).
  { intros rest Hrest.
    rewrite (@atomRaw_word_then registry cx lx rest Hax Hlx Hrest), Hnx.
    reflexivity. }
  assert (Hskipx : forall rest,
             QueryParser.skip (cx :: lx ++ rest) = cx :: lx ++ rest).
  { intros rest. cbn. rewrite (alpha_is_no_space _ Hax). reflexivity. }
  split; [|split].
  - unfold QueryParser.parseRawAtom, QueryParser.parse_, QueryParser.skipped.
    rewrite Ex. rewrite <- (app_nil_r lx). rewrite Hskipx, (Hraw [] I).
    reflexivity.
  - unfold QueryParser.parsePredicate, QueryParser.parse_,
      QueryParser.predicate, QueryParser.alt, QueryParser.predicateWithArgs,
      QueryParser.predicateNullary, QueryParser.bind, QueryParser.skipped.
    rewrite Ex. rewrite <- (app_nil_r lx). rewrite Hskipx, (Hraw [] I).
    reflexivity.
  - unfold QueryParser.parsePredicate, QueryParser.parse_.
    assert (Hd : exists k, QueryParser.depth (f ++ "(" ++ x ++ ")") = S k).
    { exists (8 * String.length (f ++ "(" ++ x ++ ")") + 15).
      unfold QueryParser.depth. lia. }
    destruct Hd as [k ->].
    rewrite !list_ascii_of_string_app, Ef, Ex.
    cbn [list_ascii_of_string app].
    unfold QueryParser.predicate, QueryParser.alt,
      QueryParser.predicateWithArgs.
    unfold QueryParser.bind at 1. unfold QueryParser.skipped at 1.
    cbn [QueryParser.skip]. rewrite (alpha_is_no_space _ Haf).
    rewrite (@atomRaw_word_then registry cf lf
               ("("%char :: cx :: (lx ++ [")"%char])%list) Haf Hlf
               (conj eq_refl eq_refl)), Hcf.
    unfold QueryParser.bind at 1. unfold QueryParser.skipped at 1.
    cbn [QueryParser.skip]. change (QueryParser.is_space "(") with false.
    cbv iota. unfold QueryParser.lit at 1. unfold QueryParser.char_ at 1.
    unfold QueryParser.is_char at 1. rewrite Ascii.eqb_refl.
    unfold QueryParser.bind at 1. unfold QueryParser.list_of.
    unfold QueryParser.skipped at 1. rewrite Hskipx.
    cbn [QueryParser.argument]. unfold QueryParser.alt at 1 2 3.
    unfold QueryParser.compound_of. unfold QueryParser.bind at 1.
    rewrite (Hraw [")"%char] (conj eq_refl eq_refl)).
    unfold QueryParser.variable, QueryParser.upperPrefix, QueryParser.bind,
      QueryParser.char_ at 1, QueryParser.star.
    rewrite Hcx, (@span_stop QueryParser.word_char lx ")" [] Hlx eq_refl).
    cbn.
    change (String cf (string_of_list_ascii lf))
      with (QueryParser.text (cf :: lf)).
    change (String cx (string_of_list_ascii lx))
      with (QueryParser.text (cx :: lx)).
    rewrite Tf, Tx. reflexivity.
Qed.

Lemma upper_case_word_is_a_variable_witness :
  QueryParser.parseRawAtom owl_registry "Who"
  = QueryParser.Throws (QueryParser.Invalid_syntax "Who")
  /\ QueryParser.parsePredicate owl_registry "Who"
     = QueryParser.Throws (QueryParser.Invalid_syntax "Who")
  /\ QueryParser.parsePredicate owl_registry ("likes" ++ "(" ++ "Who" ++ ")")
     = QueryParser.Returns (Predicate_of "likes" [Variable_ "Who"]).
Proof.
  apply (@upper_case_word_is_a_variable owl_registry "likes" "Who");
    reflexivity.
Defined.

(** ** The sort options of [MongoCursor] *)

Section SortDocuments.
Variable bson_t : Type.
Variable BCON_NEW_sort : string -> Z -> bson_t.
Variable bson_concat : bson_t -> bson_t -> bson_t.

Local Abbreviation direction c := (if is_ascending c then 1%Z else (-1)%Z).

Local Abbreviation static_of statics c :=
  (if is_ascending c
   then MongoCursor.ascending_doc statics
   else MongoCursor.descending_doc statics).

Local Abbreviation doc_with statics cs c :=
  (match static_of statics c with
   | Some doc => doc
   | None => BCON_NEW_sort (first_key cs c) (direction c)
   end).

Lemma sort_calls_spec (cs : list SortCall) :
  forall (statics : MongoCursor.Statics bson_t) (opts : bson_t),
    snd (sort_calls BCON_NEW_sort bson_concat statics opts cs)
    = List.map (fun c => bson_concat opts (doc_with statics cs c)) cs.
Proof.
  induction cs as [|c rest IH]; intros statics opts; [reflexivity|].
  cbn [sort_calls List.map].
  destruct c as [key|key];
    unfold MongoCursor.ascending, MongoCursor.descending.
  - match goal with
    | |- context [sort_calls _ _ ?st opts rest] => specialize (IH st opts)
    end.
    destruct (sort_calls _ _ _ opts rest) as [st out]. cbn [snd] in *.
    apply (f_equal2 cons); [reflexivity|]. rewrite IH. apply List.map_ext.
    intros [k|k]; unfold first_key; cbn; reflexivity.
  - match goal with
    | |- context [sort_calls _ _ ?st opts rest] => specialize (IH st opts)
    end.
    destruct (sort_calls _ _ _ opts rest) as [st out]. cbn [snd] in *.
    apply (f_equal2 cons); [reflexivity|]. rewrite IH. apply List.map_ext.
    intros [k|k]; unfold first_key; cbn; reflexivity.
Qed.

(** X27: the document of [ascending] is made once, and so is the one of
    [descending].  In a program that starts without them, every call of
    [ascending], on whatever cursor and with whatever key, appends the
    sort document of the key of the first call of [ascending] to the
    options, and likewise for [descending]. *)
Theorem sort_key_is_that_of_the_first_call
    (opts : bson_t) (cs : list SortCall) :
  snd (sort_calls BCON_NEW_sort bson_concat
         (MongoCursor.at_start bson_t) opts cs)
  = List.map
      (fun c => bson_concat opts
                  (BCON_NEW_sort (first_key cs c) (direction c)))
      cs.
Proof.
  rewrite sort_calls_spec. apply List.map_ext.
  intros [k|k]; reflexivity.
Qed.

End SortDocuments.

(** Two cursors sorted by different keys: both get the first key. *)
Example ascending_twice :
  snd (sort_calls (fun key d => [(key, d)]) (@app _)
         (MongoCursor.at_start _) []
         [Ascending "time"; Ascending "name"])
  = [[("time", 1%Z)]; [("time", 1%Z)]].
Proof. reflexivity. Qed.

(** ** White space before a constant *)

Lemma skip_spaces (ws l : list ascii) :
  forallb QueryParser.is_space ws = true ->
  QueryParser.skip (ws ++ l) = QueryParser.skip l.
Proof.
  induction ws as [|c r IH]; [reflexivity|].
  cbn. intros H. apply andb_true_iff in H. destruct H as [Hc Hr].
  rewrite Hc. apply IH, Hr.
Qed.

(** X29: white space before a raw atom or a constant is skipped: what
    [parseRawAtom] and [parseConstant] return for a text they return for
    the text with white space before it. *)
Theorem leading_space_is_skipped
    (registry : string -> string -> option string) (ws s : string) :
  forallb QueryParser.is_space (list_ascii_of_string ws) = true ->
  (forall r,
     QueryParser.parseRawAtom registry s = QueryParser.Returns r ->
     QueryParser.parseRawAtom registry (ws ++ s) = QueryParser.Returns r)
  /\ (forall t,
        QueryParser.parseConstant registry s = QueryParser.Returns t ->
        QueryParser.parseConstant registry (ws ++ s)
        = QueryParser.Returns t).
Proof.
  intros Hws.
  unfold QueryParser.parseRawAtom, QueryParser.parseConstant,
    QueryParser.parse_, QueryParser.skipped.
  rewrite list_ascii_of_string_app, (skip_spaces _ _ Hws).
  split.
  - intros r.
    destruct (QueryParser.atomRaw registry
                (QueryParser.skip (list_ascii_of_string s)))
      as [a rest| | | |]; try discriminate.
    destruct (QueryParser.skip rest); [|discriminate]. exact (fun H => H).
  - intros t.
    destruct (QueryParser.constant registry
                (QueryParser.skip (list_ascii_of_string s)))
      as [a rest| | | |]; try discriminate.
    destruct (QueryParser.skip rest); [|discriminate]. exact (fun H => H).
Qed.

Lemma leading_space_is_skipped_witness :
  (forall r,
     QueryParser.parseRawAtom owl_registry "owl:Thing" = QueryParser.Returns r ->
     QueryParser.parseRawAtom owl_registry ("  " ++ "owl:Thing")
     = QueryParser.Returns r)
  /\ (forall t,
        QueryParser.parseConstant owl_registry "owl:Thing"
        = QueryParser.Returns t ->
        QueryParser.parseConstant owl_registry ("  " ++ "owl:Thing")
        = QueryParser.Returns t).
Proof.
  apply (@leading_space_is_skipped owl_registry "  " "owl:Thing").
  reflexivity.
Defined.
